(** * Signaling orchestrator of the mediasoup video-conference server

    A shallow embedding of [server.js] (the WebSocket signaling server) and of
    the part of the browser client that keeps the pending-consumer queue,
    followed by the properties of the natural-language specification that
    can be stated about them.

    Conventions of the embedding.
    - A JavaScript [Map] is an insertion-ordered association list
      ([JsMap]); a [Set] of peer ids is an insertion-ordered list
      ([JsSet]).  Iteration order is the order of the list.
    - Socket objects are shared and mutable (their [readyState] changes
      behind the server's back), so the state keeps a store of ready
      states indexed by socket reference, and a peer holds a reference.
      Every frame handed to [socket.send] is appended to [outbox] together
      with the socket it was sent on.
    - The mediasoup library is an external collaborator: it is a parameter
      ([Engine]) whose calls may reject with an error message.
    - An [async] handler is one atomic transition: every awaited engine call
      resolves before the next event is taken.  A handler is a computation
      in the monad [M], which threads the server state and lets a thrown
      [Error] escape with the state reached so far.
    - [console.log] lines are dropped; [console.warn] and [console.error]
      are recorded in [console]. *)

From Stdlib Require Import List String Bool Arith Lia DecimalString.
Import ListNotations.
Open Scope string_scope.
Open Scope list_scope.

Set Implicit Arguments.

(** Opaque JSON values (RTP capabilities and parameters, DTLS and ICE data). *)
Definition Blob := string.

(** ** JavaScript containers *)

Module JsMap.

Definition t (V : Type) := list (string * V).

Definition empty {V : Type} : t V := [].

Fixpoint get {V : Type} (k : string) (m : t V) : option V :=
  match m with
  | [] => None
  | (k', v) :: m' => if k' =? k then Some v else get k m'
  end.

Definition has {V : Type} (k : string) (m : t V) : bool :=
  match get k m with Some _ => true | None => false end.

(** [m.set(k, v)]: an existing key keeps its position. *)
Fixpoint set {V : Type} (k : string) (v : V) (m : t V) : t V :=
  match m with
  | [] => [(k, v)]
  | (k', v') :: m' =>
      if k' =? k then (k, v) :: m' else (k', v') :: set k v m'
  end.

Definition delete {V : Type} (k : string) (m : t V) : t V :=
  filter (fun kv => negb (fst kv =? k)) m.

Definition keys {V : Type} (m : t V) : list string := map fst m.

Definition values {V : Type} (m : t V) : list V := map snd m.

Definition size {V : Type} (m : t V) : nat := List.length m.

(** In-place mutation of the object stored under [k] (no insertion). *)
Definition update {V : Type} (k : string) (f : V -> V) (m : t V) : t V :=
  map (fun kv => if fst kv =? k then (fst kv, f (snd kv)) else kv) m.

End JsMap.

Module JsSet.

Definition t := list string.

Definition empty : t := [].

Definition has (x : string) (s : t) : bool := existsb (String.eqb x) s.

Definition add (x : string) (s : t) : t := if has x s then s else s ++ [x].

Definition delete (x : string) (s : t) : t :=
  filter (fun y => negb (y =? x)) s.

Definition size (s : t) : nat := List.length s.

End JsSet.

(** [Array.prototype.find]. *)
Definition array_find {A : Type} (f : A -> bool) (l : list A) : option A :=
  List.find f l.

(** ** Data model of the server *)

Inductive ReadyState : Type := CONNECTING | OPEN | CLOSING | CLOSED.

Definition is_open (r : ReadyState) : bool :=
  match r with OPEN => true | _ => false end.

(** Handles returned by the engine. *)
Record TransportHandle : Type := {
  t_id : string;
  t_iceParameters : Blob;
  t_iceCandidates : Blob;
  t_dtlsParameters : Blob
}.

Record ProducerHandle : Type := { pr_id : string }.

Record ConsumerHandle : Type := {
  co_id : string;
  co_kind : string;
  co_rtpParameters : Blob
}.

(** Values of [peer.transports], [peer.producers] and [peer.consumers]. *)
Record TransportData : Type := {
  transport : TransportHandle;
  direction : string
}.

Record ProducerData : Type := {
  producer : ProducerHandle;
  kind : string
}.

Record ConsumerData : Type := {
  consumer : ConsumerHandle;
  producerId : string;
  producerPeerId : string
}.

Record Peer : Type := {
  p_id : string;
  p_socket : string;                       (* reference to the socket object *)
  transports : JsMap.t TransportData;
  producers : JsMap.t ProducerData;
  consumers : JsMap.t ConsumerData;
  roomId : option string                   (* [None] is [null] *)
}.

Record Room : Type := {
  r_id : string;
  r_peers : JsSet.t
}.

(** [if (peer.roomId)]: [null] and the empty string are falsy; a truthy
    room id is handed to the branch. *)
Definition truthy (o : option string) : option string :=
  match o with
  | Some s => if s =? "" then None else Some s
  | None => None
  end.

(** ** Signaling frames *)

Record ProducerRef : Type := {
  ref_producerId : string;
  ref_kind : string
}.

Record PeerInfo : Type := {
  pi_peerId : string;
  pi_producers : list ProducerRef
}.

(** Frames sent by the server, [{type, payload}]. *)
Inductive Frame : Type :=
| connected (peerId : string)
| routerRtpCapabilities (rtpCapabilities : Blob)
| roomJoined (roomId : string) (peers : list string)
             (existingProducers : list PeerInfo)
| newPeer (peerId : string)
| transportCreated (transportId : string) (iceParameters iceCandidates
                    dtlsParameters : Blob) (direction : string)
| transportConnected (transportId : string)
| produced (producerId kind : string)
| newProducer (peerId producerId kind : string)
| consumed (consumerId producerId producerPeerId kind : string)
           (rtpParameters : Blob)
| consumerResumed (consumerId : string)
| peerLeft (peerId : string)
| error (message : string).

(** Payload of a request: the fields the handlers destructure. *)
Record Payload : Type := {
  q_roomId : string;
  q_direction : string;
  q_transportId : string;
  q_dtlsParameters : Blob;
  q_kind : string;
  q_rtpParameters : Blob;
  q_producerId : string;
  q_rtpCapabilities : Blob;
  q_consumerId : string
}.

Record Message : Type := {
  type : string;
  payload : Payload
}.

Inductive Level : Type := Warn | Err.

(** ** The media engine (mediasoup), a parameter of the development *)

Record Engine : Type := {
  E : Type;
  rtpCapabilities : E -> Blob;
  createWebRtcTransport : E -> (string + TransportHandle) * E;
  connect : TransportHandle -> Blob -> E -> (string + unit) * E;
  produce :
    TransportHandle -> string -> Blob -> E -> (string + ProducerHandle) * E;
  canConsume : string -> Blob -> E -> bool;
  (* always called with [paused: true] *)
  consume :
    TransportHandle -> string -> Blob -> E -> (string + ConsumerHandle) * E;
  resume : ConsumerHandle -> E -> (string + unit) * E;
  close : TransportHandle -> E -> E
}.

(** ** The server *)

Section Server.

Variable eng : Engine.

(** The module-level state of [server.js]: the two registries, the engine
    behind [mediasoupRouter], and what the process has written to its
    sockets and to its console. *)
Record State : Type := {
  peers : JsMap.t Peer;
  rooms : JsMap.t Room;
  sockets : string -> ReadyState;
  engine : E eng;
  outbox : list (string * Frame);
  console : list (Level * string * string)
}.

Definition with_peers (f : JsMap.t Peer -> JsMap.t Peer) (st : State) : State :=
  {| peers := f (peers st); rooms := rooms st; sockets := sockets st;
     engine := engine st; outbox := outbox st; console := console st |}.

Definition with_rooms (f : JsMap.t Room -> JsMap.t Room) (st : State) : State :=
  {| peers := peers st; rooms := f (rooms st); sockets := sockets st;
     engine := engine st; outbox := outbox st; console := console st |}.

Definition with_sockets (f : string -> ReadyState) (st : State) : State :=
  {| peers := peers st; rooms := rooms st; sockets := f;
     engine := engine st; outbox := outbox st; console := console st |}.

Definition with_engine (e : E eng) (st : State) : State :=
  {| peers := peers st; rooms := rooms st; sockets := sockets st;
     engine := e; outbox := outbox st; console := console st |}.

Definition with_outbox (o : list (string * Frame)) (st : State) : State :=
  {| peers := peers st; rooms := rooms st; sockets := sockets st;
     engine := engine st; outbox := o; console := console st |}.

Definition with_console (c : list (Level * string * string)) (st : State)
  : State :=
  {| peers := peers st; rooms := rooms st; sockets := sockets st;
     engine := engine st; outbox := outbox st; console := c |}.

(** *** Handler monad: state, and [throw new Error(msg)] as [inl msg] *)

Definition M (A : Type) : Type := State -> (string + A) * State.

Definition ret {A : Type} (a : A) : M A := fun st => (inr a, st).

Definition throw {A : Type} (msg : string) : M A := fun st => (inl msg, st).

Definition bind {A B : Type} (c : M A) (k : A -> M B) : M B :=
  fun st =>
    match c st with
    | (inr a, st') => k a st'
    | (inl msg, st') => (inl msg, st')
    end.

Notation "x <- c ;; k" := (bind c (fun x => k))
  (at level 61, c at next level, right associativity).
Notation "c ;;; k" := (bind c (fun _ => k))
  (at level 61, right associativity).

Definition gets {A : Type} (f : State -> A) : M A := fun st => (inr (f st), st).

Definition modify (f : State -> State) : M unit := fun st => (inr tt, f st).

(** An awaited engine call: a rejection is rethrown. *)
Definition await {A : Type} (call : E eng -> (string + A) * E eng) : M A :=
  fun st =>
    let (r, e') := call (engine st) in (r, with_engine e' st).

(** [list.forEach(f)] *)
Fixpoint forEach {A : Type} (f : A -> M unit) (l : list A) : M unit :=
  match l with
  | [] => ret tt
  | x :: l' => f x ;;; forEach f l'
  end.

Definition console_warn (label detail : string) : M unit :=
  modify (fun st => with_console (console st ++ [(Warn, label, detail)]) st).

Definition console_error (label detail : string) : M unit :=
  modify (fun st => with_console (console st ++ [(Err, label, detail)]) st).

(** [sendMessage(socket, type, payload)] *)
Definition sendMessage (socket : string) (frame : Frame) : M unit :=
  fun st =>
    if is_open (sockets st socket)
    then (inr tt, with_outbox (outbox st ++ [(socket, frame)]) st)
    else (inr tt, st).

(** Mutation of the peer object [peer] through its reference. *)
Definition mutate_peer (peer : Peer) (f : Peer -> Peer) : M unit :=
  modify (with_peers (JsMap.update (p_id peer) f)).

Definition set_roomId (r : option string) (p : Peer) : Peer :=
  {| p_id := p_id p; p_socket := p_socket p; transports := transports p;
     producers := producers p; consumers := consumers p; roomId := r |}.

Definition set_transports (t : JsMap.t TransportData) (p : Peer) : Peer :=
  {| p_id := p_id p; p_socket := p_socket p; transports := t;
     producers := producers p; consumers := consumers p; roomId := roomId p |}.

Definition set_producers (t : JsMap.t ProducerData) (p : Peer) : Peer :=
  {| p_id := p_id p; p_socket := p_socket p; transports := transports p;
     producers := t; consumers := consumers p; roomId := roomId p |}.

Definition set_consumers (t : JsMap.t ConsumerData) (p : Peer) : Peer :=
  {| p_id := p_id p; p_socket := p_socket p; transports := transports p;
     producers := producers p; consumers := t; roomId := roomId p |}.

Definition set_r_peers (s : JsSet.t) (r : Room) : Room :=
  {| r_id := r_id r; r_peers := s |}.

(** [createWebRtcTransport(peerId, direction)]; the listeners it installs
    on the transport only log and close the transport itself. *)
Definition createWebRtcTransport_ (peerId direction_ : string)
  : M TransportHandle :=
  await (createWebRtcTransport eng).

Definition getRouterRtpCapabilities : M Blob :=
  gets (fun st => rtpCapabilities eng (engine st)).

Definition sendRouterCapabilitiesToPeer (peer : Peer) : M unit :=
  caps <- getRouterRtpCapabilities ;;
  sendMessage (p_socket peer) (routerRtpCapabilities caps).

(** The [{producerId, kind}] list collected from a peer's producers. *)
Definition producer_refs (p : Peer) : list ProducerRef :=
  map (fun d => {| ref_producerId := pr_id (producer d); ref_kind := kind d |})
      (JsMap.values (producers p)).

(** The body of the first [existingPeers.forEach] of
    [addPeerToRoomAndNotifyOthers]. *)
Definition collect_info (ps : JsMap.t Peer) (existingPeerId : string)
  : list PeerInfo :=
  match JsMap.get existingPeerId ps with
  | Some existingPeer =>
      let refs := producer_refs existingPeer in
      if Nat.ltb 0 (List.length refs)
      then [{| pi_peerId := existingPeerId; pi_producers := refs |}]
      else []
  | None => []
  end.

Definition addPeerToRoomAndNotifyOthers (peer : Peer) (payload : Payload)
  : M unit :=
  let roomId := q_roomId payload in
  has_room <- gets (fun st => JsMap.has roomId (rooms st)) ;;
  (if has_room then ret tt
   else modify (with_rooms
          (JsMap.set roomId {| r_id := roomId; r_peers := JsSet.empty |}))) ;;;
  room <- gets (fun st => JsMap.get roomId (rooms st)) ;;
  match room with
  | None => throw "TypeError"          (* unreachable: the room was just set *)
  | Some room =>
      let existingPeers :=
        filter (fun id => negb (id =? p_id peer)) (r_peers room) in
      modify (with_rooms (JsMap.update roomId
        (fun r => set_r_peers (JsSet.add (p_id peer) (r_peers r)) r))) ;;;
      mutate_peer peer (set_roomId (Some roomId)) ;;;
      existingPeersInfo <-
        gets (fun st => flat_map (collect_info (peers st)) existingPeers) ;;
      sendMessage (p_socket peer)
        (roomJoined roomId existingPeers existingPeersInfo) ;;;
      forEach (fun existingPeerId =>
        existingPeer <- gets (fun st => JsMap.get existingPeerId (peers st)) ;;
        match existingPeer with
        | Some existingPeer =>
            rs <- gets (fun st => sockets st (p_socket existingPeer)) ;;
            if is_open rs
            then sendMessage (p_socket existingPeer) (newPeer (p_id peer))
            else ret tt
        | None => ret tt
        end) existingPeers
  end.

Definition createTransportAndSendParameters (peer : Peer) (payload : Payload)
  : M unit :=
  let direction_ := q_direction payload in
  t <- createWebRtcTransport_ (p_id peer) direction_ ;;
  mutate_peer peer (fun p =>
    set_transports
      (JsMap.set (t_id t) {| transport := t; direction := direction_ |}
         (transports p)) p) ;;;
  sendMessage (p_socket peer)
    (transportCreated (t_id t) (t_iceParameters t) (t_iceCandidates t)
       (t_dtlsParameters t) direction_).

Definition finalizeTransportConnection (peer : Peer) (payload : Payload)
  : M unit :=
  let transportId := q_transportId payload in
  match JsMap.get transportId (transports peer) with
  | None => throw "Transport not found"
  | Some transportData =>
      await (connect eng (transport transportData)
               (q_dtlsParameters payload)) ;;;
      sendMessage (p_socket peer) (transportConnected transportId)
  end.

Definition createProducerAndBroadcastToPeers (peer : Peer) (payload : Payload)
  : M unit :=
  let transportId := q_transportId payload in
  let kind_ := q_kind payload in
  match JsMap.get transportId (transports peer) with
  | None => throw "Transport not found"
  | Some transportData =>
      pr <- await (produce eng (transport transportData) kind_
                     (q_rtpParameters payload)) ;;
      mutate_peer peer (fun p =>
        set_producers
          (JsMap.set (pr_id pr) {| producer := pr; kind := kind_ |}
             (producers p)) p) ;;;
      sendMessage (p_socket peer) (produced (pr_id pr) kind_) ;;;
      match truthy (roomId peer) with
      | Some rid =>
        room <- gets (fun st => JsMap.get rid (rooms st)) ;;
        match room with
        | Some room =>
            forEach (fun otherPeerId =>
              if negb (otherPeerId =? p_id peer) then
                otherPeer <-
                  gets (fun st => JsMap.get otherPeerId (peers st)) ;;
                match otherPeer with
                | Some otherPeer =>
                    rs <- gets (fun st => sockets st (p_socket otherPeer)) ;;
                    if is_open rs
                    then sendMessage (p_socket otherPeer)
                           (newProducer (p_id peer) (pr_id pr) kind_)
                    else ret tt
                | None => ret tt
                end
              else ret tt) (r_peers room)
        | None => ret tt
        end
      | None => ret tt
      end
  end.

(** The [for (const [peerId, p] of peers.entries())] loop of
    [createConsumerForRemoteProducer]: the first peer, in registry order,
    whose [producers] map has the key. *)
Fixpoint find_producer (producerId_ : string) (ps : JsMap.t Peer)
  : option (Peer * ProducerHandle) :=
  match ps with
  | [] => None
  | (_, p) :: ps' =>
      match JsMap.get producerId_ (producers p) with
      | Some d => Some (p, producer d)
      | None => find_producer producerId_ ps'
      end
  end.

Definition createConsumerForRemoteProducer (peer : Peer) (payload : Payload)
  : M unit :=
  let producerId_ := q_producerId payload in
  let rtpCapabilities_ := q_rtpCapabilities payload in
  found <- gets (fun st => find_producer producerId_ (peers st)) ;;
  match found with
  | None => throw "Producer not found"
  | Some (producerPeer, _) =>
      can <- gets (fun st => canConsume eng producerId_ rtpCapabilities_
                               (engine st)) ;;
      if negb can then throw "Cannot consume"
      else
        match array_find (fun t => direction t =? "recv")
                (JsMap.values (transports peer)) with
        | None => throw "Recv transport not found"
        | Some recvTransport =>
            c <- await (consume eng (transport recvTransport) producerId_
                          rtpCapabilities_) ;;
            mutate_peer peer (fun p =>
              set_consumers
                (JsMap.set (co_id c)
                   {| consumer := c; producerId := producerId_;
                      producerPeerId := p_id producerPeer |}
                   (consumers p)) p) ;;;
            sendMessage (p_socket peer)
              (consumed (co_id c) producerId_ (p_id producerPeer) (co_kind c)
                 (co_rtpParameters c))
        end
  end.

Definition resumePausedConsumer (peer : Peer) (payload : Payload) : M unit :=
  let consumerId := q_consumerId payload in
  match JsMap.get consumerId (consumers peer) with
  | None => throw "Consumer not found"
  | Some consumerData =>
      await (resume eng (consumer consumerData)) ;;;
      sendMessage (p_socket peer) (consumerResumed consumerId)
  end.

(** The three blocks of [handlePeerDisconnection], in source order:
    "Close all transports", "Remove from room", "Remove peer". *)
Definition close_all_transports (peer : Peer) : M unit :=
  forEach (fun td =>
    modify (fun st => with_engine (close eng (transport td) (engine st)) st))
    (JsMap.values (transports peer)).

Definition notify_peer_left (peerId otherPeerId : string) : M unit :=
  otherPeer <- gets (fun st => JsMap.get otherPeerId (peers st)) ;;
  match otherPeer with
  | Some otherPeer =>
      rs <- gets (fun st => sockets st (p_socket otherPeer)) ;;
      if is_open rs
      then sendMessage (p_socket otherPeer) (peerLeft peerId)
      else ret tt
  | None => ret tt
  end.

Definition remove_from_room (peerId : string) (peer : Peer) : M unit :=
  match truthy (roomId peer) with
  | Some rid =>
      room <- gets (fun st => JsMap.get rid (rooms st)) ;;
      match room with
      | Some room =>
          let remaining := JsSet.delete peerId (r_peers room) in
          modify (with_rooms (JsMap.update rid (set_r_peers remaining))) ;;;
          forEach (notify_peer_left peerId) remaining ;;;
          if Nat.eqb (JsSet.size remaining) 0
          then modify (with_rooms (JsMap.delete rid))
          else ret tt
      | None => ret tt
      end
  | None => ret tt
  end.

Definition remove_peer (peerId : string) : M unit :=
  modify (with_peers (JsMap.delete peerId)).

Definition handlePeerDisconnection (peerId : string) : M unit :=
  peer <- gets (fun st => JsMap.get peerId (peers st)) ;;
  match peer with
  | None => ret tt
  | Some peer =>
      close_all_transports peer ;;;
      remove_from_room peerId peer ;;;
      remove_peer peerId
  end.

(** The types of the dispatch table of [routeIncomingMessage]. *)
Definition known_types : list string :=
  ["getRouterRtpCapabilities"; "joinRoom"; "createTransport";
   "connectTransport"; "produce"; "consume"; "resumeConsumer"].

Definition routeIncomingMessage (peerId : string) (data : Message) : M unit :=
  let type_ := type data in
  let payload_ := payload data in
  peer <- gets (fun st => JsMap.get peerId (peers st)) ;;
  match peer with
  | None => console_error "[Message] Peer not found:" peerId
  | Some peer =>
      if type_ =? "getRouterRtpCapabilities" then
        sendRouterCapabilitiesToPeer peer
      else if type_ =? "joinRoom" then
        addPeerToRoomAndNotifyOthers peer payload_
      else if type_ =? "createTransport" then
        createTransportAndSendParameters peer payload_
      else if type_ =? "connectTransport" then
        finalizeTransportConnection peer payload_
      else if type_ =? "produce" then
        createProducerAndBroadcastToPeers peer payload_
      else if type_ =? "consume" then
        createConsumerForRemoteProducer peer payload_
      else if type_ =? "resumeConsumer" then
        resumePausedConsumer peer payload_
      else
        console_warn "[Message] Unknown message type:" type_
  end.

(** *** The listeners installed by [createWebSocketServer] *)

(** [wss.on('connection')]; [peerId] is the value of [generatePeerId()]. *)
Definition onConnection (socket peerId : string) : M unit :=
  modify (with_peers (JsMap.set peerId
    {| p_id := peerId; p_socket := socket; transports := JsMap.empty;
       producers := JsMap.empty; consumers := JsMap.empty;
       roomId := None |})) ;;;
  sendMessage socket (connected peerId).

(** [socket.on('message')]: [inl msg] is a text on which [JSON.parse]
    throws with message [msg].  The [try]/[catch] turns every thrown error
    into an [error] frame for the requester. *)
Definition onMessage (socket peerId : string) (message : string + Message)
  : M unit :=
  fun st =>
    let attempt :=
      match message with
      | inl msg => (inl msg, st)
      | inr data => routeIncomingMessage peerId data st
      end in
    match attempt with
    | (inr tt, st') => (inr tt, st')
    | (inl msg, st') =>
        (console_error "[WebSocket] Error handling message:" msg ;;;
         sendMessage socket (error msg)) st'
    end.

(** [socket.on('close')] *)
Definition onClose (peerId : string) : M unit :=
  handlePeerDisconnection peerId.

(** What can happen to the server: the three listeners, and a socket
    changing its ready state. *)
Inductive Event : Type :=
| EvConnection (socket peerId : string)
| EvMessage (socket peerId : string) (message : string + Message)
| EvClose (peerId : string)
| EvReadyState (socket : string) (r : ReadyState).

Definition step (ev : Event) (st : State) : State :=
  match ev with
  | EvConnection socket peerId => snd (onConnection socket peerId st)
  | EvMessage socket peerId message => snd (onMessage socket peerId message st)
  | EvClose peerId => snd (onClose peerId st)
  | EvReadyState socket r =>
      with_sockets (fun s => if s =? socket then r else sockets st s) st
  end.

Definition run (evs : list Event) (st : State) : State :=
  fold_left (fun s ev => step ev s) evs st.

(** The state after [main()]: empty registries over a started engine. *)
Definition initial (e : E eng) (socks : string -> ReadyState) : State :=
  {| peers := JsMap.empty; rooms := JsMap.empty; sockets := socks;
     engine := e; outbox := []; console := [] |}.

End Server.

(** ** The browser client: the pending-consumer queue

    The part of the client ([state], [sendMessage],
    [setupLocalMediaAndTransports], [configureTransportAndProduce],
    [requestToConsumeNewProducer]) that decides when [consume] requests
    leave the peer.  The mediasoup-client [Device] and the capture of local
    media are parameters; DOM updates are dropped. *)

Module Client.

(** Requests the client writes to its socket. *)
Inductive Request : Type :=
| createTransport (direction : string)
| consume (producerId : string) (rtpCapabilities : Blob).

Record Lib : Type := {
  Device : Type;
  rtpCapabilities : Device -> Blob;
  (* [device.createSendTransport] and [device.createRecvTransport] get the
     id and the ICE and DTLS parameters and may throw *)
  createSendTransport : Device -> string -> Blob -> Blob -> Blob ->
                        string + string;
  createRecvTransport : Device -> string -> Blob -> Blob -> Blob ->
                        string + string
}.

Section WithLib.

Variable lib : Lib.

Record State : Type := {
  socket : option ReadyState;            (* [state.socket], [null] at first *)
  device : option (Device lib);
  sendTransport : option string;
  recvTransport : option string;
  pendingConsumers : list PeerInfo;
  sent : list Request;                   (* frames given to [socket.send] *)
  errors : list string                   (* [console.error] lines *)
}.

Definition with_sent (l : list Request) (st : State) : State :=
  {| socket := socket st; device := device st;
     sendTransport := sendTransport st; recvTransport := recvTransport st;
     pendingConsumers := pendingConsumers st; sent := l;
     errors := errors st |}.

Definition with_errors (l : list string) (st : State) : State :=
  {| socket := socket st; device := device st;
     sendTransport := sendTransport st; recvTransport := recvTransport st;
     pendingConsumers := pendingConsumers st; sent := sent st;
     errors := l |}.

Definition with_pendingConsumers (q : list PeerInfo) (st : State) : State :=
  {| socket := socket st; device := device st;
     sendTransport := sendTransport st; recvTransport := recvTransport st;
     pendingConsumers := q; sent := sent st; errors := errors st |}.

Definition with_sendTransport (t : option string) (st : State) : State :=
  {| socket := socket st; device := device st;
     sendTransport := t; recvTransport := recvTransport st;
     pendingConsumers := pendingConsumers st; sent := sent st;
     errors := errors st |}.

Definition with_recvTransport (t : option string) (st : State) : State :=
  {| socket := socket st; device := device st;
     sendTransport := sendTransport st; recvTransport := t;
     pendingConsumers := pendingConsumers st; sent := sent st;
     errors := errors st |}.

(** The client's [sendMessage(type, payload)]. *)
Definition sendMessage (r : Request) (st : State) : State :=
  match socket st with
  | Some OPEN => with_sent (sent st ++ [r]) st
  | _ => with_errors (errors st ++ ["WebSocket not connected"]) st
  end.

(** Handler of [roomJoined]; [None] is a missing [existingProducers]. *)
Definition setupLocalMediaAndTransports (existingProducers
  : option (list PeerInfo)) (st : State) : State :=
  let st1 :=
    with_pendingConsumers
      (match existingProducers with Some l => l | None => [] end) st in
  sendMessage (createTransport "send") st1.

(** [state.pendingConsumers.forEach(peerInfo =>
      peerInfo.producers.forEach(producer => sendMessage('consume', ...)))] *)
Definition consume_all (caps : Blob) (q : list PeerInfo) (st : State)
  : State :=
  fold_left (fun s peerInfo =>
    fold_left (fun s' producer =>
      sendMessage (consume (ref_producerId producer) caps) s')
      (pi_producers peerInfo) s) q st.

(** Handler of [transportCreated].  [produceMedia] stands for the awaited
    [produceMedia()] of the send branch, which runs the capture and the
    [produce] round trips with the server.  The ['connect'] and ['produce']
    listeners put on the new transport run later, on events of the
    library, and are not part of this transition.  [inl msg] is an error
    thrown to the [catch] of [routeServerMessage]. *)
Definition configureTransportAndProduce
  (produceMedia : State -> (string + unit) * State)
  (transportId : string) (iceParameters iceCandidates dtlsParameters : Blob)
  (direction : string) (st : State) : (string + unit) * State :=
  if direction =? "send" then
    match device st with
    | None => (inl "TypeError", st)
    | Some d =>
        match createSendTransport lib d transportId iceParameters
                iceCandidates dtlsParameters with
        | inl msg => (inl msg, st)
        | inr t =>
            match produceMedia (with_sendTransport (Some t) st) with
            | (inl msg, st') => (inl msg, st')
            | (inr _, st') =>
                (inr tt, sendMessage (createTransport "recv") st')
            end
        end
    end
  else if direction =? "recv" then
    match device st with
    | None => (inl "TypeError", st)
    | Some d =>
        match createRecvTransport lib d transportId iceParameters
                iceCandidates dtlsParameters with
        | inl msg => (inl msg, st)
        | inr t =>
            let st1 := with_recvTransport (Some t) st in
            if Nat.ltb 0 (List.length (pendingConsumers st1)) then
              let st2 :=
                consume_all (rtpCapabilities lib d) (pendingConsumers st1)
                  st1 in
              (inr tt, with_pendingConsumers [] st2)
            else (inr tt, st1)
        end
    end
  else (inr tt, st).

(** Handler of [newProducer]: the request leaves at once. *)
Definition requestToConsumeNewProducer (producerId : string) (st : State)
  : (string + unit) * State :=
  match device st with
  | None => (inl "TypeError", st)
  | Some d =>
      (inr tt, sendMessage (consume producerId (rtpCapabilities lib d)) st)
  end.

(** The producer references of a queue, in queue order. *)
Definition refs_of (q : list PeerInfo) : list ProducerRef :=
  flat_map pi_producers q.

End WithLib.

End Client.

(** ** A small engine, used to run the model on concrete inputs

    Identifiers are numbered from a counter; [canConsume] refuses exactly
    the capabilities ["none"]; nothing ever rejects. *)

Definition num (n : nat) : string :=
  DecimalString.NilEmpty.string_of_uint (Nat.to_uint n).

Definition counter_engine : Engine :=
  {| E := nat;
     rtpCapabilities := fun _ => "router-caps";
     createWebRtcTransport := fun n =>
       (inr {| t_id := String.append "T" (num n); t_iceParameters := "ice";
               t_iceCandidates := "cand"; t_dtlsParameters := "dtls" |}, S n);
     connect := fun _ _ n => (inr tt, n);
     produce := fun _ _ _ n =>
       (inr {| pr_id := String.append "P" (num n) |}, S n);
     canConsume := fun _ caps _ => negb (caps =? "none");
     consume := fun _ _ _ n =>
       (inr {| co_id := String.append "C" (num n); co_kind := "video";
               co_rtpParameters := "rtp" |}, S n);
     resume := fun _ n => (inr tt, n);
     close := fun _ n => n |}.

Definition all_open : string -> ReadyState := fun _ => OPEN.

Definition request (ty : string) : Message :=
  {| type := ty;
     payload := {| q_roomId := ""; q_direction := ""; q_transportId := "";
                   q_dtlsParameters := ""; q_kind := ""; q_rtpParameters := "";
                   q_producerId := ""; q_rtpCapabilities := "";
                   q_consumerId := "" |} |}.

Definition joinRoom_ (room : string) : Message :=
  {| type := "joinRoom";
     payload := {| q_roomId := room; q_direction := ""; q_transportId := "";
                   q_dtlsParameters := ""; q_kind := ""; q_rtpParameters := "";
                   q_producerId := ""; q_rtpCapabilities := "";
                   q_consumerId := "" |} |}.

Definition createTransport_ (dir : string) : Message :=
  {| type := "createTransport";
     payload := {| q_roomId := ""; q_direction := dir; q_transportId := "";
                   q_dtlsParameters := ""; q_kind := ""; q_rtpParameters := "";
                   q_producerId := ""; q_rtpCapabilities := "";
                   q_consumerId := "" |} |}.

Definition produce_ (tid knd : string) : Message :=
  {| type := "produce";
     payload := {| q_roomId := ""; q_direction := ""; q_transportId := tid;
                   q_dtlsParameters := ""; q_kind := knd;
                   q_rtpParameters := "rtp";
                   q_producerId := ""; q_rtpCapabilities := "";
                   q_consumerId := "" |} |}.

Definition consume_ (pid caps : string) : Message :=
  {| type := "consume";
     payload := {| q_roomId := ""; q_direction := ""; q_transportId := "";
                   q_dtlsParameters := ""; q_kind := ""; q_rtpParameters := "";
                   q_producerId := pid; q_rtpCapabilities := caps;
                   q_consumerId := "" |} |}.

Definition resumeConsumer_ (cid : string) : Message :=
  {| type := "resumeConsumer";
     payload := {| q_roomId := ""; q_direction := ""; q_transportId := "";
                   q_dtlsParameters := ""; q_kind := ""; q_rtpParameters := "";
                   q_producerId := ""; q_rtpCapabilities := "";
                   q_consumerId := cid |} |}.

(** Two peers connect; [p1] joins ["r1"], creates a send transport and
    produces video; [p2] creates a receive transport without joining any
    room. *)
Definition scenario : list (Event) :=
  [ EvConnection "s1" "p1";
    EvConnection "s2" "p2";
    EvMessage "s1" "p1" (inr (joinRoom_ "r1"));
    EvMessage "s1" "p1" (inr (createTransport_ "send"));
    EvMessage "s1" "p1" (inr (produce_ "T0" "video"));
    EvMessage "s2" "p2" (inr (createTransport_ "recv")) ].

Definition st_scenario : State counter_engine :=
  run scenario (initial counter_engine 0 all_open).

(** ** Vocabulary of the statements *)

(** The record stored in [peer.consumers] by a successful request. *)
Definition consumer_entry (c : ConsumerHandle) (pid : string) (owner : Peer)
  : ConsumerData :=
  {| consumer := c; producerId := pid; producerPeerId := p_id owner |}.

(** The requester after a successful request. *)
Definition with_consumer (c : ConsumerHandle) (pid : string) (owner : Peer)
  (p : Peer) : Peer :=
  set_consumers
    (JsMap.set (co_id c) (consumer_entry c pid owner) (consumers p)) p.

(** The peer registered under an id (a blank peer when there is none). *)
Definition peer_of {eng : Engine} (st : State eng) (peerId : string) : Peer :=
  match JsMap.get peerId (peers st) with
  | Some p => p
  | None =>
      {| p_id := peerId; p_socket := ""; transports := JsMap.empty;
         producers := JsMap.empty; consumers := JsMap.empty; roomId := None |}
  end.

(** [scenario], then [p2] asks once for the video of [p1]. *)
Definition st_consumed : State counter_engine :=
  step (EvMessage "s2" "p2" (inr (consume_ "P1" "caps"))) st_scenario.

(** How many transports of a direction a peer holds. *)
Definition count_direction (d : string) (p : Peer) : nat :=
  List.length
    (filter (fun td => direction td =? d) (JsMap.values (transports p))).

(** Two states with the same registries and the same engine; sockets,
    outbox and console may differ. *)
Definition core_eq {eng : Engine} (a b : State eng) : Prop :=
  peers a = peers b /\ rooms a = rooms b /\ engine a = engine b.

(** A computation whose outcome and whose effect on registries and engine
    do not depend on the sockets, the outbox or the console. *)
Definition stable {eng : Engine} {A : Type} (c : M eng A) : Prop :=
  forall a b : State eng,
    core_eq a b ->
    fst (c a) = fst (c b) /\ core_eq (snd (c a)) (snd (c b)).

(** A computation that leaves the sockets alone and only appends to the
    outbox frames addressed to sockets that are open. *)
Definition sends_to_open {eng : Engine} {A : Type} (c : M eng A) : Prop :=
  forall st : State eng,
    sockets (snd (c st)) = sockets st /\
    exists new,
      outbox (snd (c st)) = outbox st ++ new /\
      Forall (fun sf => sockets st (fst sf) = OPEN) new.

(** The members of a room, none when the room is not in the registry. *)
Definition members {eng : Engine} (st : State eng) (rid : string) : JsSet.t :=
  match JsMap.get rid (rooms st) with
  | Some r => r_peers r
  | None => []
  end.

(** The [peerLeft] frames that announce the departure of [leaver] to the
    peers of a list: one for each peer that is registered and whose socket
    is open. *)
Definition left_frames {eng : Engine} (st : State eng) (leaver : string)
  (l : list string) : list (string * Frame) :=
  flat_map (fun m =>
    match JsMap.get m (peers st) with
    | Some q =>
        if is_open (sockets st (p_socket q))
        then [(p_socket q, peerLeft leaver)] else []
    | None => []
    end) l.

(** The sockets of the registered peers of a list. *)
Definition member_sockets {eng : Engine} (st : State eng) (l : list string)
  : list string :=
  flat_map (fun m =>
    match JsMap.get m (peers st) with
    | Some q => [p_socket q]
    | None => []
    end) l.


(** Three peers join ["r1"]; then the socket of [p3] starts closing. *)
Definition scenario_room : list Event :=
  [ EvConnection "s1" "p1";
    EvConnection "s2" "p2";
    EvConnection "s3" "p3";
    EvMessage "s1" "p1" (inr (joinRoom_ "r1"));
    EvMessage "s2" "p2" (inr (joinRoom_ "r1"));
    EvMessage "s3" "p3" (inr (joinRoom_ "r1"));
    EvReadyState "s3" CLOSING ].

Definition st_room : State counter_engine :=
  run scenario_room (initial counter_engine 0 all_open).

(** A client library that never throws, and a client that has joined a
    room where [p1] produces video and audio and [p3] produces video. *)
Definition simple_lib : Client.Lib :=
  {| Client.Device := unit;
     Client.rtpCapabilities := fun _ => "device-caps";
     Client.createSendTransport := fun _ tid _ _ _ => inr tid;
     Client.createRecvTransport := fun _ tid _ _ _ => inr tid |}.

Definition client_joined : Client.State simple_lib :=
  @Client.Build_State simple_lib
    (Some OPEN)                       (* socket *)
    (Some tt)                         (* device *)
    (Some "T1")                       (* sendTransport *)
    None                              (* recvTransport *)
    [ {| pi_peerId := "p1";
         pi_producers :=
           [ {| ref_producerId := "v1"; ref_kind := "video" |};
             {| ref_producerId := "a1"; ref_kind := "audio" |} ] |};
      {| pi_peerId := "p3";
         pi_producers :=
           [ {| ref_producerId := "v3"; ref_kind := "video" |} ] |} ]
    [Client.createTransport "send"; Client.createTransport "recv"]
    [].

(** Well-formed registries: peer ids and sockets identify the registered
    peers, every peer is stored under its own id, and a member set lists no
    id twice. *)
Definition wf_peers (ps : JsMap.t Peer) : Prop :=
  NoDup (JsMap.keys ps)
  /\ NoDup (map p_socket (JsMap.values ps))
  /\ Forall (fun kv => p_id (snd kv) = fst kv) ps.

Definition wf_rooms (rs : JsMap.t Room) : Prop :=
  Forall (fun kv => NoDup (r_peers (snd kv))) rs.

Definition wf {eng : Engine} (st : State eng) : Prop :=
  wf_peers (peers st) /\ wf_rooms (rooms st).

(** A connection brings a socket and a peer id that are not in use. *)
Definition fresh {eng : Engine} (ev : Event) (st : State eng) : Prop :=
  match ev with
  | EvConnection socket peerId =>
      ~ In peerId (JsMap.keys (peers st))
      /\ ~ In socket (map p_socket (JsMap.values (peers st)))
  | _ => True
  end.

Fixpoint all_fresh {eng : Engine} (evs : list Event) (st : State eng)
  : Prop :=
  match evs with
  | [] => True
  | ev :: evs' => fresh ev st /\ all_fresh evs' (step ev st)
  end.

(** A computation that keeps the registries well formed. *)
Definition keeps_wf {eng : Engine} {A : Type} (c : M eng A) : Prop :=
  forall st : State eng, wf st -> wf (snd (c st)).

(** Two states that differ at most in what has been written so far to the
    outbox and the console. *)
Definition same_view {eng : Engine} (a b : State eng) : Prop :=
  core_eq a b /\ sockets a = sockets b.

(** A computation that, from two such states, has the same outcome, ends
    in two such states and writes the same frames. *)
Definition coherent {eng : Engine} {A : Type} (c : M eng A) : Prop :=
  forall a b : State eng,
    same_view a b ->
    fst (c a) = fst (c b)
    /\ same_view (snd (c a)) (snd (c b))
    /\ exists new,
         outbox (snd (c a)) = outbox a ++ new /\
         outbox (snd (c b)) = outbox b ++ new.

(** ** Vocabulary of the further properties *)

(** What the [catch] of the message listener does with a thrown error:
    one [console.error] line, and an [error] frame on the socket of the
    connection when that socket is open. *)
Definition error_reply {eng : Engine} (socket msg : string) (st : State eng)
  : State eng :=
  snd (sendMessage socket (error msg)
         (with_console
            (console st ++ [(Err, "[WebSocket] Error handling message:", msg)])
            st)).

(** A computation that always returns normally. *)
Definition returns {eng : Engine} (c : M eng unit) : Prop :=
  forall st : State eng, fst (c st) = inr tt.

(** The [newProducer] frames that announce a producer of [owner] to the
    peers of a list: one for each peer other than the owner that is
    registered and whose socket is open. *)
Definition newProducer_frames {eng : Engine} (st : State eng)
  (owner producerId_ kind_ : string) (l : list string)
  : list (string * Frame) :=
  flat_map (fun m =>
    if negb (m =? owner) then
      match JsMap.get m (peers st) with
      | Some q =>
          if is_open (sockets st (p_socket q))
          then [(p_socket q, newProducer owner producerId_ kind_)] else []
      | None => []
      end
    else []) l.

(** The engine after [transport.close()] on each transport of a list. *)
Definition close_each {eng : Engine} (l : list TransportData) (e : E eng)
  : E eng :=
  fold_left (fun e' td => close eng (transport td) e') l e.

(** [scenario], then [p2] joins ["r1"] as well. *)
Definition st_both : State counter_engine :=
  step (EvMessage "s2" "p2" (inr (joinRoom_ "r1"))) st_scenario.

(** An engine whose every call rejects. *)
Definition failing_engine : Engine :=
  {| E := unit;
     rtpCapabilities := fun _ => "router-caps";
     createWebRtcTransport := fun e => (inl "worker closed", e);
     connect := fun _ _ e => (inl "worker closed", e);
     produce := fun _ _ _ e => (inl "worker closed", e);
     canConsume := fun _ _ _ => true;
     consume := fun _ _ _ e => (inl "worker closed", e);
     resume := fun _ e => (inl "worker closed", e);
     close := fun _ e => e |}.

(** One peer connected to the failing engine. *)
Definition st_failing : State failing_engine :=
  run [EvConnection "s1" "p1"] (initial failing_engine tt all_open).

(** A computation that takes every state to a state related to it. *)
Definition preserves {eng : Engine} {A : Type}
  (R : State eng -> State eng -> Prop) (c : M eng A) : Prop :=
  forall st : State eng, R st (snd (c st)).

(** The outbox has grown by frames none of which is an [error] frame. *)
Definition no_error_added {eng : Engine} (st st' : State eng) : Prop :=
  exists new,
    outbox st' = outbox st ++ new /\
    Forall (fun sf => forall m, snd sf <> error m) new.

(** The room registry is the same. *)
Definition same_rooms {eng : Engine} (st st' : State eng) : Prop :=
  rooms st' = rooms st.

(** The same peers are registered, and all but the one under [k] are
    exactly as they were. *)
Definition only_peer_changed {eng : Engine} (k : string)
  (st st' : State eng) : Prop :=
  JsMap.keys (peers st') = JsMap.keys (peers st)
  /\ forall k', k' <> k ->
       JsMap.get k' (peers st') = JsMap.get k' (peers st).

(** The three maps of a peer are keyed by the ids of the engine handles
    they hold. *)
Definition keyed_peer (p : Peer) : Prop :=
  Forall (fun kv => t_id (transport (snd kv)) = fst kv) (transports p)
  /\ Forall (fun kv => pr_id (producer (snd kv)) = fst kv) (producers p)
  /\ Forall (fun kv => co_id (consumer (snd kv)) = fst kv) (consumers p).

Definition keyed {eng : Engine} (st : State eng) : Prop :=
  Forall (fun kv => keyed_peer (snd kv)) (peers st).

(** The primitive steps through which the handlers change the state, as
    conditions on a relation between states: the steps every handler may
    take, those that change the record of a peer, and those of [joinRoom]. *)
Record basic_steps {eng : Engine} (R : State eng -> State eng -> Prop)
  : Prop := {
  step_refl : forall st, R st st;
  step_trans : forall a b c, R a b -> R b c -> R a c;
  step_send :
    forall socket frame st,
      (forall m, frame <> error m) ->
      R st (snd (sendMessage socket frame st));
  step_console : forall c st, R st (with_console c st);
  step_engine : forall e st, R st (with_engine e st)
}.

Record peer_steps {eng : Engine} (R : State eng -> State eng -> Prop)
  (peer0 : Peer) : Prop := {
  step_transport :
    forall t d st,
      R st (with_peers
              (JsMap.update (p_id peer0) (fun p =>
                 set_transports
                   (JsMap.set (t_id t) {| transport := t; direction := d |}
                      (transports p)) p)) st);
  step_producer :
    forall pr k st,
      R st (with_peers
              (JsMap.update (p_id peer0) (fun p =>
                 set_producers
                   (JsMap.set (pr_id pr) {| producer := pr; kind := k |}
                      (producers p)) p)) st);
  step_consumer :
    forall c pid owner st,
      R st (with_peers
              (JsMap.update (p_id peer0) (with_consumer c pid owner)) st)
}.

Record join_steps {eng : Engine} (R : State eng -> State eng -> Prop)
  (peer0 : Peer) : Prop := {
  step_roomId :
    forall r st,
      R st (with_peers (JsMap.update (p_id peer0) (set_roomId r)) st);
  step_room_new :
    forall rid st,
      R st (with_rooms
              (JsMap.set rid {| r_id := rid; r_peers := JsSet.empty |}) st);
  step_room_add :
    forall rid st,
      R st (with_rooms
              (JsMap.update rid (fun r =>
                 set_r_peers (JsSet.add (p_id peer0) (r_peers r)) r)) st)
}.

(** The steps of the listeners around the handlers: the [error] frame of
    the [catch], the registration of a peer, and the steps of the
    disconnection. *)
Record listener_steps {eng : Engine} (R : State eng -> State eng -> Prop)
  : Prop := {
  step_error :
    forall socket m st, R st (snd (sendMessage socket (error m) st));
  step_peer_new :
    forall socket peerId st,
      R st (with_peers
              (JsMap.set peerId
                 {| p_id := peerId; p_socket := socket;
                    transports := JsMap.empty; producers := JsMap.empty;
                    consumers := JsMap.empty; roomId := None |}) st);
  step_peer_deleted :
    forall peerId st, R st (with_peers (JsMap.delete peerId) st);
  step_room_left :
    forall rid remaining st,
      R st (with_rooms (JsMap.update rid (set_r_peers remaining)) st);
  step_room_deleted :
    forall rid st, R st (with_rooms (JsMap.delete rid) st);
  step_sockets :
    forall f st, R st (with_sockets f st)
}.

(** The relation: if the maps were keyed, they still are. *)
Definition keeps_keyed {eng : Engine} (st st' : State eng) : Prop :=
  keyed st -> keyed st'.

(** Every room of the registry has a member, and every registered peer
    whose room id is set is a member of the room it names. *)
Definition rooms_inhabited {eng : Engine} (st : State eng) : Prop :=
  Forall (fun kv => r_peers (snd kv) <> []) (rooms st).

Definition roomId_is_member {eng : Engine} (st : State eng) : Prop :=
  Forall (fun kv =>
    forall r, roomId (snd kv) = Some r -> In (p_id (snd kv)) (members st r))
    (peers st).

Definition room_ok {eng : Engine} (st : State eng) : Prop :=
  rooms_inhabited st /\ roomId_is_member st.

(** The id and the room id of each registered peer. *)
Definition room_view (ps : JsMap.t Peer) : list (string * option string) :=
  map (fun kv => (p_id (snd kv), roomId (snd kv))) ps.

(** The rooms are the same and every peer has the room id it had. *)
Definition same_membership {eng : Engine} (st st' : State eng) : Prop :=
  rooms st' = rooms st /\ room_view (peers st') = room_view (peers st).

(** The room registry after the block "Remove from room". *)
Definition rooms_after_leave (peerId : string) (peer : Peer)
  (rs : JsMap.t Room) : JsMap.t Room :=
  match truthy (roomId peer) with
  | Some rid =>
      match JsMap.get rid rs with
      | Some room =>
          let remaining := JsSet.delete peerId (r_peers room) in
          if Nat.eqb (JsSet.size remaining) 0
          then JsMap.delete rid (JsMap.update rid (set_r_peers remaining) rs)
          else JsMap.update rid (set_r_peers remaining) rs
      | None => rs
      end
  | None => rs
  end.


(** The client handles a run of [newProducer] notifications. *)
Definition handle_newProducers {lib : Client.Lib} (pids : list string)
  (st : Client.State lib) : Client.State lib :=
  fold_left (fun s pid => snd (Client.requestToConsumeNewProducer pid s))
    pids st.

(** The [consume] requests among the frames a client wrote, in order. *)
Definition is_consume (r : Client.Request) : bool :=
  match r with
  | Client.consume _ _ => true
  | Client.createTransport _ => false
  end.

Definition consumes (l : list Client.Request) : list Client.Request :=
  filter is_consume l.

(** What the properties need of the awaited [produceMedia()], which takes
    the local tracks, calls [sendTransport.produce] and fills
    [state.producers]: it leaves the socket, the device, the receive
    transport and the pending queue as they are and writes no [consume]. *)
Definition quiet_produceMedia {lib : Client.Lib}
  (produceMedia : Client.State lib -> (string + unit) * Client.State lib)
  : Prop :=
  forall s,
    Client.socket (snd (produceMedia s)) = Client.socket s
    /\ Client.device (snd (produceMedia s)) = Client.device s
    /\ Client.recvTransport (snd (produceMedia s)) = Client.recvTransport s
    /\ Client.pendingConsumers (snd (produceMedia s)) =
       Client.pendingConsumers s
    /\ consumes (Client.sent (snd (produceMedia s))) =
       consumes (Client.sent s).

(** A client that has loaded its device and is about to join a room. *)
Definition client_fresh : Client.State simple_lib :=
  @Client.Build_State simple_lib (Some OPEN) (Some tt) None None [] [] [].

(** [client_joined] with a socket that is closing. *)
Definition client_closing : Client.State simple_lib :=
  @Client.Build_State simple_lib
    (Some CLOSING) (Some tt) (Some "T1") None
    (Client.pendingConsumers client_joined)
    (Client.sent client_joined) [].

(** A client library whose receive transport cannot be created. *)
Definition broken_lib : Client.Lib :=
  {| Client.Device := unit;
     Client.rtpCapabilities := fun _ => "device-caps";
     Client.createSendTransport := fun _ tid _ _ _ => inr tid;
     Client.createRecvTransport := fun _ _ _ _ _ => inl "not loaded" |}.

Definition client_broken : Client.State broken_lib :=
  @Client.Build_State broken_lib
    (Some OPEN) (Some tt) (Some "T1") None
    (Client.pendingConsumers client_joined)
    (Client.sent client_joined) [].

(** * Properties *)

Unset Implicit Arguments.

(** ** Containers *)

Module JsMapFacts.

Lemma get_set_same {V : Type} (k : string) (v : V) (m : JsMap.t V) :
  JsMap.get k (JsMap.set k v m) = Some v.
Proof.
  induction m as [|[k' v'] m IH]; simpl.
  - now rewrite String.eqb_refl.
  - destruct (k' =? k) eqn:Hk; simpl.
    + now rewrite String.eqb_refl.
    + now rewrite Hk.
Qed.

Lemma get_set_other {V : Type} (k k0 : string) (v : V) (m : JsMap.t V) :
  k <> k0 -> JsMap.get k0 (JsMap.set k v m) = JsMap.get k0 m.
Proof.
  intros Hne. induction m as [|[k' v'] m IH]; simpl.
  - apply String.eqb_neq in Hne. now rewrite Hne.
  - destruct (k' =? k) eqn:Hk; simpl.
    + apply String.eqb_eq in Hk. subst k'.
      apply String.eqb_neq in Hne. now rewrite Hne.
    + destruct (k' =? k0); auto.
Qed.

Lemma set_absent {V : Type} (k : string) (v : V) (m : JsMap.t V) :
  JsMap.get k m = None -> JsMap.set k v m = m ++ [(k, v)].
Proof.
  induction m as [|[k' v'] m IH]; simpl; intros H; auto.
  destruct (k' =? k); [discriminate|]. now rewrite IH.
Qed.

Lemma get_update {V : Type} (k k0 : string) (f : V -> V) (m : JsMap.t V) :
  JsMap.get k0 (JsMap.update k f m) =
  if k0 =? k then option_map f (JsMap.get k0 m) else JsMap.get k0 m.
Proof.
  induction m as [|[k' v'] m IH]; simpl.
  - now destruct (k0 =? k).
  - destruct (k' =? k) eqn:Hk; simpl.
    + apply String.eqb_eq in Hk. subst k'.
      destruct (k =? k0) eqn:Hk0.
      * apply String.eqb_eq in Hk0. subst k0.
        now rewrite String.eqb_refl.
      * exact IH.
    + destruct (k' =? k0) eqn:Hk0.
      * apply String.eqb_eq in Hk0. subst k0. now rewrite Hk.
      * exact IH.
Qed.

Lemma get_delete_same {V : Type} (k : string) (m : JsMap.t V) :
  JsMap.get k (JsMap.delete k m) = None.
Proof.
  induction m as [|[k' v'] m IH]; simpl; auto.
  destruct (k' =? k) eqn:Hk; simpl; auto. now rewrite Hk.
Qed.

Lemma get_delete_other {V : Type} (k k0 : string) (m : JsMap.t V) :
  k <> k0 -> JsMap.get k0 (JsMap.delete k m) = JsMap.get k0 m.
Proof.
  intros Hne. induction m as [|[k' v'] m IH]; simpl; auto.
  destruct (k' =? k) eqn:Hk; simpl.
  - apply String.eqb_eq in Hk. subst k'.
    apply String.eqb_neq in Hne. now rewrite Hne.
  - now rewrite IH.
Qed.

Lemma has_get {V : Type} (k : string) (m : JsMap.t V) :
  JsMap.has k m = true <-> exists v, JsMap.get k m = Some v.
Proof.
  unfold JsMap.has. destruct (JsMap.get k m); split; intros H.
  - now exists v.
  - reflexivity.
  - discriminate.
  - destruct H. discriminate.
Qed.

Lemma update_length {V : Type} (k : string) (f : V -> V) (m : JsMap.t V) :
  List.length (JsMap.update k f m) = List.length m.
Proof. unfold JsMap.update. apply length_map. Qed.

End JsMapFacts.

Module JsSetFacts.

Lemma delete_not_in (x : string) (s : JsSet.t) :
  ~ In x (JsSet.delete x s).
Proof.
  unfold JsSet.delete. rewrite filter_In. intros [_ H].
  now rewrite String.eqb_refl in H.
Qed.

Lemma delete_in (x y : string) (s : JsSet.t) :
  In y (JsSet.delete x s) <-> In y s /\ y <> x.
Proof.
  unfold JsSet.delete. rewrite filter_In, negb_true_iff, String.eqb_neq.
  tauto.
Qed.

Lemma delete_NoDup (x : string) (s : JsSet.t) :
  NoDup s -> NoDup (JsSet.delete x s).
Proof. apply NoDup_filter. Qed.

Lemma has_In (x : string) (s : JsSet.t) :
  JsSet.has x s = true <-> In x s.
Proof.
  unfold JsSet.has. rewrite existsb_exists. split.
  - intros [y [Hy He]]. apply String.eqb_eq in He. now subst.
  - intros H. exists x. split; auto. apply String.eqb_refl.
Qed.

Lemma add_NoDup (x : string) (s : JsSet.t) :
  NoDup s -> NoDup (JsSet.add x s).
Proof.
  intros H. unfold JsSet.add. destruct (JsSet.has x s) eqn:Hh; auto.
  apply NoDup_app; auto.
  - repeat constructor. simpl. tauto.
  - intros a Ha [Hx|[]]. subst a. apply has_In in Ha. congruence.
Qed.

End JsSetFacts.

(** ** The server *)

Section ServerFacts.

Variable eng : Engine.

(** *** The router *)

Lemma route_unknown (st : State eng) (peerId : string) (peer : Peer)
  (data : Message) :
  JsMap.get peerId (peers st) = Some peer ->
  ~ In (type data) known_types ->
  routeIncomingMessage peerId data st =
  (inr tt,
   with_console
     (console st ++ [(Warn, "[Message] Unknown message type:", type data)])
     st).
Proof.
  intros Hp Hn. unfold routeIncomingMessage, bind, gets. rewrite Hp.
  unfold known_types in Hn. simpl in Hn.
  repeat match goal with
  | |- context [String.eqb (type data) ?s] =>
      destruct (String.eqb_spec (type data) s) as [Heq|_];
      [exfalso; apply Hn; rewrite Heq; tauto|]
  end.
  reflexivity.
Qed.

(** Dispatch of the known types to their handlers. *)
Lemma route_known (st : State eng) (peerId : string) (peer : Peer)
  (data : Message) :
  JsMap.get peerId (peers st) = Some peer ->
  (type data = "joinRoom" ->
   routeIncomingMessage peerId data st =
   addPeerToRoomAndNotifyOthers peer (payload data) st) /\
  (type data = "createTransport" ->
   routeIncomingMessage peerId data st =
   createTransportAndSendParameters peer (payload data) st) /\
  (type data = "connectTransport" ->
   routeIncomingMessage peerId data st =
   finalizeTransportConnection peer (payload data) st) /\
  (type data = "produce" ->
   routeIncomingMessage peerId data st =
   createProducerAndBroadcastToPeers peer (payload data) st) /\
  (type data = "consume" ->
   routeIncomingMessage peerId data st =
   createConsumerForRemoteProducer peer (payload data) st) /\
  (type data = "resumeConsumer" ->
   routeIncomingMessage peerId data st =
   resumePausedConsumer peer (payload data) st).
Proof.
  intros Hp. unfold routeIncomingMessage, bind, gets. rewrite Hp.
  repeat split; intros ->; reflexivity.
Qed.

(** C5 (amended).  A request whose type is not in the dispatch table is
    answered by nothing: the handler returns normally, the only effect is
    one [console.warn] line on the server, and no frame is written to any
    socket; registries and engine are untouched. *)
Theorem unknown_type_warns_on_console_only (st : State eng)
  (socket peerId : string) (peer : Peer) (data : Message) :
  JsMap.get peerId (peers st) = Some peer ->
  ~ In (type data) known_types ->
  onMessage socket peerId (inr data) st =
  (inr tt,
   with_console
     (console st ++ [(Warn, "[Message] Unknown message type:", type data)])
     st)
  /\ outbox (step (EvMessage socket peerId (inr data)) st) = outbox st
  /\ peers (step (EvMessage socket peerId (inr data)) st) = peers st
  /\ rooms (step (EvMessage socket peerId (inr data)) st) = rooms st
  /\ engine (step (EvMessage socket peerId (inr data)) st) = engine st.
Proof.
  intros Hp Hn.
  assert (Hm : onMessage socket peerId (inr data) st =
    (inr tt,
     with_console
       (console st ++ [(Warn, "[Message] Unknown message type:", type data)])
       st)).
  { unfold onMessage. now rewrite (route_unknown st peerId peer data Hp Hn). }
  split; [exact Hm|].
  unfold step. rewrite Hm. simpl. auto.
Qed.

End ServerFacts.

(** C5, as stated, fails: on the state reached by [scenario], whose
    sockets are all open, the request [{type: "ping"}] of the registered
    peer ["p1"] makes the server write no frame at all. *)
Lemma unknown_type_gets_no_reply :
  sockets st_scenario "s1" = OPEN /\
  JsMap.has "p1" (peers st_scenario) = true /\
  ~ In "ping" known_types /\
  outbox (step (EvMessage "s1" "p1" (inr (request "ping"))) st_scenario)
  = outbox st_scenario.
Proof.
  split; [reflexivity|]. split; [reflexivity|]. split.
  - unfold known_types. simpl. intuition discriminate.
  - vm_compute. reflexivity.
Qed.

Lemma unknown_type_warns_on_console_only_witness :
  let st' := step (EvMessage "s1" "p1" (inr (request "ping"))) st_scenario in
  onMessage "s1" "p1" (inr (request "ping")) st_scenario =
  (inr tt,
   with_console
     (console st_scenario ++
      [(Warn, "[Message] Unknown message type:", "ping")]) st_scenario)
  /\ outbox st' = outbox st_scenario
  /\ peers st' = peers st_scenario
  /\ rooms st' = rooms st_scenario
  /\ engine st' = engine st_scenario.
Proof.
  eapply (unknown_type_warns_on_console_only counter_engine st_scenario
            "s1" "p1" _ (request "ping")).
  - vm_compute. reflexivity.
  - unfold known_types. simpl. intuition discriminate.
Defined.

(** *** Consuming a remote producer *)

Section ConsumeFacts.

Variable eng : Engine.

(** The whole effect of a request that passes every check. *)
Lemma consume_success (st : State eng) (peer : Peer) (pl : Payload)
  (owner : Peer) (h : ProducerHandle) (rt : TransportData)
  (c : ConsumerHandle) (e' : E eng) :
  find_producer (q_producerId pl) (peers st) = Some (owner, h) ->
  canConsume eng (q_producerId pl) (q_rtpCapabilities pl) (engine st) = true ->
  array_find (fun t => direction t =? "recv")
    (JsMap.values (transports peer)) = Some rt ->
  consume eng (transport rt) (q_producerId pl) (q_rtpCapabilities pl)
    (engine st) = (inr c, e') ->
  createConsumerForRemoteProducer peer pl st =
  sendMessage (p_socket peer)
    (consumed (co_id c) (q_producerId pl) (p_id owner) (co_kind c)
       (co_rtpParameters c))
    (with_peers
       (JsMap.update (p_id peer) (with_consumer c (q_producerId pl) owner))
       (with_engine e' st)).
Proof.
  intros Hf Hc Ht He.
  unfold createConsumerForRemoteProducer, bind, gets, await, mutate_peer,
    modify.
  rewrite Hf, Hc. simpl. rewrite Ht, He. reflexivity.
Qed.

(** A request that fails a check throws and leaves the state as it was. *)
Lemma consume_refused (st : State eng) (peer : Peer) (pl : Payload) :
  canConsume eng (q_producerId pl) (q_rtpCapabilities pl) (engine st) = false ->
  createConsumerForRemoteProducer peer pl st =
  (inl (match find_producer (q_producerId pl) (peers st) with
        | Some _ => "Cannot consume"
        | None => "Producer not found"
        end), st).
Proof.
  intros Hc.
  unfold createConsumerForRemoteProducer, bind, gets, throw.
  destruct (find_producer (q_producerId pl) (peers st)) as [[owner h]|];
    [|reflexivity].
  rewrite Hc. reflexivity.
Qed.


(** C1 (amended).  No guard looks at the consumers a peer already holds: a
    request for a producer the peer already consumes goes through the same
    steps as the first one.  When it passes the checks, the engine creates
    another consumer; it is stored next to the old one (a new entry, as soon
    as the engine gives it a new id) and its parameters, not those of the
    old consumer, are what the reply carries. *)
Theorem repeated_consume_adds_consumer (st : State eng) (peer : Peer)
  (pl : Payload) (cid0 : string) (d0 : ConsumerData)
  (owner : Peer) (h : ProducerHandle) (rt : TransportData)
  (c : ConsumerHandle) (e' : E eng) :
  JsMap.get (p_id peer) (peers st) = Some peer ->
  JsMap.get cid0 (consumers peer) = Some d0 ->
  producerId d0 = q_producerId pl ->
  find_producer (q_producerId pl) (peers st) = Some (owner, h) ->
  canConsume eng (q_producerId pl) (q_rtpCapabilities pl) (engine st) = true ->
  array_find (fun t => direction t =? "recv")
    (JsMap.values (transports peer)) = Some rt ->
  consume eng (transport rt) (q_producerId pl) (q_rtpCapabilities pl)
    (engine st) = (inr c, e') ->
  JsMap.get (co_id c) (consumers peer) = None ->
  let res := createConsumerForRemoteProducer peer pl st in
  fst res = inr tt
  /\ engine (snd res) = e'
  /\ (exists peer',
        JsMap.get (p_id peer) (peers (snd res)) = Some peer' /\
        consumers peer' =
          consumers peer ++
          [(co_id c, consumer_entry c (q_producerId pl) owner)] /\
        JsMap.size (consumers peer') = S (JsMap.size (consumers peer)) /\
        JsMap.get cid0 (consumers peer') = Some d0)
  /\ (sockets st (p_socket peer) = OPEN ->
      outbox (snd res) =
      outbox st ++
      [(p_socket peer,
        consumed (co_id c) (q_producerId pl) (p_id owner) (co_kind c)
          (co_rtpParameters c))]).
Proof.
  intros Hp H0 Hpid Hf Hc Ht He Hfresh res.
  assert (Hres : res =
    sendMessage (p_socket peer)
      (consumed (co_id c) (q_producerId pl) (p_id owner) (co_kind c)
         (co_rtpParameters c))
      (with_peers
         (JsMap.update (p_id peer) (with_consumer c (q_producerId pl) owner))
         (with_engine e' st))).
  { apply consume_success with (h := h) (rt := rt); assumption. }
  assert (Hne : co_id c <> cid0).
  { intros Heq. rewrite Heq in Hfresh. congruence. }
  rewrite Hres. unfold sendMessage. simpl.
  destruct (is_open (sockets st (p_socket peer))) eqn:Ho; simpl;
    (split; [reflexivity|]; split; [reflexivity|]; split;
     [ exists (with_consumer c (q_producerId pl) owner peer);
       rewrite JsMapFacts.get_update, String.eqb_refl, Hp; simpl;
       rewrite (JsMapFacts.set_absent _ _ _ Hfresh);
       split; [reflexivity|]; split; [reflexivity|]; split;
       [ unfold JsMap.size; rewrite length_app; simpl; lia
       | rewrite <- (JsMapFacts.set_absent _ _ _ Hfresh);
         rewrite JsMapFacts.get_set_other by exact Hne; exact H0 ]
     | ]).
  - intros _. reflexivity.
  - intros Hopen. rewrite Hopen in Ho. discriminate.
Qed.

End ConsumeFacts.


(** C1, as stated, fails: on the engine with a counter, [p2] asks a second
    time for the producer ["P1"] it already consumes; its consumer map then
    holds two consumers of ["P1"], and the reply names the new one. *)
Lemma repeated_consume_creates_second_consumer :
  let st2 :=
    step (EvMessage "s2" "p2" (inr (consume_ "P1" "caps"))) st_consumed in
  map (fun kv => (fst kv, producerId (snd kv)))
      (consumers (peer_of st_consumed "p2")) = [("C3", "P1")]
  /\ map (fun kv => (fst kv, producerId (snd kv)))
         (consumers (peer_of st2 "p2")) = [("C3", "P1"); ("C4", "P1")]
  /\ outbox st2 =
     outbox st_consumed ++ [("s2", consumed "C4" "P1" "p1" "video" "rtp")].
Proof. vm_compute. repeat split. Qed.

Lemma repeated_consume_adds_consumer_witness :
  let peer := peer_of st_consumed "p2" in
  let owner := peer_of st_consumed "p1" in
  let pl := payload (consume_ "P1" "caps") in
  let c := {| co_id := "C4"; co_kind := "video"; co_rtpParameters := "rtp" |} in
  let d0 := consumer_entry
              {| co_id := "C3"; co_kind := "video"; co_rtpParameters := "rtp" |}
              "P1" owner in
  let res := createConsumerForRemoteProducer peer pl st_consumed in
  fst res = inr tt
  /\ engine (snd res) = 5
  /\ (exists peer',
        JsMap.get (p_id peer) (peers (snd res)) = Some peer' /\
        consumers peer' =
          consumers peer ++
          [(co_id c, consumer_entry c (q_producerId pl) owner)] /\
        JsMap.size (consumers peer') = S (JsMap.size (consumers peer)) /\
        JsMap.get "C3" (consumers peer') = Some d0)
  /\ (sockets st_consumed (p_socket peer) = OPEN ->
      outbox (snd res) =
      outbox st_consumed ++
      [(p_socket peer,
        consumed (co_id c) (q_producerId pl) (p_id owner) (co_kind c)
          (co_rtpParameters c))]).
Proof.
  intros peer owner pl c d0 res.
  eapply (repeated_consume_adds_consumer counter_engine st_consumed peer pl
            "C3" d0 owner _ _ c 5); vm_compute; reflexivity.
Defined.

(** *** Transports *)

Section TransportFacts.

Variable eng : Engine.

(** C3 (amended).  [createTransport] never looks at the transports the peer
    already holds: the transport the engine creates is stored under its id
    with the requested direction, so a peer that sends the request again
    holds one more transport of that direction than before. *)
Theorem createTransport_adds_transport (st : State eng) (peer : Peer)
  (pl : Payload) (t : TransportHandle) (e' : E eng) :
  JsMap.get (p_id peer) (peers st) = Some peer ->
  createWebRtcTransport eng (engine st) = (inr t, e') ->
  JsMap.get (t_id t) (transports peer) = None ->
  let res := createTransportAndSendParameters peer pl st in
  fst res = inr tt
  /\ exists peer',
       JsMap.get (p_id peer) (peers (snd res)) = Some peer' /\
       transports peer' =
         transports peer ++
         [(t_id t, {| transport := t; direction := q_direction pl |})] /\
       count_direction (q_direction pl) peer' =
         S (count_direction (q_direction pl) peer).
Proof.
  intros Hp He Hfresh res. subst res.
  unfold createTransportAndSendParameters, createWebRtcTransport_, bind,
    await, mutate_peer, modify, sendMessage.
  rewrite He. simpl.
  match goal with
  | |- context [is_open ?r] => destruct (is_open r)
  end; simpl;
    (split; [reflexivity|];
     eexists; rewrite JsMapFacts.get_update, String.eqb_refl, Hp; simpl;
     split; [reflexivity|];
     rewrite (JsMapFacts.set_absent _ _ _ Hfresh);
     split; [reflexivity|];
     unfold count_direction, JsMap.values; simpl;
     rewrite map_app, filter_app, length_app; simpl;
     rewrite String.eqb_refl; simpl; lia).
Qed.

End TransportFacts.

(** C3, as stated, fails: [p1] already holds the send transport ["T0"];
    after a second [createTransport] for the direction ["send"] it holds
    two send transports. *)
Lemma second_send_transport_is_kept :
  let st' :=
    step (EvMessage "s1" "p1" (inr (createTransport_ "send"))) st_scenario in
  count_direction "send" (peer_of st_scenario "p1") = 1
  /\ count_direction "send" (peer_of st' "p1") = 2
  /\ JsMap.keys (transports (peer_of st' "p1")) = ["T0"; "T3"].
Proof. vm_compute. repeat split. Qed.

Lemma createTransport_adds_transport_witness :
  let peer := peer_of st_scenario "p1" in
  let pl := payload (createTransport_ "send") in
  let t := {| t_id := "T3"; t_iceParameters := "ice";
              t_iceCandidates := "cand"; t_dtlsParameters := "dtls" |} in
  let res := createTransportAndSendParameters peer pl st_scenario in
  fst res = inr tt
  /\ exists peer',
       JsMap.get (p_id peer) (peers (snd res)) = Some peer' /\
       transports peer' =
         transports peer ++
         [(t_id t, {| transport := t; direction := q_direction pl |})] /\
       count_direction (q_direction pl) peer' =
         S (count_direction (q_direction pl) peer).
Proof.
  intros peer pl t res.
  apply (createTransport_adds_transport counter_engine st_scenario peer pl t 4);
    vm_compute; reflexivity.
Defined.

(** *** Resuming a consumer *)

Section ResumeFacts.

Variable eng : Engine.

(** The engine is called for every consumer the peer holds, whatever the
    state of that consumer. *)
Lemma resume_is_forwarded (st : State eng) (peer : Peer) (pl : Payload)
  (d : ConsumerData) :
  JsMap.get (q_consumerId pl) (consumers peer) = Some d ->
  engine (snd (resumePausedConsumer peer pl st)) =
  snd (resume eng (consumer d) (engine st)).
Proof.
  intros Hd. unfold resumePausedConsumer, bind, await, sendMessage.
  rewrite Hd.
  destruct (resume eng (consumer d) (engine st)) as [[msg|u] e1]; simpl;
    [reflexivity|].
  match goal with
  | |- context [is_open ?r] => destruct (is_open r)
  end; reflexivity.
Qed.

Lemma resume_accepted (st : State eng) (peer : Peer) (pl : Payload)
  (d : ConsumerData) (e1 : E eng) :
  JsMap.get (q_consumerId pl) (consumers peer) = Some d ->
  sockets st (p_socket peer) = OPEN ->
  resume eng (consumer d) (engine st) = (inr tt, e1) ->
  resumePausedConsumer peer pl st =
  (inr tt,
   with_outbox
     (outbox st ++ [(p_socket peer, consumerResumed (q_consumerId pl))])
     (with_engine e1 st)).
Proof.
  intros Hd Ho He. unfold resumePausedConsumer, bind, await, sendMessage.
  rewrite Hd, He. simpl. rewrite Ho. reflexivity.
Qed.

(** C8.  Two [resumeConsumer] requests in a row for a consumer the peer
    holds: each one is forwarded to the engine and answered with
    [consumerResumed]; when the engine treats the resume of a resumed
    consumer as a no-op, the second request changes nothing but the
    outbox, which gets the second reply. *)
Theorem resumeConsumer_twice (st : State eng) (socket : string) (peer : Peer)
  (data : Message) (d : ConsumerData) (e1 : E eng) :
  JsMap.get (p_id peer) (peers st) = Some peer ->
  type data = "resumeConsumer" ->
  JsMap.get (q_consumerId (payload data)) (consumers peer) = Some d ->
  sockets st (p_socket peer) = OPEN ->
  resume eng (consumer d) (engine st) = (inr tt, e1) ->
  resume eng (consumer d) e1 = (inr tt, e1) ->
  let ev := EvMessage socket (p_id peer) (inr data) in
  let reply := (p_socket peer, consumerResumed (q_consumerId (payload data))) in
  let st1 := step ev st in
  let st2 := step ev st1 in
  st1 = with_outbox (outbox st ++ [reply]) (with_engine e1 st)
  /\ st2 = with_outbox (outbox st1 ++ [reply]) st1
  /\ engine st1 = snd (resume eng (consumer d) (engine st))
  /\ engine st2 = snd (resume eng (consumer d) (engine st1)).
Proof.
  intros Hp Hty Hd Ho He1 He2 ev reply st1 st2.
  assert (H1 : st1 = with_outbox (outbox st ++ [reply]) (with_engine e1 st)).
  { subst st1 ev. unfold step, onMessage.
    destruct (route_known eng st (p_id peer) peer data Hp)
      as (_ & _ & _ & _ & _ & Hr).
    rewrite (Hr Hty).
    rewrite (resume_accepted st peer (payload data) d e1 Hd Ho He1).
    reflexivity. }
  assert (H2 : st2 = with_outbox (outbox st1 ++ [reply]) st1).
  { subst st2 ev. rewrite H1. unfold step, onMessage.
    match goal with
    | |- context [routeIncomingMessage _ _ ?s] => set (s1 := s)
    end.
    assert (Hp1 : JsMap.get (p_id peer) (peers s1) = Some peer) by exact Hp.
    destruct (route_known eng s1 (p_id peer) peer data Hp1)
      as (_ & _ & _ & _ & _ & Hr).
    rewrite (Hr Hty).
    rewrite (resume_accepted s1 peer (payload data) d e1 Hd Ho He2).
    reflexivity. }
  split; [exact H1|]. split; [exact H2|]. split.
  - rewrite H1, He1. reflexivity.
  - rewrite H2, H1. simpl. rewrite He2. reflexivity.
Qed.

End ResumeFacts.

Lemma resumeConsumer_twice_witness :
  let st := st_consumed in
  let peer := peer_of st "p2" in
  let data := resumeConsumer_ "C3" in
  let ev := EvMessage "s2" (p_id peer) (inr data) in
  let reply := (p_socket peer, consumerResumed (q_consumerId (payload data))) in
  let d := consumer_entry
             {| co_id := "C3"; co_kind := "video"; co_rtpParameters := "rtp" |}
             "P1" (peer_of st "p1") in
  let st1 := step ev st in
  let st2 := step ev st1 in
  st1 = with_outbox (outbox st ++ [reply])
          (with_engine (4 : E counter_engine) st)
  /\ st2 = with_outbox (outbox st1 ++ [reply]) st1
  /\ engine st1 = snd (resume counter_engine (consumer d) (engine st))
  /\ engine st2 = snd (resume counter_engine (consumer d) (engine st1)).
Proof.
  intros st peer data ev reply d st1 st2.
  apply (resumeConsumer_twice counter_engine st "s2" peer data d 4);
    vm_compute; reflexivity.
Defined.

(** *** Independence from delivery *)

Section Stability.

Variable eng : Engine.

Lemma core_eq_refl (a : State eng) : core_eq a a.
Proof. repeat split. Qed.

Lemma core_eq_trans (a b c : State eng) :
  core_eq a b -> core_eq b c -> core_eq a c.
Proof.
  intros (H1 & H2 & H3) (H4 & H5 & H6). repeat split; congruence.
Qed.

Lemma core_eq_sym (a b : State eng) : core_eq a b -> core_eq b a.
Proof. intros (H1 & H2 & H3). repeat split; congruence. Qed.

Lemma stable_ret {A : Type} (x : A) : stable (@ret eng A x).
Proof. intros a b H. split; [reflexivity|exact H]. Qed.

Lemma stable_throw {A : Type} (msg : string) : stable (@throw eng A msg).
Proof. intros a b H. split; [reflexivity|exact H]. Qed.

Lemma stable_bind {A B : Type} (c : M eng A) (k : A -> M eng B) :
  stable c -> (forall x, stable (k x)) -> stable (bind c k).
Proof.
  intros Hc Hk a b H. unfold bind.
  destruct (Hc a b H) as [Hf Hs].
  destruct (c a) as [[m|x] a'], (c b) as [[m'|x'] b']; simpl in *;
    try discriminate.
  - split; [congruence|exact Hs].
  - injection Hf as <-. apply Hk. exact Hs.
Qed.

Lemma stable_gets {A : Type} (f : State eng -> A) :
  (forall a b, core_eq a b -> f a = f b) -> stable (gets f).
Proof.
  intros Hf a b H. unfold gets. simpl. split; [|exact H].
  now rewrite (Hf a b H).
Qed.

Lemma stable_modify (f : State eng -> State eng) :
  (forall a b, core_eq a b -> core_eq (f a) (f b)) -> stable (modify f).
Proof. intros Hf a b H. unfold modify. simpl. split; auto. Qed.

Lemma stable_await {A : Type} (call : E eng -> (string + A) * E eng) :
  stable (await call).
Proof.
  intros a b (Hp & Hr & He). unfold await. rewrite He.
  destruct (call (engine b)) as [r e']. simpl. repeat split; assumption.
Qed.

Lemma stable_sendMessage (socket : string) (frame : Frame) :
  stable (@sendMessage eng socket frame).
Proof.
  intros a b H. unfold sendMessage. cbv beta.
  destruct (is_open (sockets a socket)), (is_open (sockets b socket));
    simpl; split; try reflexivity; exact H.
Qed.

Lemma stable_console_warn (l d : string) : stable (@console_warn eng l d).
Proof. apply stable_modify. intros a b H. exact H. Qed.

Lemma stable_console_error (l d : string) : stable (@console_error eng l d).
Proof. apply stable_modify. intros a b H. exact H. Qed.

(** The guard [socket.readyState === WebSocket.OPEN] around a send. *)
Lemma stable_guarded_send (socket : string) (frame : Frame) :
  stable (bind (gets (fun st : State eng => sockets st socket))
            (fun rs => if is_open rs then sendMessage socket frame
                       else ret tt)).
Proof.
  intros a b H. unfold bind, gets, sendMessage, ret. simpl.
  destruct (is_open (sockets a socket)) eqn:Ha,
           (is_open (sockets b socket)) eqn:Hb;
    simpl; rewrite ?Ha, ?Hb; simpl; split; try reflexivity; exact H.
Qed.

Lemma stable_forEach {A : Type} (f : A -> M eng unit) (l : list A) :
  (forall x, stable (f x)) -> stable (forEach f l).
Proof.
  intros Hf. induction l as [|x l IH]; simpl.
  - apply stable_ret.
  - apply stable_bind; [apply Hf|intros _; exact IH].
Qed.

Lemma stable_mutate_peer (peer : Peer) (f : Peer -> Peer) :
  stable (@mutate_peer eng peer f).
Proof.
  apply stable_modify. intros a b (Hp & Hr & He).
  repeat split; simpl; congruence.
Qed.

Lemma stable_with_rooms (f : JsMap.t Room -> JsMap.t Room) :
  stable (modify (@with_rooms eng f)).
Proof.
  apply stable_modify. intros a b (Hp & Hr & He).
  repeat split; simpl; congruence.
Qed.

Lemma stable_with_peers (f : JsMap.t Peer -> JsMap.t Peer) :
  stable (modify (@with_peers eng f)).
Proof.
  apply stable_modify. intros a b (Hp & Hr & He).
  repeat split; simpl; congruence.
Qed.

Ltac core_side :=
  let a := fresh "a" in let b := fresh "b" in
  let Hp := fresh "Hp" in let Hr := fresh "Hr" in let He := fresh "He" in
  intros a b (Hp & Hr & He); unfold core_eq; simpl;
  rewrite ?Hp, ?Hr, ?He; repeat split; congruence.

Ltac stable_step :=
  match goal with
  | |- stable (bind (gets (fun st => sockets st _)) _) =>
      apply stable_guarded_send
  | |- stable (bind _ _) => apply stable_bind; [|intros ?]
  | |- stable (ret _) => apply stable_ret
  | |- stable (throw _) => apply stable_throw
  | |- stable (await _) => apply stable_await
  | |- stable (sendMessage _ _) => apply stable_sendMessage
  | |- stable (mutate_peer _ _) => apply stable_mutate_peer
  | |- stable (modify (with_rooms _)) => apply stable_with_rooms
  | |- stable (modify (with_peers _)) => apply stable_with_peers
  | |- stable (console_warn _ _) => apply stable_console_warn
  | |- stable (console_error _ _) => apply stable_console_error
  | |- stable (forEach _ _) => apply stable_forEach; intros ?
  | |- stable (gets _) => apply stable_gets; core_side
  | |- stable (modify _) => apply stable_modify; core_side
  | |- stable (match ?x with _ => _ end) => destruct x
  | |- stable (if ?x then _ else _) => destruct x
  end.

Ltac stable_auto := repeat stable_step.

Lemma stable_sendRouterCapabilitiesToPeer (peer : Peer) :
  stable (@sendRouterCapabilitiesToPeer eng peer).
Proof.
  unfold sendRouterCapabilitiesToPeer, getRouterRtpCapabilities. stable_auto.
Qed.

Lemma stable_addPeerToRoomAndNotifyOthers (peer : Peer) (pl : Payload) :
  stable (@addPeerToRoomAndNotifyOthers eng peer pl).
Proof. unfold addPeerToRoomAndNotifyOthers. stable_auto. Qed.

Lemma stable_createTransportAndSendParameters (peer : Peer) (pl : Payload) :
  stable (@createTransportAndSendParameters eng peer pl).
Proof.
  unfold createTransportAndSendParameters, createWebRtcTransport_.
  stable_auto.
Qed.

Lemma stable_finalizeTransportConnection (peer : Peer) (pl : Payload) :
  stable (@finalizeTransportConnection eng peer pl).
Proof. unfold finalizeTransportConnection. stable_auto. Qed.

Lemma stable_createProducerAndBroadcastToPeers (peer : Peer) (pl : Payload) :
  stable (@createProducerAndBroadcastToPeers eng peer pl).
Proof. unfold createProducerAndBroadcastToPeers. stable_auto. Qed.

Lemma stable_createConsumerForRemoteProducer (peer : Peer) (pl : Payload) :
  stable (@createConsumerForRemoteProducer eng peer pl).
Proof. unfold createConsumerForRemoteProducer. stable_auto. Qed.

Lemma stable_resumePausedConsumer (peer : Peer) (pl : Payload) :
  stable (@resumePausedConsumer eng peer pl).
Proof. unfold resumePausedConsumer. stable_auto. Qed.

Lemma stable_handlePeerDisconnection (peerId : string) :
  stable (@handlePeerDisconnection eng peerId).
Proof.
  unfold handlePeerDisconnection, close_all_transports, remove_from_room,
    notify_peer_left, remove_peer.
  stable_auto.
Qed.

Lemma stable_routeIncomingMessage (peerId : string) (data : Message) :
  stable (@routeIncomingMessage eng peerId data).
Proof.
  unfold routeIncomingMessage.
  apply stable_bind; [apply stable_gets; core_side|].
  intros [peer|]; [|apply stable_console_error].
  repeat match goal with
  | |- stable (if ?x then _ else _) => destruct x
  end.
  - apply stable_sendRouterCapabilitiesToPeer.
  - apply stable_addPeerToRoomAndNotifyOthers.
  - apply stable_createTransportAndSendParameters.
  - apply stable_finalizeTransportConnection.
  - apply stable_createProducerAndBroadcastToPeers.
  - apply stable_createConsumerForRemoteProducer.
  - apply stable_resumePausedConsumer.
  - apply stable_console_warn.
Qed.

Lemma stable_onMessage (socket peerId : string) (message : string + Message) :
  stable (@onMessage eng socket peerId message).
Proof.
  intros a b H. unfold onMessage.
  assert (Hatt :
    fst (match message with
         | inl msg => (inl msg, a)
         | inr data => routeIncomingMessage peerId data a
         end) =
    fst (match message with
         | inl msg => (inl msg, b)
         | inr data => routeIncomingMessage peerId data b
         end) /\
    core_eq
      (snd (match message with
            | inl msg => (inl msg, a)
            | inr data => routeIncomingMessage peerId data a
            end))
      (snd (match message with
            | inl msg => (inl msg, b)
            | inr data => routeIncomingMessage peerId data b
            end))).
  { destruct message as [msg|data]; simpl.
    - split; [reflexivity|exact H].
    - apply stable_routeIncomingMessage. exact H. }
  destruct Hatt as [Hf Hs].
  destruct (match message with
            | inl msg => (inl msg, a)
            | inr data => routeIncomingMessage peerId data a
            end) as [[m|[]] a'],
           (match message with
            | inl msg => (inl msg, b)
            | inr data => routeIncomingMessage peerId data b
            end) as [[m'|[]] b']; simpl in *; try discriminate.
  - injection Hf as <-.
    assert (Hc : stable
      (bind (@console_error eng "[WebSocket] Error handling message:" m)
         (fun _ => sendMessage socket (error m)))) by stable_auto.
    apply Hc. exact Hs.
  - split; [reflexivity|exact Hs].
Qed.

Lemma stable_onConnection (socket peerId : string) :
  stable (@onConnection eng socket peerId).
Proof. unfold onConnection. stable_auto. Qed.

Lemma step_core_eq (ev : Event) (a b : State eng) :
  core_eq a b -> core_eq (step ev a) (step ev b).
Proof.
  intros H. destruct ev as [s p|s p m|p|s r]; simpl.
  - apply stable_onConnection. exact H.
  - apply stable_onMessage. exact H.
  - apply stable_handlePeerDisconnection. exact H.
  - exact H.
Qed.

Lemma run_core_eq (evs : list Event) (a b : State eng) :
  core_eq a b -> core_eq (run evs a) (run evs b).
Proof.
  revert a b. induction evs as [|ev evs IH]; intros a b H; simpl.
  - exact H.
  - apply IH. apply step_core_eq. exact H.
Qed.

End Stability.

(** *** Frames only go to open sockets *)

Section Delivery.

Variable eng : Engine.

Lemma quiet_sends_to_open {A : Type} (c : M eng A) :
  (forall st, sockets (snd (c st)) = sockets st /\
              outbox (snd (c st)) = outbox st) ->
  sends_to_open c.
Proof.
  intros H st. destruct (H st) as [Hs Ho]. split; [exact Hs|].
  exists []. rewrite app_nil_r. split; [exact Ho|constructor].
Qed.

Lemma sto_ret {A : Type} (x : A) : sends_to_open (@ret eng A x).
Proof. apply quiet_sends_to_open. intros st. split; reflexivity. Qed.

Lemma sto_throw {A : Type} (msg : string) : sends_to_open (@throw eng A msg).
Proof. apply quiet_sends_to_open. intros st. split; reflexivity. Qed.

Lemma sto_gets {A : Type} (f : State eng -> A) : sends_to_open (gets f).
Proof. apply quiet_sends_to_open. intros st. split; reflexivity. Qed.

Lemma sto_modify (f : State eng -> State eng) :
  (forall st, sockets (f st) = sockets st /\ outbox (f st) = outbox st) ->
  sends_to_open (modify f).
Proof. intros H. apply quiet_sends_to_open. exact H. Qed.

Lemma sto_await {A : Type} (call : E eng -> (string + A) * E eng) :
  sends_to_open (await call).
Proof.
  apply quiet_sends_to_open. intros st. unfold await.
  destruct (call (engine st)). split; reflexivity.
Qed.

Lemma sto_sendMessage (socket : string) (frame : Frame) :
  sends_to_open (@sendMessage eng socket frame).
Proof.
  intros st. unfold sendMessage.
  destruct (sockets st socket) eqn:Hs; simpl; split; try reflexivity;
    try (exists []; rewrite app_nil_r; split; [reflexivity|constructor]).
  exists [(socket, frame)]. split; [reflexivity|].
  constructor; [exact Hs|constructor].
Qed.

Lemma sto_bind {A B : Type} (c : M eng A) (k : A -> M eng B) :
  sends_to_open c -> (forall x, sends_to_open (k x)) ->
  sends_to_open (bind c k).
Proof.
  intros Hc Hk st. unfold bind.
  destruct (Hc st) as [Hs (new & Ho & Hall)].
  destruct (c st) as [[m|x] st1]; simpl in *.
  - split; [exact Hs|]. exists new. split; assumption.
  - destruct (Hk x st1) as [Hs' (new' & Ho' & Hall')].
    split; [congruence|].
    exists (new ++ new'). split.
    + rewrite Ho', Ho. now rewrite app_assoc.
    + apply Forall_app. split; [exact Hall|].
      rewrite Hs in Hall'. exact Hall'.
Qed.

Lemma sto_forEach {A : Type} (f : A -> M eng unit) (l : list A) :
  (forall x, sends_to_open (f x)) -> sends_to_open (forEach f l).
Proof.
  intros Hf. induction l as [|x l IH]; simpl.
  - apply sto_ret.
  - apply sto_bind; [apply Hf|intros _; exact IH].
Qed.

Ltac sto_step :=
  match goal with
  | |- sends_to_open (bind _ _) => apply sto_bind; [|intros ?]
  | |- sends_to_open (ret _) => apply sto_ret
  | |- sends_to_open (throw _) => apply sto_throw
  | |- sends_to_open (await _) => apply sto_await
  | |- sends_to_open (sendMessage _ _) => apply sto_sendMessage
  | |- sends_to_open (forEach _ _) => apply sto_forEach; intros ?
  | |- sends_to_open (gets _) => apply sto_gets
  | |- sends_to_open (modify _) =>
      apply sto_modify; intros ?; split; reflexivity
  | |- sends_to_open (mutate_peer _ _) =>
      apply sto_modify; intros ?; split; reflexivity
  | |- sends_to_open (console_warn _ _) =>
      apply sto_modify; intros ?; split; reflexivity
  | |- sends_to_open (console_error _ _) =>
      apply sto_modify; intros ?; split; reflexivity
  | |- sends_to_open (match ?x with _ => _ end) => destruct x
  | |- sends_to_open (if ?x then _ else _) => destruct x
  end.

Ltac sto_auto := repeat sto_step.

Lemma sto_routeIncomingMessage (peerId : string) (data : Message) :
  sends_to_open (@routeIncomingMessage eng peerId data).
Proof.
  unfold routeIncomingMessage.
  apply sto_bind; [apply sto_gets|].
  intros [peer|]; [|sto_auto].
  repeat match goal with
  | |- sends_to_open (if ?x then _ else _) => destruct x
  end.
  - unfold sendRouterCapabilitiesToPeer, getRouterRtpCapabilities. sto_auto.
  - unfold addPeerToRoomAndNotifyOthers. sto_auto.
  - unfold createTransportAndSendParameters, createWebRtcTransport_. sto_auto.
  - unfold finalizeTransportConnection. sto_auto.
  - unfold createProducerAndBroadcastToPeers. sto_auto.
  - unfold createConsumerForRemoteProducer. sto_auto.
  - unfold resumePausedConsumer. sto_auto.
  - sto_auto.
Qed.

Lemma sto_onMessage (socket peerId : string) (message : string + Message) :
  sends_to_open (@onMessage eng socket peerId message).
Proof.
  assert (Hcatch : forall m,
    sends_to_open
      (bind (@console_error eng "[WebSocket] Error handling message:" m)
         (fun _ => sendMessage socket (error m)))) by (intros m; sto_auto).
  intros st. unfold onMessage.
  destruct message as [msg|data].
  - apply (Hcatch msg st).
  - destruct (sto_routeIncomingMessage peerId data st)
      as [Hs (new & Ho & Hall)].
    destruct (routeIncomingMessage peerId data st) as [[m|[]] st1];
      simpl in *.
    + destruct (Hcatch m st1) as [Hs' (new' & Ho' & Hall')].
      split; [congruence|].
      exists (new ++ new'). split.
      * rewrite Ho', Ho. now rewrite app_assoc.
      * apply Forall_app. split; [exact Hall|].
        rewrite Hs in Hall'. exact Hall'.
    + split; [exact Hs|]. exists new. split; assumption.
Qed.

Lemma sto_onConnection (socket peerId : string) :
  sends_to_open (@onConnection eng socket peerId).
Proof. unfold onConnection. sto_auto. Qed.

Lemma sto_handlePeerDisconnection (peerId : string) :
  sends_to_open (@handlePeerDisconnection eng peerId).
Proof.
  unfold handlePeerDisconnection, close_all_transports, remove_from_room,
    notify_peer_left, remove_peer.
  sto_auto.
Qed.

(** C10.  [sendMessage] writes the frame when the socket is open and
    otherwise returns normally with the state untouched; every frame that
    any event makes the server write goes to a socket that was open; and
    the outcome of a handler (normal return or thrown error) and what it
    does to registries and engine are the same whatever the ready states
    of the sockets are. *)
Theorem frames_only_to_open_sockets :
  (forall (st : State eng) (socket : string) (frame : Frame),
     sendMessage socket frame st =
     (inr tt,
      if is_open (sockets st socket)
      then with_outbox (outbox st ++ [(socket, frame)]) st
      else st))
  /\ (forall (ev : Event) (st : State eng),
        exists new,
          outbox (step ev st) = outbox st ++ new /\
          Forall (fun sf => sockets st (fst sf) = OPEN) new)
  /\ (forall (peerId : string) (data : Message) (st : State eng)
             (socks : string -> ReadyState),
        let r := routeIncomingMessage peerId data st in
        let r' := routeIncomingMessage peerId data (with_sockets socks st) in
        fst r' = fst r /\ core_eq (snd r') (snd r))
  /\ (forall (ev : Event) (st : State eng) (socks : string -> ReadyState),
        core_eq (step ev (with_sockets socks st)) (step ev st)).
Proof.
  split; [|split; [|split]].
  - intros st socket frame. unfold sendMessage.
    destruct (is_open (sockets st socket)); reflexivity.
  - intros ev st. destruct ev as [s p|s p m|p|s r]; simpl.
    + apply (sto_onConnection s p st).
    + apply (sto_onMessage s p m st).
    + apply (sto_handlePeerDisconnection p st).
    + exists []. rewrite app_nil_r. split; [reflexivity|constructor].
  - intros peerId data st socks r r'. subst r r'.
    apply stable_routeIncomingMessage. repeat split.
  - intros ev st socks. apply step_core_eq. repeat split.
Qed.

End Delivery.

(** *** The frames written do not depend on earlier frames *)

Section Coherence.

Variable eng : Engine.

Lemma coherent_silent {A : Type} (c : M eng A) :
  (forall a b, same_view a b ->
     fst (c a) = fst (c b) /\ same_view (snd (c a)) (snd (c b))) ->
  (forall st, outbox (snd (c st)) = outbox st) ->
  coherent c.
Proof.
  intros Hc Ho a b H. destruct (Hc a b H) as [Hf Hv].
  split; [exact Hf|]. split; [exact Hv|].
  exists []. rewrite !app_nil_r. split; apply Ho.
Qed.

Lemma coherent_ret {A : Type} (x : A) : coherent (@ret eng A x).
Proof.
  apply coherent_silent; [|reflexivity]. intros a b H. split; [reflexivity|].
  exact H.
Qed.

Lemma coherent_throw {A : Type} (msg : string) : coherent (@throw eng A msg).
Proof.
  apply coherent_silent; [|reflexivity]. intros a b H. split; [reflexivity|].
  exact H.
Qed.

Lemma coherent_gets {A : Type} (f : State eng -> A) :
  (forall a b, same_view a b -> f a = f b) -> coherent (gets f).
Proof.
  intros Hf. apply coherent_silent; [|reflexivity]. intros a b H.
  unfold gets. simpl. split; [|exact H]. now rewrite (Hf a b H).
Qed.

Lemma coherent_modify (f : State eng -> State eng) :
  (forall a b, same_view a b -> same_view (f a) (f b)) ->
  (forall st, outbox (f st) = outbox st) ->
  coherent (modify f).
Proof.
  intros Hf Ho. apply coherent_silent; [|exact Ho]. intros a b H.
  split; [reflexivity|]. apply Hf. exact H.
Qed.

Lemma coherent_await {A : Type} (call : E eng -> (string + A) * E eng) :
  coherent (await call).
Proof.
  apply coherent_silent.
  - intros a b ((Hp & Hr & He) & Hs). unfold await. rewrite He.
    destruct (call (engine b)) as [r e']. simpl.
    repeat split; assumption.
  - intros st. unfold await. destruct (call (engine st)). reflexivity.
Qed.

Lemma coherent_sendMessage (socket : string) (frame : Frame) :
  coherent (@sendMessage eng socket frame).
Proof.
  intros a b H. unfold sendMessage. destruct H as [Hc Hs]. rewrite Hs.
  destruct (is_open (sockets b socket)); simpl.
  - split; [reflexivity|]. split.
    + destruct Hc as (Hp & Hr & He). repeat split; assumption.
    + exists [(socket, frame)]. split; reflexivity.
  - split; [reflexivity|]. split; [split; assumption|].
    exists []. rewrite !app_nil_r. split; reflexivity.
Qed.

Lemma coherent_bind {A B : Type} (c : M eng A) (k : A -> M eng B) :
  coherent c -> (forall x, coherent (k x)) -> coherent (bind c k).
Proof.
  intros Hc Hk a b H. unfold bind.
  destruct (Hc a b H) as (Hf & Hv & new & Ha & Hb).
  destruct (c a) as [[m|x] a'], (c b) as [[m'|x'] b']; simpl in *;
    try discriminate.
  - split; [congruence|]. split; [exact Hv|]. exists new. split; assumption.
  - injection Hf as <-.
    destruct (Hk x a' b' Hv) as (Hf' & Hv' & new' & Ha' & Hb').
    split; [exact Hf'|]. split; [exact Hv'|].
    exists (new ++ new'). rewrite Ha', Hb', Ha, Hb, !app_assoc.
    split; reflexivity.
Qed.

Lemma coherent_forEach {A : Type} (f : A -> M eng unit) (l : list A) :
  (forall x, coherent (f x)) -> coherent (forEach f l).
Proof.
  intros Hf. induction l as [|x l IH]; simpl.
  - apply coherent_ret.
  - apply coherent_bind; [apply Hf|intros _; exact IH].
Qed.

Ltac view_side :=
  let a := fresh "a" in let b := fresh "b" in
  let Hp := fresh "Hp" in let Hr := fresh "Hr" in let He := fresh "He" in
  let Hs := fresh "Hs" in
  intros a b ((Hp & Hr & He) & Hs); unfold same_view, core_eq; simpl;
  rewrite ?Hp, ?Hr, ?He, ?Hs; repeat split; congruence.

Ltac coherent_step :=
  match goal with
  | |- coherent (bind _ _) => apply coherent_bind; [|intros ?]
  | |- coherent (ret _) => apply coherent_ret
  | |- coherent (throw _) => apply coherent_throw
  | |- coherent (await _) => apply coherent_await
  | |- coherent (sendMessage _ _) => apply coherent_sendMessage
  | |- coherent (forEach _ _) => apply coherent_forEach; intros ?
  | |- coherent (gets _) => apply coherent_gets; view_side
  | |- coherent (modify _) =>
      apply coherent_modify; [view_side|intros ?; reflexivity]
  | |- coherent (mutate_peer _ _) =>
      apply coherent_modify; [view_side|intros ?; reflexivity]
  | |- coherent (console_warn _ _) =>
      apply coherent_modify; [view_side|intros ?; reflexivity]
  | |- coherent (console_error _ _) =>
      apply coherent_modify; [view_side|intros ?; reflexivity]
  | |- coherent (match ?x with _ => _ end) => destruct x
  | |- coherent (if ?x then _ else _) => destruct x
  end.

Ltac coherent_auto := repeat coherent_step.

Lemma coherent_routeIncomingMessage (peerId : string) (data : Message) :
  coherent (@routeIncomingMessage eng peerId data).
Proof.
  unfold routeIncomingMessage.
  apply coherent_bind; [apply coherent_gets; view_side|].
  intros [peer|]; [|coherent_auto].
  repeat match goal with
  | |- coherent (if ?x then _ else _) => destruct x
  end.
  - unfold sendRouterCapabilitiesToPeer, getRouterRtpCapabilities.
    coherent_auto.
  - unfold addPeerToRoomAndNotifyOthers. coherent_auto.
  - unfold createTransportAndSendParameters, createWebRtcTransport_.
    coherent_auto.
  - unfold finalizeTransportConnection. coherent_auto.
  - unfold createProducerAndBroadcastToPeers. coherent_auto.
  - unfold createConsumerForRemoteProducer. coherent_auto.
  - unfold resumePausedConsumer. coherent_auto.
  - coherent_auto.
Qed.

Lemma coherent_onMessage (socket peerId : string)
  (message : string + Message) :
  coherent (@onMessage eng socket peerId message).
Proof.
  assert (Hcatch : forall m,
    coherent
      (bind (@console_error eng "[WebSocket] Error handling message:" m)
         (fun _ => sendMessage socket (error m))))
    by (intros m; coherent_auto).
  intros a b H. unfold onMessage. destruct message as [msg|data].
  - apply (Hcatch msg a b H).
  - destruct (coherent_routeIncomingMessage peerId data a b H)
      as (Hf & Hv & new & Ha & Hb).
    destruct (routeIncomingMessage peerId data a) as [[m|[]] a'],
             (routeIncomingMessage peerId data b) as [[m'|[]] b'];
      simpl in *; try discriminate.
    + injection Hf as <-.
      destruct (Hcatch m a' b' Hv) as (Hf' & Hv' & new' & Ha' & Hb').
      split; [exact Hf'|]. split; [exact Hv'|].
      exists (new ++ new'). rewrite Ha', Hb', Ha, Hb, !app_assoc.
      split; reflexivity.
    + split; [reflexivity|]. split; [exact Hv|].
      exists new. split; assumption.
Qed.

Lemma coherent_onConnection (socket peerId : string) :
  coherent (@onConnection eng socket peerId).
Proof. unfold onConnection. coherent_auto. Qed.

Lemma coherent_handlePeerDisconnection (peerId : string) :
  coherent (@handlePeerDisconnection eng peerId).
Proof.
  unfold handlePeerDisconnection, close_all_transports, remove_from_room,
    notify_peer_left, remove_peer.
  coherent_auto.
Qed.

Lemma step_same_view (ev : Event) (a b : State eng) :
  same_view a b ->
  same_view (step ev a) (step ev b)
  /\ exists new,
       outbox (step ev a) = outbox a ++ new /\
       outbox (step ev b) = outbox b ++ new.
Proof.
  intros H. destruct ev as [s p|s p m|p|s r]; simpl.
  - apply coherent_onConnection. exact H.
  - apply coherent_onMessage. exact H.
  - apply coherent_handlePeerDisconnection. exact H.
  - split.
    + destruct H as ((Hp & Hr & He) & Hs). repeat split; simpl; try assumption.
      now rewrite Hs.
    + exists []. rewrite !app_nil_r. split; reflexivity.
Qed.

(** From two states with the same view, a sequence of events leads to
    states with the same view and writes the same frames. *)
Lemma run_same_view (evs : list Event) (a b : State eng) :
  same_view a b ->
  same_view (run evs a) (run evs b)
  /\ exists new,
       outbox (run evs a) = outbox a ++ new /\
       outbox (run evs b) = outbox b ++ new.
Proof.
  revert a b. induction evs as [|ev evs IH]; intros a b H; simpl.
  - split; [exact H|]. exists []. rewrite !app_nil_r. split; reflexivity.
  - destruct (step_same_view ev a b H) as (Hv & new & Ha & Hb).
    destruct (IH (step ev a) (step ev b) Hv) as (Hv' & new' & Ha' & Hb').
    split; [exact Hv'|].
    exists (new ++ new'). rewrite Ha', Hb', Ha, Hb, !app_assoc.
    split; reflexivity.
Qed.

End Coherence.

(** *** A refused capability check *)

Section Refusal.

Variable eng : Engine.

(** C6.  A [consume] request on which [canConsume] answers [false]: the
    listener returns normally; no consumer is created, registries (hence
    the consumer map of the requester) and engine are exactly as before;
    the only trace is one [error] frame for the requester; and every later
    sequence of events, other consume requests included, is processed as if
    the refused request had not been made: it ends in the same registries
    and engine and writes the same frames. *)
Theorem refused_consume_changes_nothing (st : State eng)
  (socket peerId : string) (peer : Peer) (data : Message) :
  JsMap.get peerId (peers st) = Some peer ->
  type data = "consume" ->
  canConsume eng (q_producerId (payload data))
    (q_rtpCapabilities (payload data)) (engine st) = false ->
  let ev := EvMessage socket peerId (inr data) in
  let st' := step ev st in
  fst (onMessage socket peerId (inr data) st) = inr tt
  /\ peers st' = peers st
  /\ rooms st' = rooms st
  /\ engine st' = engine st
  /\ sockets st' = sockets st
  /\ (exists msg,
        outbox st' =
        outbox st ++
        (if is_open (sockets st socket) then [(socket, error msg)] else []))
  /\ (forall evs : list Event,
        core_eq (run evs st') (run evs st)
        /\ exists later,
             outbox (run evs st') = outbox st' ++ later /\
             outbox (run evs st) = outbox st ++ later).
Proof.
  intros Hp Hty Hc ev st'.
  set (msg := match find_producer (q_producerId (payload data)) (peers st)
              with
              | Some _ => "Cannot consume"
              | None => "Producer not found"
              end).
  set (logged :=
         with_console
           (console st ++ [(Err, "[WebSocket] Error handling message:", msg)])
           st).
  assert (Hm : onMessage socket peerId (inr data) st =
    (inr tt,
     if is_open (sockets st socket)
     then with_outbox (outbox st ++ [(socket, error msg)]) logged
     else logged)).
  { unfold onMessage.
    destruct (route_known eng st peerId peer data Hp)
      as (_ & _ & _ & _ & Hr & _).
    rewrite (Hr Hty), (consume_refused eng st peer (payload data) Hc).
    unfold bind, console_error, modify, sendMessage. simpl.
    destruct (is_open (sockets st socket)); reflexivity. }
  assert (Hst : st' =
    if is_open (sockets st socket)
    then with_outbox (outbox st ++ [(socket, error msg)]) logged
    else logged).
  { subst st' ev. unfold step. rewrite Hm. reflexivity. }
  assert (Hcore : core_eq st' st).
  { rewrite Hst. destruct (is_open (sockets st socket)); repeat split. }
  split; [rewrite Hm; reflexivity|].
  split; [rewrite Hst; destruct (is_open (sockets st socket)); reflexivity|].
  split; [rewrite Hst; destruct (is_open (sockets st socket)); reflexivity|].
  split; [rewrite Hst; destruct (is_open (sockets st socket)); reflexivity|].
  split; [rewrite Hst; destruct (is_open (sockets st socket)); reflexivity|].
  split.
  - exists msg. rewrite Hst.
    destruct (is_open (sockets st socket)); simpl;
      [reflexivity|now rewrite app_nil_r].
  - intros evs.
    assert (Hview : same_view st' st).
    { split; [exact Hcore|]. rewrite Hst.
      destruct (is_open (sockets st socket)); reflexivity. }
    destruct (run_same_view eng evs st' st Hview) as ([Hc' _] & later & Hl).
    split; [exact Hc'|]. exists later. exact Hl.
Qed.

End Refusal.

Lemma refused_consume_changes_nothing_witness :
  let st := st_scenario in
  let data := consume_ "P1" "none" in
  let ev := EvMessage "s2" "p2" (inr data) in
  let st' := step ev st in
  fst (onMessage "s2" "p2" (inr data) st) = inr tt
  /\ peers st' = peers st
  /\ rooms st' = rooms st
  /\ engine st' = engine st
  /\ sockets st' = sockets st
  /\ (exists msg,
        outbox st' =
        outbox st ++
        (if is_open (sockets st "s2") then [("s2", error msg)] else []))
  /\ (forall evs : list Event,
        core_eq (run evs st') (run evs st)
        /\ exists later,
             outbox (run evs st') = outbox st' ++ later /\
             outbox (run evs st) = outbox st ++ later).
Proof.
  intros st data ev st'.
  apply (refused_consume_changes_nothing counter_engine st "s2" "p2"
           (peer_of st "p2") data); vm_compute; reflexivity.
Defined.

(** *** Joining a room *)

Section JoinFacts.

Variable eng : Engine.

Lemma with_outbox_same (st : State eng) : with_outbox (outbox st) st = st.
Proof. destruct st. reflexivity. Qed.

(** The second [existingPeers.forEach] only appends [newPeer] frames. *)
Lemma newPeer_loop (joiner : string) (l : list string) (st : State eng) :
  exists news,
    forEach (fun existingPeerId =>
      bind (gets (fun st : State eng => JsMap.get existingPeerId (peers st)))
        (fun existingPeer =>
           match existingPeer with
           | Some existingPeer =>
               bind (gets (fun st : State eng =>
                             sockets st (p_socket existingPeer)))
                 (fun rs =>
                    if is_open rs
                    then sendMessage (p_socket existingPeer) (newPeer joiner)
                    else ret tt)
           | None => ret tt
           end)) l st
    = (inr tt, with_outbox (outbox st ++ news) st)
    /\ Forall (fun sf => snd sf = newPeer joiner) news.
Proof.
  revert st. induction l as [|x l IH]; intros st; simpl.
  - exists []. rewrite app_nil_r, with_outbox_same. split; [reflexivity|].
    constructor.
  - unfold bind at 1. unfold bind at 1. unfold gets at 1. simpl.
    destruct (JsMap.get x (peers st)) as [q|].
    + unfold bind at 1. unfold gets at 1. simpl.
      unfold sendMessage at 1.
      destruct (is_open (sockets st (p_socket q))) eqn:Ho; simpl.
      * rewrite Ho.
        destruct (IH (with_outbox (outbox st ++ [(p_socket q, newPeer joiner)])
                        st)) as (news & Heq & Hall).
        exists ((p_socket q, newPeer joiner) :: news). split.
        -- rewrite Heq. simpl. rewrite <- app_assoc. reflexivity.
        -- constructor; [reflexivity|exact Hall].
      * destruct (IH st) as (news & Heq & Hall).
        exists news. split; [exact Heq|exact Hall].
    + simpl. destruct (IH st) as (news & Heq & Hall).
      exists news. split; [exact Heq|exact Hall].
Qed.

Lemma collect_info_roomId (ps : JsMap.t Peer) (k : string)
  (r : option string) (x : string) :
  collect_info (JsMap.update k (set_roomId r) ps) x = collect_info ps x.
Proof.
  unfold collect_info. rewrite JsMapFacts.get_update.
  destruct (x =? k); [|reflexivity].
  destruct (JsMap.get x ps); reflexivity.
Qed.

Lemma collect_info_peerId (ps : JsMap.t Peer) (x : string) (info : PeerInfo) :
  In info (collect_info ps x) -> pi_peerId info = x.
Proof.
  unfold collect_info. destruct (JsMap.get x ps) as [q|]; [|intros []].
  destruct (Nat.ltb 0 (List.length (producer_refs q))); [|intros []].
  intros [<-|[]]. reflexivity.
Qed.

(** What [joinRoom] does, step by step: the snapshot is taken from the
    room as it was, then the joiner is inserted, then [roomJoined] is sent
    and the members of the snapshot are notified. *)
Lemma join_result (st : State eng) (peer : Peer) (pl : Payload) :
  let rid := q_roomId pl in
  let existing :=
    filter (fun id => negb (id =? p_id peer)) (members st rid) in
  let infos := flat_map (collect_info (peers st)) existing in
  exists (st2 : State eng) (news : list (string * Frame)),
    addPeerToRoomAndNotifyOthers peer pl st =
    (inr tt,
     with_outbox
       ((outbox st ++
         if is_open (sockets st (p_socket peer))
         then [(p_socket peer, roomJoined rid existing infos)] else [])
        ++ news) st2)
    /\ Forall (fun sf => snd sf = newPeer (p_id peer)) news
    /\ peers st2 = JsMap.update (p_id peer) (set_roomId (Some rid)) (peers st)
    /\ members st2 rid = JsSet.add (p_id peer) (members st rid).
Proof.
  intros rid existing infos.
  unfold addPeerToRoomAndNotifyOthers.
  fold rid.
  unfold bind at 1. unfold gets at 1. simpl.
  unfold JsMap.has.
  destruct (JsMap.get rid (rooms st)) as [room|] eqn:Hroom.
  - (* the room exists *)
    unfold bind at 1. unfold ret at 1. simpl.
    unfold bind at 1. unfold gets at 1. simpl. rewrite Hroom.
    assert (Hm : members st rid = r_peers room).
    { unfold members. now rewrite Hroom. }
    unfold bind at 1. unfold modify at 1. simpl.
    unfold bind at 1. unfold mutate_peer, modify at 1. simpl.
    unfold bind at 1. unfold gets at 1. simpl.
    unfold bind at 1. unfold sendMessage at 1. simpl.
    rewrite <- Hm. fold existing.
    rewrite (flat_map_ext _ _ (collect_info_roomId (peers st) (p_id peer)
                                 (Some rid))).
    fold infos.
    assert (Hadd : forall s : State eng,
      rooms s = JsMap.update rid
                  (fun r => set_r_peers (JsSet.add (p_id peer) (r_peers r)) r)
                  (rooms st) ->
      members s rid = JsSet.add (p_id peer) (members st rid)).
    { intros s Hs. unfold members. rewrite Hs.
      rewrite JsMapFacts.get_update, String.eqb_refl, Hroom. reflexivity. }
    clearbody infos existing.
    destruct (is_open (sockets st (p_socket peer))) eqn:Ho.
    + match goal with
      | |- context [forEach ?f existing ?s] =>
          destruct (newPeer_loop (p_id peer) existing s) as (news & Heq & Hall);
          rewrite Heq; exists s
      end.
      exists news. split; [reflexivity|]. split; [exact Hall|].
      split; [reflexivity|]. apply Hadd. reflexivity.
    + match goal with
      | |- context [forEach ?f existing ?s] =>
          destruct (newPeer_loop (p_id peer) existing s) as (news & Heq & Hall);
          rewrite Heq; exists s
      end.
      exists news. rewrite app_nil_r. split; [reflexivity|].
      split; [exact Hall|].
      split; [reflexivity|]. apply Hadd. reflexivity.
  - (* the room is created *)
    assert (Hm : members st rid = []).
    { unfold members. now rewrite Hroom. }
    unfold bind at 1. unfold modify at 1. simpl.
    unfold bind at 1. unfold gets at 1. simpl.
    rewrite JsMapFacts.get_set_same.
    unfold bind at 1. unfold modify at 1. simpl.
    unfold bind at 1. unfold mutate_peer, modify at 1. simpl.
    unfold bind at 1. unfold gets at 1. simpl.
    unfold bind at 1. unfold sendMessage at 1. simpl.
    subst existing infos. rewrite Hm. simpl.
    assert (Hadd : forall s : State eng,
      rooms s = JsMap.update rid
                  (fun r => set_r_peers (JsSet.add (p_id peer) (r_peers r)) r)
                  (JsMap.set rid {| r_id := rid; r_peers := JsSet.empty |}
                     (rooms st)) ->
      members s rid = [p_id peer]).
    { intros s Hs. unfold members. rewrite Hs.
      rewrite JsMapFacts.get_update, String.eqb_refl.
      rewrite JsMapFacts.get_set_same. reflexivity. }
    destruct (is_open (sockets st (p_socket peer))) eqn:Ho; simpl;
      unfold ret; simpl.
    + match goal with
      | |- exists _ _, (inr tt, ?s) = _ /\ _ => exists s, []
      end.
      rewrite !app_nil_r.
      split; [reflexivity|]. split; [constructor|].
      split; [reflexivity|]. apply Hadd. reflexivity.
    + match goal with
      | |- exists _ _, (inr tt, ?s) = _ /\ _ => exists s, []
      end.
      rewrite !app_nil_r.
      split; [reflexivity|]. split; [constructor|].
      split; [reflexivity|]. apply Hadd. reflexivity.
Qed.

Lemma add_In (x : string) (s : JsSet.t) : In x (JsSet.add x s).
Proof.
  unfold JsSet.add. destruct (JsSet.has x s) eqn:Hh.
  - now apply JsSetFacts.has_In.
  - apply in_or_app. right. now left.
Qed.

(** C4.  [joinRoom] always returns normally and inserts the peer; every
    [roomJoined] frame it writes carries the members of the room as they
    were before the insertion, the joiner itself filtered out, and the
    producers of those members only; so the joiner is in neither list, and
    both lists are empty when the room was empty or did not exist. *)
Theorem roomJoined_is_snapshot_without_joiner (st : State eng) (peer : Peer)
  (pl : Payload) :
  let rid := q_roomId pl in
  let before := members st rid in
  let res := addPeerToRoomAndNotifyOthers peer pl st in
  fst res = inr tt
  /\ In (p_id peer) (members (snd res) rid)
  /\ exists new,
       outbox (snd res) = outbox st ++ new
       /\ (sockets st (p_socket peer) = OPEN ->
           exists ps eps, In (p_socket peer, roomJoined rid ps eps) new)
       /\ forall s r ps eps,
            In (s, roomJoined r ps eps) new ->
            ps = filter (fun id => negb (id =? p_id peer)) before
            /\ ~ In (p_id peer) ps
            /\ (forall info, In info eps ->
                  pi_peerId info <> p_id peer /\ In (pi_peerId info) before)
            /\ (before = [] -> ps = [] /\ eps = []).
Proof.
  intros rid before res.
  destruct (join_result st peer pl) as (st2 & news & Heq & Hall & Hps & Hms).
  fold rid in Heq, Hms. fold before in Heq, Hms. subst res. rewrite Heq.
  simpl. split; [reflexivity|]. split.
  - change (In (p_id peer) (members st2 rid)). rewrite Hms. apply add_In.
  - eexists. split; [rewrite <- app_assoc; reflexivity|]. split.
    + intros Ho. rewrite Ho. simpl. do 2 eexists. left. reflexivity.
    + intros s r ps eps Hin.
      assert (Hframe : (s, roomJoined r ps eps) =
        (p_socket peer,
         roomJoined rid
           (filter (fun id => negb (id =? p_id peer)) before)
           (flat_map (collect_info (peers st))
              (filter (fun id => negb (id =? p_id peer)) before)))).
      { apply in_app_or in Hin. destruct Hin as [Hin|Hin].
        - destruct (is_open (sockets st (p_socket peer)));
            [|destruct Hin].
          destruct Hin as [Hin|[]]. now symmetry.
        - rewrite Forall_forall in Hall. apply Hall in Hin.
          simpl in Hin. discriminate. }
      injection Hframe as _ _ -> ->.
      split; [reflexivity|]. split; [|split].
      * rewrite filter_In, String.eqb_refl. simpl. intros [_ H].
        discriminate.
      * intros info Hi. apply in_flat_map in Hi.
        destruct Hi as (x & Hx & Hi).
        apply collect_info_peerId in Hi. rewrite Hi.
        apply filter_In in Hx. destruct Hx as [Hx Hne].
        split; [|exact Hx].
        apply negb_true_iff, String.eqb_neq in Hne. exact Hne.
      * intros Hb. rewrite Hb. simpl. split; reflexivity.
Qed.

End JoinFacts.

(** *** Well-formed registries *)

Section WellFormed.

Variable eng : Engine.

Lemma keys_update {V : Type} (k : string) (f : V -> V) (m : JsMap.t V) :
  JsMap.keys (JsMap.update k f m) = JsMap.keys m.
Proof.
  unfold JsMap.keys, JsMap.update. rewrite map_map. apply map_ext.
  intros [k' v]. simpl. destruct (k' =? k); reflexivity.
Qed.

Lemma wf_peers_update (k : string) (f : Peer -> Peer) (ps : JsMap.t Peer) :
  (forall p, p_id (f p) = p_id p /\ p_socket (f p) = p_socket p) ->
  wf_peers ps -> wf_peers (JsMap.update k f ps).
Proof.
  intros Hf (Hk & Hs & Hi). split; [|split].
  - now rewrite keys_update.
  - replace (map p_socket (JsMap.values (JsMap.update k f ps)))
      with (map p_socket (JsMap.values ps)); [exact Hs|].
    unfold JsMap.values, JsMap.update. rewrite !map_map. apply map_ext.
    intros [k' v]. simpl. destruct (k' =? k); simpl; [|reflexivity].
    symmetry. apply Hf.
  - unfold JsMap.update. rewrite Forall_map.
    eapply Forall_impl; [|exact Hi].
    intros [k' v] H. simpl in *. destruct (k' =? k); simpl; [|exact H].
    destruct (Hf v) as [-> _]. exact H.
Qed.

Lemma NoDup_map_filter {A B : Type} (g : A -> B) (f : A -> bool)
  (l : list A) :
  NoDup (map g l) -> NoDup (map g (filter f l)).
Proof.
  induction l as [|a l IH]; simpl; intros H; [constructor|].
  apply NoDup_cons_iff in H. destruct H as [Hn H].
  destruct (f a); simpl; [|auto].
  constructor; [|auto].
  intros Hin. apply Hn. apply in_map_iff in Hin.
  destruct Hin as (x & Hx & Hin). apply filter_In in Hin.
  apply in_map_iff. exists x. tauto.
Qed.

Lemma wf_peers_delete (k : string) (ps : JsMap.t Peer) :
  wf_peers ps -> wf_peers (JsMap.delete k ps).
Proof.
  intros (Hk & Hs & Hi).
  unfold wf_peers, JsMap.delete, JsMap.keys, JsMap.values in *.
  rewrite map_map in *. split; [|split].
  - apply NoDup_map_filter. exact Hk.
  - apply NoDup_map_filter. exact Hs.
  - rewrite Forall_forall in *. intros x Hx. apply filter_In in Hx.
    apply Hi. tauto.
Qed.

Lemma get_None_keys {V : Type} (k : string) (m : JsMap.t V) :
  ~ In k (JsMap.keys m) -> JsMap.get k m = None.
Proof.
  induction m as [|[k' v] m IH]; simpl; intros Hn; [reflexivity|].
  destruct (String.eqb_spec k' k) as [->|Hne]; [tauto|].
  apply IH. tauto.
Qed.

Lemma get_In {V : Type} (k : string) (v : V) (m : JsMap.t V) :
  JsMap.get k m = Some v -> In (k, v) m.
Proof.
  induction m as [|[k' v'] m IH]; simpl; [discriminate|].
  destruct (String.eqb_spec k' k) as [->|Hne].
  - intros [= ->]. now left.
  - intros H. right. now apply IH.
Qed.

Lemma wf_peers_connect (socket peerId : string) (ps : JsMap.t Peer) :
  ~ In peerId (JsMap.keys ps) ->
  ~ In socket (map p_socket (JsMap.values ps)) ->
  wf_peers ps ->
  wf_peers (JsMap.set peerId
    {| p_id := peerId; p_socket := socket; transports := JsMap.empty;
       producers := JsMap.empty; consumers := JsMap.empty;
       roomId := None |} ps).
Proof.
  intros Hk Hs (Hnk & Hns & Hi).
  rewrite JsMapFacts.set_absent by (apply get_None_keys; exact Hk).
  unfold wf_peers, JsMap.keys, JsMap.values in *. split; [|split].
  - rewrite map_app. simpl. apply NoDup_app; auto.
    + repeat constructor. simpl. tauto.
    + intros a Ha [<-|[]]. contradiction.
  - rewrite !map_app. simpl. apply NoDup_app; auto.
    + repeat constructor. simpl. tauto.
    + intros a Ha [<-|[]]. contradiction.
  - apply Forall_app. split; [exact Hi|]. repeat constructor.
Qed.

Lemma wf_rooms_set (k : string) (r : Room) (rs : JsMap.t Room) :
  NoDup (r_peers r) -> wf_rooms rs -> wf_rooms (JsMap.set k r rs).
Proof.
  intros Hr. unfold wf_rooms.
  induction rs as [|[k' r'] rs IH]; simpl; intros H.
  - repeat constructor. exact Hr.
  - apply Forall_cons_iff in H. destruct H as [H1 H2].
    destruct (k' =? k); constructor; auto.
Qed.

Lemma wf_rooms_update (k : string) (f : Room -> Room) (rs : JsMap.t Room) :
  (forall r, NoDup (r_peers r) -> NoDup (r_peers (f r))) ->
  wf_rooms rs -> wf_rooms (JsMap.update k f rs).
Proof.
  intros Hf H. unfold wf_rooms, JsMap.update in *. rewrite Forall_map.
  eapply Forall_impl; [|exact H].
  intros [k' r] Hr. simpl in *. destruct (k' =? k); simpl; auto.
Qed.

Lemma wf_rooms_delete (k : string) (rs : JsMap.t Room) :
  wf_rooms rs -> wf_rooms (JsMap.delete k rs).
Proof.
  unfold wf_rooms, JsMap.delete. intros H. rewrite Forall_forall in *.
  intros x Hx. apply filter_In in Hx. apply H. tauto.
Qed.

Lemma wf_rooms_get (k : string) (r : Room) (rs : JsMap.t Room) :
  wf_rooms rs -> JsMap.get k rs = Some r -> NoDup (r_peers r).
Proof.
  intros H Hg. apply get_In in Hg. unfold wf_rooms in H.
  rewrite Forall_forall in H. apply (H _ Hg).
Qed.

(** Two registered peers with the same socket are the same entry. *)
Lemma socket_identifies_peer (ps : JsMap.t Peer) (k1 k2 : string)
  (q1 q2 : Peer) :
  wf_peers ps ->
  JsMap.get k1 ps = Some q1 -> JsMap.get k2 ps = Some q2 ->
  p_socket q1 = p_socket q2 -> k1 = k2.
Proof.
  intros (_ & Hs & _). unfold JsMap.values in Hs.
  induction ps as [|[k v] ps IH]; simpl; [discriminate|].
  simpl in Hs. apply NoDup_cons_iff in Hs. destruct Hs as [Hn Hs].
  assert (Hin : forall k' q', JsMap.get k' ps = Some q' ->
                              In (p_socket q') (map p_socket (map snd ps))).
  { intros k' q' Hg. apply get_In in Hg. rewrite map_map.
    apply in_map_iff. exists (k', q'). split; [reflexivity|exact Hg]. }
  destruct (String.eqb_spec k k1) as [E1|H1],
           (String.eqb_spec k k2) as [E2|H2].
  - congruence.
  - intros [= <-] Hg2 He. exfalso. apply Hn. rewrite He. eapply Hin, Hg2.
  - intros Hg1 [= <-] He. exfalso. apply Hn. rewrite <- He. eapply Hin, Hg1.
  - intros Hg1 Hg2 He. exact (IH Hs Hg1 Hg2 He).
Qed.

(** In a well-formed state a peer is registered under its own id. *)
Lemma wf_registered (st : State eng) (k : string) (p : Peer) :
  wf st -> JsMap.get k (peers st) = Some p ->
  JsMap.get (p_id p) (peers st) = Some p.
Proof.
  intros ((_ & _ & Hi) & _) Hg.
  pose proof (get_In k p (peers st) Hg) as Hin.
  rewrite Forall_forall in Hi. specialize (Hi _ Hin). simpl in Hi.
  now rewrite Hi.
Qed.

(** In a well-formed state the members of a room have distinct sockets. *)
Lemma wf_member_sockets (st : State eng) (l : list string) :
  wf_peers (peers st) -> NoDup l -> NoDup (member_sockets st l).
Proof.
  intros Hw. induction l as [|x l IH]; intros Hnd; [constructor|].
  apply NoDup_cons_iff in Hnd. destruct Hnd as [Hx Hnd].
  change (member_sockets st (x :: l))
    with ((match JsMap.get x (peers st) with
           | Some q => [p_socket q]
           | None => []
           end) ++ member_sockets st l).
  destruct (JsMap.get x (peers st)) as [q|] eqn:Hq; simpl; [|auto].
  constructor; [|auto].
  intros Hin. unfold member_sockets in Hin. apply in_flat_map in Hin.
  destruct Hin as (y & Hy & Hin).
  destruct (JsMap.get y (peers st)) as [qy|] eqn:Hqy; [|destruct Hin].
  destruct Hin as [He|[]].
  assert (y = x) by (eapply socket_identifies_peer; eauto).
  subst y. contradiction.
Qed.

Lemma keeps_ret {A : Type} (x : A) : keeps_wf (@ret eng A x).
Proof. intros st H. exact H. Qed.

Lemma keeps_throw {A : Type} (msg : string) : keeps_wf (@throw eng A msg).
Proof. intros st H. exact H. Qed.

Lemma keeps_gets {A : Type} (f : State eng -> A) : keeps_wf (gets f).
Proof. intros st H. exact H. Qed.

Lemma keeps_quiet {A : Type} (c : M eng A) :
  (forall st, peers (snd (c st)) = peers st /\
              rooms (snd (c st)) = rooms st) ->
  keeps_wf c.
Proof.
  intros Hc st (Hp & Hr). destruct (Hc st) as [Ep Er].
  split; [rewrite Ep|rewrite Er]; assumption.
Qed.

Lemma keeps_await {A : Type} (call : E eng -> (string + A) * E eng) :
  keeps_wf (await call).
Proof.
  apply keeps_quiet. intros st. unfold await.
  destruct (call (engine st)). split; reflexivity.
Qed.

Lemma keeps_sendMessage (socket : string) (frame : Frame) :
  keeps_wf (@sendMessage eng socket frame).
Proof.
  apply keeps_quiet. intros st. unfold sendMessage.
  destruct (is_open (sockets st socket)); split; reflexivity.
Qed.

Lemma keeps_bind {A B : Type} (c : M eng A) (k : A -> M eng B) :
  keeps_wf c -> (forall x, keeps_wf (k x)) -> keeps_wf (bind c k).
Proof.
  intros Hc Hk st H. unfold bind. specialize (Hc st H).
  destruct (c st) as [[m|x] st1]; simpl in *; [exact Hc|].
  apply Hk. exact Hc.
Qed.

Lemma keeps_forEach {A : Type} (f : A -> M eng unit) (l : list A) :
  (forall x, keeps_wf (f x)) -> keeps_wf (forEach f l).
Proof.
  intros Hf. induction l as [|x l IH]; simpl.
  - apply keeps_ret.
  - apply keeps_bind; [apply Hf|intros _; exact IH].
Qed.

Lemma keeps_mutate_peer (peer : Peer) (f : Peer -> Peer) :
  (forall p, p_id (f p) = p_id p /\ p_socket (f p) = p_socket p) ->
  keeps_wf (@mutate_peer eng peer f).
Proof.
  intros Hf st (Hp & Hr). split; simpl; [|exact Hr].
  apply wf_peers_update; assumption.
Qed.

Lemma keeps_rooms_update (k : string) (f : Room -> Room) :
  (forall r, NoDup (r_peers r) -> NoDup (r_peers (f r))) ->
  keeps_wf (modify (@with_rooms eng (JsMap.update k f))).
Proof.
  intros Hf st (Hp & Hr). split; simpl; [exact Hp|].
  apply wf_rooms_update; assumption.
Qed.

Lemma keeps_rooms_set (k : string) (r : Room) :
  NoDup (r_peers r) ->
  keeps_wf (modify (@with_rooms eng (JsMap.set k r))).
Proof.
  intros Hn st (Hp & Hr). split; simpl; [exact Hp|].
  apply wf_rooms_set; assumption.
Qed.

Ltac keeps_step :=
  match goal with
  | |- keeps_wf (bind _ _) => apply keeps_bind; [|intros ?]
  | |- keeps_wf (ret _) => apply keeps_ret
  | |- keeps_wf (throw _) => apply keeps_throw
  | |- keeps_wf (await _) => apply keeps_await
  | |- keeps_wf (sendMessage _ _) => apply keeps_sendMessage
  | |- keeps_wf (forEach _ _) => apply keeps_forEach; intros ?
  | |- keeps_wf (gets _) => apply keeps_gets
  | |- keeps_wf (mutate_peer _ _) =>
      apply keeps_mutate_peer; intros ?; split; reflexivity
  | |- keeps_wf (console_warn _ _) =>
      apply keeps_quiet; intros ?; split; reflexivity
  | |- keeps_wf (console_error _ _) =>
      apply keeps_quiet; intros ?; split; reflexivity
  | |- keeps_wf (modify (with_rooms (JsMap.set _ _))) =>
      apply keeps_rooms_set; constructor
  | |- keeps_wf (modify (with_rooms (JsMap.update _ _))) =>
      apply keeps_rooms_update; intros ? ?; simpl;
      apply JsSetFacts.add_NoDup; assumption
  | |- keeps_wf (match ?x with _ => _ end) => destruct x
  | |- keeps_wf (if ?x then _ else _) => destruct x
  end.

Ltac keeps_auto := repeat keeps_step.

Lemma keeps_routeIncomingMessage (peerId : string) (data : Message) :
  keeps_wf (@routeIncomingMessage eng peerId data).
Proof.
  unfold routeIncomingMessage.
  apply keeps_bind; [apply keeps_gets|].
  intros [peer|]; [|keeps_auto].
  repeat match goal with
  | |- keeps_wf (if ?x then _ else _) => destruct x
  end.
  - unfold sendRouterCapabilitiesToPeer, getRouterRtpCapabilities. keeps_auto.
  - unfold addPeerToRoomAndNotifyOthers. keeps_auto.
  - unfold createTransportAndSendParameters, createWebRtcTransport_.
    keeps_auto.
  - unfold finalizeTransportConnection. keeps_auto.
  - unfold createProducerAndBroadcastToPeers. keeps_auto.
  - unfold createConsumerForRemoteProducer. keeps_auto.
  - unfold resumePausedConsumer. keeps_auto.
  - keeps_auto.
Qed.

Lemma keeps_onMessage (socket peerId : string) (message : string + Message) :
  keeps_wf (@onMessage eng socket peerId message).
Proof.
  assert (Hcatch : forall m,
    keeps_wf
      (bind (@console_error eng "[WebSocket] Error handling message:" m)
         (fun _ => sendMessage socket (error m)))) by (intros m; keeps_auto).
  intros st H. unfold onMessage. destruct message as [msg|data].
  - apply (Hcatch msg st H).
  - pose proof (keeps_routeIncomingMessage peerId data st H) as H1.
    destruct (routeIncomingMessage peerId data st) as [[m|[]] st1];
      simpl in *; [apply (Hcatch m st1 H1)|exact H1].
Qed.

Lemma keeps_onConnection (socket peerId : string) (st : State eng) :
  fresh (EvConnection socket peerId) st ->
  wf st -> wf (snd (onConnection socket peerId st)).
Proof.
  intros [Hk Hs] (Hp & Hr). unfold onConnection, bind, modify, sendMessage.
  simpl.
  destruct (is_open (sockets st socket)); simpl;
    (split; simpl; [apply wf_peers_connect; assumption|exact Hr]).
Qed.

End WellFormed.

(** *** Disconnection *)

Section DisconnectFacts.

Variable eng : Engine.


Lemma peerLeft_loop (peerId : string) (l : list string) (st : State eng) :
  forEach (notify_peer_left peerId) l st =
  (inr tt, with_outbox (outbox st ++ left_frames st peerId l) st).
Proof.
  revert st. induction l as [|x l IH]; intros st; simpl.
  - rewrite app_nil_r, with_outbox_same. reflexivity.
  - unfold bind at 1. unfold notify_peer_left at 1.
    unfold bind at 1. unfold gets at 1. simpl.
    destruct (JsMap.get x (peers st)) as [q|] eqn:Hq.
    + unfold bind at 1. unfold gets at 1. simpl. unfold sendMessage at 1.
      destruct (is_open (sockets st (p_socket q))) eqn:Ho; simpl.
      * rewrite Ho. rewrite IH. simpl.
        unfold left_frames at 1. simpl. fold (left_frames st peerId l).
        rewrite <- app_assoc. reflexivity.
      * unfold ret. simpl. rewrite IH. reflexivity.
    + unfold ret. simpl. rewrite IH. reflexivity.
Qed.








End DisconnectFacts.



(** *** Reachable states are well formed *)

Section Reachable.

Variable eng : Engine.

Lemma keeps_close_all_transports (peer : Peer) :
  keeps_wf (@close_all_transports eng peer).
Proof.
  unfold close_all_transports. apply keeps_forEach. intros td.
  apply keeps_quiet. intros st. split; reflexivity.
Qed.

Lemma keeps_notify_peer_left (peerId otherPeerId : string) :
  keeps_wf (@notify_peer_left eng peerId otherPeerId).
Proof.
  unfold notify_peer_left.
  apply keeps_bind; [apply keeps_gets|]. intros [q|]; [|apply keeps_ret].
  apply keeps_bind; [apply keeps_gets|]. intros rs.
  destruct (is_open rs); [apply keeps_sendMessage|apply keeps_ret].
Qed.

Lemma keeps_leave_room (peerId rid : string) (remaining : JsSet.t) :
  NoDup remaining ->
  keeps_wf
    (bind (modify (@with_rooms eng
                     (JsMap.update rid (set_r_peers remaining))))
       (fun _ =>
          bind (forEach (notify_peer_left peerId) remaining)
            (fun _ =>
               if Nat.eqb (JsSet.size remaining) 0
               then modify (with_rooms (JsMap.delete rid))
               else ret tt))).
Proof.
  intros Hnd. apply keeps_bind.
  - apply keeps_rooms_update. intros r _. exact Hnd.
  - intros _. apply keeps_bind.
    + apply keeps_forEach. intros x. apply keeps_notify_peer_left.
    + intros _.
      destruct (Nat.eqb (JsSet.size remaining) 0); [|apply keeps_ret].
      intros st (Hp & Hr). split; simpl; [exact Hp|].
      apply wf_rooms_delete. exact Hr.
Qed.

Lemma keeps_remove_from_room (peerId : string) (peer : Peer) :
  keeps_wf (@remove_from_room eng peerId peer).
Proof.
  unfold remove_from_room.
  destruct (truthy (roomId peer)) as [rid|]; [|apply keeps_ret].
  intros st H. unfold bind at 1. unfold gets at 1. cbv beta iota.
  destruct (JsMap.get rid (rooms st)) as [room|] eqn:Hroom; [|exact H].
  assert (Hnd : NoDup (JsSet.delete peerId (r_peers room))).
  { apply JsSetFacts.delete_NoDup.
    apply (wf_rooms_get rid room (rooms st)); [apply H|exact Hroom]. }
  exact (keeps_leave_room peerId rid _ Hnd st H).
Qed.

Lemma keeps_handlePeerDisconnection (peerId : string) :
  keeps_wf (@handlePeerDisconnection eng peerId).
Proof.
  unfold handlePeerDisconnection.
  apply keeps_bind; [apply keeps_gets|]. intros [peer|]; [|apply keeps_ret].
  apply keeps_bind; [apply keeps_close_all_transports|]. intros _.
  apply keeps_bind; [apply keeps_remove_from_room|]. intros _.
  intros st (Hp & Hr). split; simpl; [|exact Hr].
  apply wf_peers_delete. exact Hp.
Qed.

Lemma initial_wf (e : E eng) (socks : string -> ReadyState) :
  wf (initial eng e socks).
Proof. repeat split; constructor. Qed.

(** Every event keeps the registries well formed, provided a connection
    comes with a new socket and a new peer id. *)
Lemma step_keeps_wf (ev : Event) (st : State eng) :
  fresh ev st -> wf st -> wf (step ev st).
Proof.
  destruct ev as [s p|s p m|p|s r]; simpl; intros Hf H.
  - apply keeps_onConnection; assumption.
  - apply keeps_onMessage. exact H.
  - apply keeps_handlePeerDisconnection. exact H.
  - exact H.
Qed.

Lemma run_keeps_wf (evs : list Event) (st : State eng) :
  all_fresh evs st -> wf st -> wf (run evs st).
Proof.
  revert st. induction evs as [|ev evs IH]; simpl; intros st Hf H.
  - exact H.
  - destruct Hf as [Hf Hrest]. apply IH; [exact Hrest|].
    apply step_keeps_wf; assumption.
Qed.

(** In every state the server can reach, the registered members of a room
    have pairwise distinct sockets: the side condition of the count of
    [peerLeft] frames holds by construction. *)
Lemma reachable_member_sockets (evs : list Event) (e : E eng)
  (socks : string -> ReadyState) (R : string) (room : Room) :
  all_fresh evs (initial eng e socks) ->
  JsMap.get R (rooms (run evs (initial eng e socks))) = Some room ->
  NoDup (member_sockets (run evs (initial eng e socks)) (r_peers room)).
Proof.
  intros Hf Hroom.
  destruct (run_keeps_wf evs (initial eng e socks) Hf (initial_wf e socks))
    as [Hp Hr].
  apply wf_member_sockets; [exact Hp|].
  apply (wf_rooms_get R room _ Hr Hroom).
Qed.

End Reachable.

(** ** The client: the pending-consumer queue *)

Section ClientFacts.

Variable lib : Client.Lib.

Lemma with_sent_same (st : Client.State lib) :
  Client.with_sent (Client.sent st) st = st.
Proof. destruct st. reflexivity. Qed.

Lemma consume_producers_sent (caps : Blob) (l : list ProducerRef)
  (st : Client.State lib) :
  Client.socket st = Some OPEN ->
  fold_left (fun s' producer =>
    Client.sendMessage (Client.consume (ref_producerId producer) caps) s')
    l st =
  Client.with_sent
    (Client.sent st ++
     map (fun r => Client.consume (ref_producerId r) caps) l) st.
Proof.
  revert st. induction l as [|r l IH]; intros st Ho; simpl.
  - now rewrite app_nil_r, with_sent_same.
  - rewrite IH.
    + unfold Client.sendMessage. rewrite Ho. simpl.
      rewrite <- app_assoc. reflexivity.
    + unfold Client.sendMessage. rewrite Ho. exact Ho.
Qed.

Lemma consume_all_sent (caps : Blob) (q : list PeerInfo)
  (st : Client.State lib) :
  Client.socket st = Some OPEN ->
  Client.consume_all caps q st =
  Client.with_sent
    (Client.sent st ++
     map (fun r => Client.consume (ref_producerId r) caps) (Client.refs_of q))
    st.
Proof.
  unfold Client.consume_all, Client.refs_of.
  revert st. induction q as [|info q IH]; intros st Ho; simpl.
  - now rewrite app_nil_r, with_sent_same.
  - rewrite consume_producers_sent by exact Ho.
    rewrite IH by exact Ho. simpl.
    rewrite map_app, app_assoc. reflexivity.
Qed.

(** The handler of [roomJoined] puts the snapshot in the queue and asks for
    the send transport; no [consume] leaves yet. *)
Lemma roomJoined_fills_queue (l : list PeerInfo) (st : Client.State lib) :
  Client.socket st = Some OPEN ->
  Client.pendingConsumers
    (Client.setupLocalMediaAndTransports (Some l) st) = l
  /\ Client.sent (Client.setupLocalMediaAndTransports (Some l) st) =
     Client.sent st ++ [Client.createTransport "send"].
Proof.
  intros Ho. unfold Client.setupLocalMediaAndTransports, Client.sendMessage.
  simpl. rewrite Ho. split; reflexivity.
Qed.

Lemma with_pendingConsumers_same (st : Client.State lib) :
  Client.with_pendingConsumers (Client.pendingConsumers st) st = st.
Proof. destruct st. reflexivity. Qed.

Lemma consumes_app (a b : list Client.Request) :
  consumes (a ++ b) = consumes a ++ consumes b.
Proof. apply filter_app. Qed.

Lemma consumes_of_requests {A : Type} (f : A -> string) (caps : Blob)
  (l : list A) :
  consumes (map (fun x => Client.consume (f x) caps) l) =
  map (fun x => Client.consume (f x) caps) l.
Proof.
  unfold consumes.
  induction l as [|x l IH]; simpl; [reflexivity|]. now rewrite IH.
Qed.

(** A run of [newProducer] notifications on an open socket: each request
    is written when its notification is handled, and nothing else of the
    state changes. *)
Lemma newProducers_state (pids : list string) (st : Client.State lib)
  (d : Client.Device lib) :
  Client.socket st = Some OPEN ->
  Client.device st = Some d ->
  handle_newProducers pids st =
  Client.with_sent
    (Client.sent st ++
     map (fun pid => Client.consume pid (Client.rtpCapabilities lib d)) pids)
    st.
Proof.
  unfold handle_newProducers.
  revert st. induction pids as [|pid pids IH]; intros st Ho Hd; simpl.
  - now rewrite app_nil_r, with_sent_same.
  - assert (Hstep : snd (Client.requestToConsumeNewProducer pid st) =
      Client.with_sent
        (Client.sent st ++
         [Client.consume pid (Client.rtpCapabilities lib d)]) st).
    { unfold Client.requestToConsumeNewProducer. rewrite Hd. simpl.
      unfold Client.sendMessage. rewrite Ho. reflexivity. }
    rewrite Hstep, IH by (simpl; assumption).
    simpl. rewrite <- app_assoc. reflexivity.
Qed.

(** The send branch of [transportCreated], whether it returns or throws,
    leaves the queue to the receive branch. *)
Lemma send_branch_keeps_queue
  (produceMedia : Client.State lib -> (string + unit) * Client.State lib)
  (tid ice cand dtls : string) (st : Client.State lib) :
  quiet_produceMedia produceMedia ->
  let st' :=
    snd (Client.configureTransportAndProduce produceMedia tid ice cand dtls
           "send" st) in
  Client.socket st' = Client.socket st
  /\ Client.device st' = Client.device st
  /\ Client.recvTransport st' = Client.recvTransport st
  /\ Client.pendingConsumers st' = Client.pendingConsumers st
  /\ consumes (Client.sent st') = consumes (Client.sent st).
Proof.
  intros Hq. unfold Client.configureTransportAndProduce. simpl.
  destruct (Client.device st) as [d|] eqn:Hd; simpl;
    [|rewrite Hd; repeat split].
  destruct (Client.createSendTransport lib d tid ice cand dtls) as [msg|t];
    simpl; [rewrite Hd; repeat split|].
  destruct (Hq (Client.with_sendTransport (Some t) st))
    as (H1 & H2 & H3 & H4 & H5).
  simpl in H1, H2, H3, H4, H5.
  destruct (produceMedia (Client.with_sendTransport (Some t) st))
    as [[msg|[]] st'] eqn:Hp; simpl in *.
  - rewrite H1, H2, H3, H4, H5, Hd. repeat split.
  - unfold Client.sendMessage.
    destruct (Client.socket st') as [[]|] eqn:Hs; simpl;
      rewrite ?consumes_app, ?H2, ?H3, ?H4, ?H5, ?Hd; simpl;
      rewrite ?app_nil_r; repeat split; congruence.
Qed.

(** The receive branch on an open socket: the state it returns. *)
Lemma recv_branch_drains
  (produceMedia : Client.State lib -> (string + unit) * Client.State lib)
  (tid ice cand dtls : string) (st : Client.State lib)
  (d : Client.Device lib) (t : string) :
  Client.socket st = Some OPEN ->
  Client.device st = Some d ->
  Client.createRecvTransport lib d tid ice cand dtls = inr t ->
  Client.configureTransportAndProduce produceMedia tid ice cand dtls
    "recv" st =
  (inr tt,
   Client.with_pendingConsumers []
     (Client.with_sent
        (Client.sent st ++
         map (fun r => Client.consume (ref_producerId r)
                         (Client.rtpCapabilities lib d))
             (Client.refs_of (Client.pendingConsumers st)))
        (Client.with_recvTransport (Some t) st))).
Proof.
  intros Ho Hd Ht. unfold Client.configureTransportAndProduce. simpl.
  rewrite Hd, Ht. simpl.
  rewrite (consume_all_sent (Client.rtpCapabilities lib d)
             (Client.pendingConsumers st)
             (Client.with_recvTransport (Some t) st) Ho).
  destruct (Client.pendingConsumers st) as [|info q] eqn:Hq;
    [|reflexivity].
  simpl. rewrite app_nil_r. destruct st; simpl in *. now subst.
Qed.

(** With an empty queue no [transportCreated] writes a [consume]. *)
Lemma empty_queue_stays_empty
  (produceMedia : Client.State lib -> (string + unit) * Client.State lib)
  (tid ice cand dtls direction : string) (st : Client.State lib) :
  quiet_produceMedia produceMedia ->
  Client.pendingConsumers st = [] ->
  let st' :=
    snd (Client.configureTransportAndProduce produceMedia tid ice cand dtls
           direction st) in
  consumes (Client.sent st') = consumes (Client.sent st)
  /\ Client.pendingConsumers st' = [].
Proof.
  intros Hq He.
  destruct (direction =? "send") eqn:Hs.
  - apply String.eqb_eq in Hs. subst direction.
    destruct (send_branch_keeps_queue produceMedia tid ice cand dtls st Hq)
      as (_ & _ & _ & H4 & H5).
    simpl. split; [exact H5|]. now rewrite <- He.
  - unfold Client.configureTransportAndProduce. rewrite Hs.
    destruct (direction =? "recv"); [|simpl; split; [reflexivity|exact He]].
    destruct (Client.device st) as [d|]; simpl;
      [|split; [reflexivity|exact He]].
    destruct (Client.createRecvTransport lib d tid ice cand dtls);
      simpl; [split; [reflexivity|exact He]|].
    rewrite He. simpl. split; [reflexivity|exact He].
Qed.

(** C2 (amended).  The queue is [state.pendingConsumers] of the client of
    a peer.  The handler of [roomJoined] sets it to the producer references
    of the snapshot, in the order of the snapshot, and writes no [consume].
    Until the receive transport is created the queue stays as it is: a
    [newProducer] notification that arrives in between, before or after the
    send transport is set up, is not queued, its [consume] is written at
    once.  When the receive transport is created, one [consume] is written
    for each producer reference of the queue, in queue order, and the queue
    is emptied; no later [transportCreated] writes a [consume] again. *)
Theorem snapshot_queue_drained_once (st : Client.State lib)
  (existingProducers : option (list PeerInfo))
  (produceMedia : Client.State lib -> (string + unit) * Client.State lib)
  (early later : list string)
  (sid sice scand sdtls rid rice rcand rdtls : string)
  (d : Client.Device lib) (t : string) :
  Client.socket st = Some OPEN ->
  Client.device st = Some d ->
  quiet_produceMedia produceMedia ->
  Client.createRecvTransport lib d rid rice rcand rdtls = inr t ->
  let snapshot :=
    match existingProducers with Some l => l | None => [] end in
  let request := fun pid => Client.consume pid (Client.rtpCapabilities lib d) in
  let st1 := Client.setupLocalMediaAndTransports existingProducers st in
  let st2 := handle_newProducers early st1 in
  let st3 :=
    snd (Client.configureTransportAndProduce produceMedia sid sice scand
           sdtls "send" st2) in
  let st4 := handle_newProducers later st3 in
  let r5 :=
    Client.configureTransportAndProduce produceMedia rid rice rcand rdtls
      "recv" st4 in
  (* roomJoined *)
  Client.pendingConsumers st1 = snapshot
  /\ Client.sent st1 = Client.sent st ++ [Client.createTransport "send"]
  (* up to the receive transport *)
  /\ Client.sent st2 = Client.sent st1 ++ map request early
  /\ Client.sent st4 = Client.sent st3 ++ map request later
  /\ consumes (Client.sent st4) =
     consumes (Client.sent st) ++ map request (early ++ later)
  /\ Client.pendingConsumers st4 = snapshot
  /\ Client.recvTransport st4 = Client.recvTransport st
  (* the receive transport is created *)
  /\ fst r5 = inr tt
  /\ Client.recvTransport (snd r5) = Some t
  /\ Client.sent (snd r5) =
     Client.sent st4 ++
     map (fun r => request (ref_producerId r)) (Client.refs_of snapshot)
  /\ Client.pendingConsumers (snd r5) = []
  (* afterwards *)
  /\ (forall produceMedia' (tid' ice' cand' dtls' direction' : string),
        quiet_produceMedia produceMedia' ->
        let st6 :=
          snd (Client.configureTransportAndProduce produceMedia' tid' ice'
                 cand' dtls' direction' (snd r5)) in
        consumes (Client.sent st6) = consumes (Client.sent (snd r5))
        /\ Client.pendingConsumers st6 = []).
Proof.
  intros Ho Hd Hq Ht snapshot request st1 st2 st3 st4 r5.
  assert (E1 : st1 =
    Client.with_sent (Client.sent st ++ [Client.createTransport "send"])
      (Client.with_pendingConsumers snapshot st)).
  { subst st1 snapshot.
    unfold Client.setupLocalMediaAndTransports, Client.sendMessage.
    simpl. rewrite Ho. reflexivity. }
  assert (E2 : st2 =
    Client.with_sent (Client.sent st1 ++ map request early) st1).
  { subst st2. apply newProducers_state; rewrite E1; simpl; assumption. }
  destruct (send_branch_keeps_queue produceMedia sid sice scand sdtls st2 Hq)
    as (S1 & S2 & S3 & S4 & S5).
  fold st3 in S1, S2, S3, S4, S5.
  assert (Ho3 : Client.socket st3 = Some OPEN).
  { rewrite S1, E2, E1. exact Ho. }
  assert (Hd3 : Client.device st3 = Some d).
  { rewrite S2, E2, E1. exact Hd. }
  assert (E4 : st4 =
    Client.with_sent (Client.sent st3 ++ map request later) st3).
  { subst st4. apply newProducers_state; assumption. }
  assert (Hp4 : Client.pendingConsumers st4 = snapshot).
  { rewrite E4. simpl. rewrite S4, E2, E1. reflexivity. }
  assert (E5 : r5 =
    (inr tt,
     Client.with_pendingConsumers []
       (Client.with_sent
          (Client.sent st4 ++
           map (fun r => request (ref_producerId r))
             (Client.refs_of (Client.pendingConsumers st4)))
          (Client.with_recvTransport (Some t) st4)))).
  { subst r5. apply recv_branch_drains; [| |exact Ht];
      rewrite E4; simpl; assumption. }
  split; [rewrite E1; reflexivity|].
  split; [rewrite E1; reflexivity|].
  split; [rewrite E2; reflexivity|].
  split; [rewrite E4; reflexivity|].
  split.
  { rewrite E4. simpl. rewrite consumes_app, S5, E2. simpl.
    rewrite consumes_app, E1. simpl. rewrite consumes_app. simpl.
    rewrite app_nil_r, map_app, app_assoc.
    unfold request.
    rewrite (consumes_of_requests (fun pid => pid)
               (Client.rtpCapabilities lib d) early).
    rewrite (consumes_of_requests (fun pid => pid)
               (Client.rtpCapabilities lib d) later).
    reflexivity. }
  split; [exact Hp4|].
  split; [rewrite E4; simpl; rewrite S3, E2, E1; reflexivity|].
  assert (Hp5 : Client.pendingConsumers (snd r5) = []).
  { rewrite E5. reflexivity. }
  split; [rewrite E5; reflexivity|].
  split; [rewrite E5; reflexivity|].
  split; [rewrite E5; simpl; rewrite Hp4; reflexivity|].
  split; [exact Hp5|].
  intros produceMedia' tid' ice' cand' dtls' direction' Hq'.
  exact (empty_queue_stays_empty produceMedia' tid' ice' cand' dtls'
           direction' (snd r5) Hq' Hp5).
Qed.

End ClientFacts.

Lemma snapshot_queue_drained_once_witness :
  let snapshot := Client.pendingConsumers client_joined in
  let request := fun pid => Client.consume pid "device-caps" in
  let produceMedia := fun s : Client.State simple_lib => (inr tt, s) in
  let st := client_fresh in
  let st1 := Client.setupLocalMediaAndTransports (Some snapshot) st in
  let st2 := handle_newProducers ["v7"] st1 in
  let st3 :=
    snd (Client.configureTransportAndProduce produceMedia "T1" "ice" "cand"
           "dtls" "send" st2) in
  let st4 := handle_newProducers ["a7"] st3 in
  let r5 :=
    Client.configureTransportAndProduce produceMedia "T2" "ice" "cand" "dtls"
      "recv" st4 in
  Client.pendingConsumers st1 = snapshot
  /\ Client.sent st1 = Client.sent st ++ [Client.createTransport "send"]
  /\ Client.sent st2 = Client.sent st1 ++ map request ["v7"]
  /\ Client.sent st4 = Client.sent st3 ++ map request ["a7"]
  /\ consumes (Client.sent st4) =
     consumes (Client.sent st) ++ map request (["v7"] ++ ["a7"])
  /\ Client.pendingConsumers st4 = snapshot
  /\ Client.recvTransport st4 = Client.recvTransport st
  /\ fst r5 = inr tt
  /\ Client.recvTransport (snd r5) = Some "T2"
  /\ Client.sent (snd r5) =
     Client.sent st4 ++
     map (fun r => request (ref_producerId r)) (Client.refs_of snapshot)
  /\ Client.pendingConsumers (snd r5) = []
  /\ (forall produceMedia' (tid' ice' cand' dtls' direction' : string),
        quiet_produceMedia produceMedia' ->
        let st6 :=
          snd (Client.configureTransportAndProduce produceMedia' tid' ice'
                 cand' dtls' direction' (snd r5)) in
        consumes (Client.sent st6) = consumes (Client.sent (snd r5))
        /\ Client.pendingConsumers st6 = []).
Proof.
  intros snapshot request produceMedia st st1 st2 st3 st4 r5.
  apply (snapshot_queue_drained_once simple_lib st (Some snapshot)
           produceMedia ["v7"] ["a7"] "T1" "ice" "cand" "dtls"
           "T2" "ice" "cand" "dtls" tt "T2");
    [reflexivity|reflexivity| |reflexivity].
  intros s. repeat split.
Defined.

(** C2, as stated, fails for a producer reference that arrives by
    [newProducer] before the receive transport exists.  The client has
    handled [roomJoined] with a snapshot of three producers and has no
    receive transport yet; [newProducer] for ["v7"] arrives.  The reference
    is not put in the queue: its [consume] is written at once, before any
    receive transport exists, and when the receive transport is created the
    drain writes the three requests of the snapshot only. *)
Lemma early_newProducer_is_not_queued :
  let snapshot := Client.pendingConsumers client_joined in
  let st1 := Client.setupLocalMediaAndTransports (Some snapshot) client_fresh in
  let r2 := Client.requestToConsumeNewProducer "v7" st1 in
  let r3 :=
    Client.configureTransportAndProduce (fun s => (inr tt, s))
      "T2" "ice" "cand" "dtls" "recv" (snd r2) in
  Client.recvTransport st1 = None
  /\ fst r2 = inr tt
  /\ Client.recvTransport (snd r2) = None
  /\ Client.pendingConsumers (snd r2) = snapshot
  /\ ~ In "v7" (map ref_producerId
                  (Client.refs_of (Client.pendingConsumers (snd r2))))
  /\ Client.sent (snd r2) =
     [ Client.createTransport "send"; Client.consume "v7" "device-caps" ]
  /\ Client.recvTransport (snd r3) = Some "T2"
  /\ Client.sent (snd r3) =
     [ Client.createTransport "send"; Client.consume "v7" "device-caps";
       Client.consume "v1" "device-caps"; Client.consume "a1" "device-caps";
       Client.consume "v3" "device-caps" ].
Proof.
  intros snapshot st1 r2 r3.
  repeat split; try reflexivity.
  intros H. simpl in H.
  repeat (destruct H as [H|H]; [discriminate H|]). exact H.
Qed.

(** ** The properties on the engine with a counter *)

(** [p2] joins ["r1"], where [p1] produces video: the frame lists [p1] and
    its producer, not [p2]; [p1], which joined the new room first, had
    received two empty lists. *)
Example join_frames :
  let st' := step (EvMessage "s2" "p2" (inr (joinRoom_ "r1"))) st_scenario in
  In ("s1", roomJoined "r1" [] []) (outbox st_scenario)
  /\ outbox st' =
     outbox st_scenario ++
     [ ("s2", roomJoined "r1" ["p1"]
                [ {| pi_peerId := "p1";
                     pi_producers :=
                       [ {| ref_producerId := "P1"; ref_kind := "video" |} ]
                  |} ]);
       ("s1", newPeer "p2") ]
  /\ members st' "r1" = ["p1"; "p2"].
Proof. vm_compute. repeat split. right. right. left. reflexivity. Qed.

Lemma roomJoined_is_snapshot_without_joiner_witness :
  let st := st_scenario in
  let peer := peer_of st "p2" in
  let pl := payload (joinRoom_ "r1") in
  let rid := q_roomId pl in
  let before := members st rid in
  let res := addPeerToRoomAndNotifyOthers peer pl st in
  fst res = inr tt
  /\ In (p_id peer) (members (snd res) rid)
  /\ exists new,
       outbox (snd res) = outbox st ++ new
       /\ (sockets st (p_socket peer) = OPEN ->
           exists ps eps, In (p_socket peer, roomJoined rid ps eps) new)
       /\ forall s r ps eps,
            In (s, roomJoined r ps eps) new ->
            ps = filter (fun id => negb (id =? p_id peer)) before
            /\ ~ In (p_id peer) ps
            /\ (forall info, In info eps ->
                  pi_peerId info <> p_id peer /\ In (pi_peerId info) before)
            /\ (before = [] -> ps = [] /\ eps = []).
Proof.
  intros st peer pl rid before res.
  exact (roomJoined_is_snapshot_without_joiner counter_engine st peer pl).
Defined.

(** The states used above are reached from the initial state by events
    whose connections bring new sockets and new ids, hence well formed. *)
Example scenarios_are_reachable :
  all_fresh scenario (initial counter_engine 0 all_open)
  /\ all_fresh scenario_room (initial counter_engine 0 all_open)
  /\ wf st_scenario /\ wf st_room.
Proof.
  assert (H1 : all_fresh scenario (initial counter_engine 0 all_open)).
  { vm_compute. intuition discriminate. }
  assert (H2 : all_fresh scenario_room (initial counter_engine 0 all_open)).
  { vm_compute. intuition discriminate. }
  split; [exact H1|]. split; [exact H2|]. split.
  - apply run_keeps_wf; [exact H1|apply initial_wf].
  - apply run_keeps_wf; [exact H2|apply initial_wf].
Qed.

(** * Further properties of the server *)

(** ** Requests that fail *)

Section Failures.

Variable eng : Engine.

Lemma step_of_throw (st st1 : State eng) (socket peerId msg : string)
  (data : Message) :
  routeIncomingMessage peerId data st = (inl msg, st1) ->
  step (EvMessage socket peerId (inr data)) st = error_reply socket msg st1.
Proof.
  intros H. unfold step, onMessage, error_reply. rewrite H.
  unfold bind, console_error, modify. reflexivity.
Qed.

Lemma step_of_return (st st1 : State eng) (socket peerId : string)
  (data : Message) :
  routeIncomingMessage peerId data st = (inr tt, st1) ->
  step (EvMessage socket peerId (inr data)) st = st1.
Proof. intros H. unfold step, onMessage. rewrite H. reflexivity. Qed.

Lemma error_reply_spec (socket msg : string) (st : State eng) :
  peers (error_reply socket msg st) = peers st
  /\ rooms (error_reply socket msg st) = rooms st
  /\ engine (error_reply socket msg st) = engine st
  /\ sockets (error_reply socket msg st) = sockets st
  /\ outbox (error_reply socket msg st) =
     outbox st ++
     (if is_open (sockets st socket) then [(socket, error msg)] else []).
Proof.
  unfold error_reply, sendMessage. simpl.
  destruct (is_open (sockets st socket)); simpl;
    rewrite ?app_nil_r; repeat split.
Qed.

Lemma returns_ret : returns (@ret eng unit tt).
Proof. intros st. reflexivity. Qed.

Lemma returns_bind {A : Type} (c : M eng A) (k : A -> M eng unit) :
  (forall st, exists x, fst (c st) = inr x) ->
  (forall x, returns (k x)) -> returns (bind c k).
Proof.
  intros Hc Hk st. unfold bind. destruct (Hc st) as [x Hx].
  destruct (c st) as [[m|y] st1]; simpl in *; [discriminate|]. apply Hk.
Qed.

Lemma returns_seq (c k : M eng unit) :
  returns c -> returns k -> returns (bind c (fun _ => k)).
Proof.
  intros Hc Hk. apply returns_bind; [|intros _; exact Hk].
  intros st. exists tt. apply Hc.
Qed.

Lemma returns_gets {A : Type} (f : State eng -> A) (k : A -> M eng unit) :
  (forall x, returns (k x)) -> returns (bind (gets f) k).
Proof.
  intros Hk. apply returns_bind; [|exact Hk].
  intros st. eexists. reflexivity.
Qed.

Lemma returns_modify (f : State eng -> State eng) : returns (modify f).
Proof. intros st. reflexivity. Qed.

Lemma returns_sendMessage (socket : string) (frame : Frame) :
  returns (@sendMessage eng socket frame).
Proof.
  intros st. unfold sendMessage.
  destruct (is_open (sockets st socket)); reflexivity.
Qed.

Lemma returns_forEach {A : Type} (f : A -> M eng unit) (l : list A) :
  (forall x, returns (f x)) -> returns (forEach f l).
Proof.
  intros Hf. induction l as [|x l IH]; simpl.
  - apply returns_ret.
  - apply returns_seq; [apply Hf|exact IH].
Qed.

Ltac returns_step :=
  match goal with
  | |- returns (bind (gets _) _) => apply returns_gets; intros ?
  | |- returns (bind _ (fun _ => _)) => apply returns_seq
  | |- returns (ret tt) => apply returns_ret
  | |- returns (sendMessage _ _) => apply returns_sendMessage
  | |- returns (forEach _ _) => apply returns_forEach; intros ?
  | |- returns (modify _) => apply returns_modify
  | |- returns (mutate_peer _ _) => apply returns_modify
  | |- returns (console_warn _ _) => apply returns_modify
  | |- returns (console_error _ _) => apply returns_modify
  | |- returns (match ?x with _ => _ end) => destruct x
  | |- returns (if ?x then _ else _) => destruct x
  end.

Ltac returns_auto := repeat returns_step.

(** Once the producer is created, the rest of the [produce] handler runs
    to its end. *)
Lemma produce_tail_returns (peer : Peer) (pr : ProducerHandle)
  (kind_ : string) :
  returns
    (bind (@mutate_peer eng peer (fun p =>
             set_producers
               (JsMap.set (pr_id pr) {| producer := pr; kind := kind_ |}
                  (producers p)) p))
       (fun _ =>
          bind (sendMessage (p_socket peer) (produced (pr_id pr) kind_))
            (fun _ =>
               match truthy (roomId peer) with
               | Some rid =>
                   bind (gets (fun st => JsMap.get rid (rooms st)))
                     (fun room =>
                        match room with
                        | Some room =>
                            forEach (fun otherPeerId =>
                              if negb (otherPeerId =? p_id peer) then
                                bind (gets (fun st =>
                                        JsMap.get otherPeerId (peers st)))
                                  (fun otherPeer =>
                                     match otherPeer with
                                     | Some otherPeer =>
                                         bind (gets (fun st =>
                                                 sockets st
                                                   (p_socket otherPeer)))
                                           (fun rs =>
                                              if is_open rs
                                              then sendMessage
                                                     (p_socket otherPeer)
                                                     (newProducer (p_id peer)
                                                        (pr_id pr) kind_)
                                              else ret tt)
                                     | None => ret tt
                                     end)
                              else ret tt) (r_peers room)
                        | None => ret tt
                        end)
               | None => ret tt
               end))).
Proof. returns_auto. Qed.

(** A handler that throws has changed neither the registries nor the
    outbox nor the console: every [throw] and every awaited engine call
    comes before the first mutation and the first send. *)
Lemma throw_before_effects (st st1 : State eng) (peerId msg : string)
  (data : Message) :
  routeIncomingMessage peerId data st = (inl msg, st1) ->
  peers st1 = peers st /\ rooms st1 = rooms st
  /\ outbox st1 = outbox st /\ console st1 = console st
  /\ sockets st1 = sockets st.
Proof.
  unfold routeIncomingMessage. unfold bind at 1. unfold gets at 1. simpl.
  destruct (JsMap.get peerId (peers st)) as [peer|];
    [|unfold console_error, modify; discriminate].
  destruct (type data =? "getRouterRtpCapabilities").
  { unfold sendRouterCapabilitiesToPeer, getRouterRtpCapabilities, bind,
      gets, sendMessage. simpl.
    destruct (is_open (sockets st (p_socket peer))); discriminate. }
  destruct (type data =? "joinRoom").
  { destruct (join_result eng st peer (payload data))
      as (st2 & news & Heq & _). rewrite Heq. discriminate. }
  destruct (type data =? "createTransport").
  { unfold createTransportAndSendParameters, createWebRtcTransport_.
    unfold bind at 1. unfold await.
    destruct (createWebRtcTransport eng (engine st)) as [[m|t] e'].
    - intros [= <- <-]. repeat split.
    - unfold bind, mutate_peer, modify, sendMessage. simpl.
      match goal with
      | |- context [is_open ?r] => destruct (is_open r)
      end; discriminate. }
  destruct (type data =? "connectTransport").
  { unfold finalizeTransportConnection.
    destruct (JsMap.get (q_transportId (payload data)) (transports peer))
      as [td|]; [|intros [= <- <-]; repeat split].
    unfold bind, await.
    destruct (connect eng (transport td) (q_dtlsParameters (payload data))
                (engine st)) as [[m|u] e'].
    - intros [= <- <-]. repeat split.
    - unfold sendMessage. simpl.
      destruct (is_open (sockets st (p_socket peer))); discriminate. }
  destruct (type data =? "produce").
  { unfold createProducerAndBroadcastToPeers.
    destruct (JsMap.get (q_transportId (payload data)) (transports peer))
      as [td|]; [|intros [= <- <-]; repeat split].
    unfold bind at 1. unfold await.
    destruct (produce eng (transport td) (q_kind (payload data))
                (q_rtpParameters (payload data)) (engine st)) as [[m|pr] e'].
    - intros [= <- <-]. repeat split.
    - intros H.
      pose proof (produce_tail_returns peer pr (q_kind (payload data))
                    (with_engine e' st)) as Hr.
      rewrite H in Hr. discriminate. }
  destruct (type data =? "consume").
  { unfold createConsumerForRemoteProducer.
    unfold bind at 1. unfold gets at 1. simpl.
    destruct (find_producer (q_producerId (payload data)) (peers st))
      as [[owner h]|]; [|intros [= <- <-]; repeat split].
    unfold bind at 1. unfold gets at 1. simpl.
    destruct (canConsume eng (q_producerId (payload data))
                (q_rtpCapabilities (payload data)) (engine st)); simpl;
      [|intros [= <- <-]; repeat split].
    destruct (array_find (fun t => direction t =? "recv")
                (JsMap.values (transports peer))) as [rt|];
      [|intros [= <- <-]; repeat split].
    unfold bind at 1. unfold await.
    destruct (consume eng (transport rt) (q_producerId (payload data))
                (q_rtpCapabilities (payload data)) (engine st))
      as [[m|c] e'].
    - intros [= <- <-]. repeat split.
    - unfold bind, mutate_peer, modify, sendMessage. simpl.
      destruct (is_open (sockets st (p_socket peer))); discriminate. }
  destruct (type data =? "resumeConsumer").
  { unfold resumePausedConsumer.
    destruct (JsMap.get (q_consumerId (payload data)) (consumers peer))
      as [d|]; [|intros [= <- <-]; repeat split].
    unfold bind, await.
    destruct (resume eng (consumer d) (engine st)) as [[m|u] e'].
    - intros [= <- <-]. repeat split.
    - unfold sendMessage. simpl.
      destruct (is_open (sockets st (p_socket peer))); discriminate. }
  unfold console_warn, modify. discriminate.
Qed.

(** X1.  A request whose handler throws leaves the registries as they
    were; all it produces is one [console.error] line and, when the socket
    of the connection is open, one [error] frame with the message of the
    error on that socket. *)
Theorem failed_request_only_reports (st st1 : State eng)
  (socket peerId msg : string) (data : Message) :
  routeIncomingMessage peerId data st = (inl msg, st1) ->
  let st' := step (EvMessage socket peerId (inr data)) st in
  peers st' = peers st
  /\ rooms st' = rooms st
  /\ outbox st' =
     outbox st ++
     (if is_open (sockets st socket) then [(socket, error msg)] else [])
  /\ console st' =
     console st ++ [(Err, "[WebSocket] Error handling message:", msg)].
Proof.
  intros H st'. subst st'. rewrite (step_of_throw st st1 socket peerId msg
                                     data H).
  destruct (throw_before_effects st st1 peerId msg data H)
    as (Hp & Hr & Ho & Hc & Hs).
  destruct (error_reply_spec socket msg st1) as (Ep & Er & _ & _ & Eo).
  rewrite Ep, Er, Eo, Hp, Hr, Ho, Hs. repeat split.
  unfold error_reply, sendMessage. simpl.
  destruct (is_open (sockets st1 socket)); simpl; now rewrite Hc.
Qed.

(** X2.  [connectTransport] and [produce] look the transport up in the
    transports of the requester only: for an id that is not among them
    (unknown, or held by another peer) the request fails with
    ["Transport not found"], the engine is not called and nothing is
    stored or announced. *)
Theorem unknown_transport_is_refused (st : State eng)
  (socket peerId : string) (peer : Peer) (data : Message) :
  JsMap.get peerId (peers st) = Some peer ->
  type data = "connectTransport" \/ type data = "produce" ->
  JsMap.get (q_transportId (payload data)) (transports peer) = None ->
  let st' := step (EvMessage socket peerId (inr data)) st in
  routeIncomingMessage peerId data st = (inl "Transport not found", st)
  /\ engine st' = engine st
  /\ peers st' = peers st
  /\ outbox st' =
     outbox st ++
     (if is_open (sockets st socket)
      then [(socket, error "Transport not found")] else []).
Proof.
  intros Hp Hty Ht st'.
  assert (Hr : routeIncomingMessage peerId data st =
               (inl "Transport not found", st)).
  { destruct (route_known eng st peerId peer data Hp)
      as (_ & _ & Hc & Hpr & _ & _).
    destruct Hty as [Hty|Hty].
    - rewrite (Hc Hty). unfold finalizeTransportConnection. now rewrite Ht.
    - rewrite (Hpr Hty). unfold createProducerAndBroadcastToPeers.
      now rewrite Ht. }
  subst st'. rewrite (step_of_throw st st socket peerId _ data Hr).
  destruct (error_reply_spec socket "Transport not found" st)
    as (Ep & _ & Ee & _ & Eo).
  repeat split; assumption.
Qed.

(** X3.  [resumeConsumer] looks the consumer up in the consumers of the
    requester only: for an id that is not among them the request fails
    with ["Consumer not found"] and the engine is not called. *)
Theorem unknown_consumer_is_refused (st : State eng)
  (socket peerId : string) (peer : Peer) (data : Message) :
  JsMap.get peerId (peers st) = Some peer ->
  type data = "resumeConsumer" ->
  JsMap.get (q_consumerId (payload data)) (consumers peer) = None ->
  let st' := step (EvMessage socket peerId (inr data)) st in
  routeIncomingMessage peerId data st = (inl "Consumer not found", st)
  /\ engine st' = engine st
  /\ peers st' = peers st
  /\ outbox st' =
     outbox st ++
     (if is_open (sockets st socket)
      then [(socket, error "Consumer not found")] else []).
Proof.
  intros Hp Hty Hc st'.
  assert (Hr : routeIncomingMessage peerId data st =
               (inl "Consumer not found", st)).
  { destruct (route_known eng st peerId peer data Hp)
      as (_ & _ & _ & _ & _ & Hres).
    rewrite (Hres Hty). unfold resumePausedConsumer. now rewrite Hc. }
  subst st'. rewrite (step_of_throw st st socket peerId _ data Hr).
  destruct (error_reply_spec socket "Consumer not found" st)
    as (Ep & _ & Ee & _ & Eo).
  repeat split; assumption.
Qed.

(** X4.  A peer none of whose transports has the direction ["recv"]
    cannot consume: every [consume] request it sends fails, the engine is
    not asked to create a consumer, and the consumers of every peer stay
    as they were. *)
Theorem consume_needs_recv_transport (st : State eng)
  (socket peerId : string) (peer : Peer) (data : Message) :
  JsMap.get peerId (peers st) = Some peer ->
  type data = "consume" ->
  array_find (fun t => direction t =? "recv")
    (JsMap.values (transports peer)) = None ->
  let st' := step (EvMessage socket peerId (inr data)) st in
  (exists msg,
     routeIncomingMessage peerId data st = (inl msg, st)
     /\ In msg ["Producer not found"; "Cannot consume";
                "Recv transport not found"]
     /\ outbox st' =
        outbox st ++
        (if is_open (sockets st socket) then [(socket, error msg)] else []))
  /\ engine st' = engine st
  /\ peers st' = peers st.
Proof.
  intros Hp Hty Ht st'.
  assert (Hr : exists msg,
    routeIncomingMessage peerId data st = (inl msg, st)
    /\ In msg ["Producer not found"; "Cannot consume";
               "Recv transport not found"]).
  { destruct (route_known eng st peerId peer data Hp)
      as (_ & _ & _ & _ & Hc & _).
    rewrite (Hc Hty). unfold createConsumerForRemoteProducer, bind, gets,
      throw. simpl.
    destruct (find_producer (q_producerId (payload data)) (peers st))
      as [[owner h]|]; [|eexists; split; [reflexivity|simpl; tauto]].
    destruct (canConsume eng (q_producerId (payload data))
                (q_rtpCapabilities (payload data)) (engine st)); simpl.
    - rewrite Ht. eexists; split; [reflexivity|simpl; tauto].
    - eexists; split; [reflexivity|simpl; tauto]. }
  destruct Hr as (msg & Hr & Hin).
  subst st'. rewrite (step_of_throw st st socket peerId _ data Hr).
  destruct (error_reply_spec socket msg st) as (Ep & _ & Ee & _ & Eo).
  split; [|split; assumption].
  exists msg. repeat split; assumption.
Qed.

(** X5.  When the engine rejects the creation of the transport, the
    requester gets an [error] frame with the message of the engine and no
    transport is stored. *)
Theorem rejected_transport_is_reported (st : State eng)
  (socket peerId : string) (peer : Peer) (data : Message) (msg : string)
  (e' : E eng) :
  JsMap.get peerId (peers st) = Some peer ->
  type data = "createTransport" ->
  createWebRtcTransport eng (engine st) = (inl msg, e') ->
  let st' := step (EvMessage socket peerId (inr data)) st in
  peers st' = peers st
  /\ engine st' = e'
  /\ outbox st' =
     outbox st ++
     (if is_open (sockets st socket) then [(socket, error msg)] else []).
Proof.
  intros Hp Hty He st'.
  assert (Hr : routeIncomingMessage peerId data st =
               (inl msg, with_engine e' st)).
  { destruct (route_known eng st peerId peer data Hp)
      as (_ & Hc & _ & _ & _ & _).
    rewrite (Hc Hty).
    unfold createTransportAndSendParameters, createWebRtcTransport_, bind,
      await. now rewrite He. }
  subst st'. rewrite (step_of_throw st _ socket peerId _ data Hr).
  destruct (error_reply_spec socket msg (with_engine e' st))
    as (Ep & _ & Ee & _ & Eo).
  repeat split; assumption.
Qed.

End Failures.

Lemma failed_request_only_reports_witness :
  let st := st_scenario in
  let data := consume_ "P1" "none" in
  let st' := step (EvMessage "s2" "p2" (inr data)) st in
  peers st' = peers st
  /\ rooms st' = rooms st
  /\ outbox st' =
     outbox st ++
     (if is_open (sockets st "s2")
      then [("s2", error "Cannot consume")] else [])
  /\ console st' =
     console st ++
     [(Err, "[WebSocket] Error handling message:", "Cannot consume")].
Proof.
  intros st data st'.
  apply (failed_request_only_reports counter_engine st st "s2" "p2"
           "Cannot consume" data).
  vm_compute. reflexivity.
Defined.

(** [p2] asks to produce on ["T0"], a transport of [p1]. *)
Lemma unknown_transport_is_refused_witness :
  let st := st_scenario in
  let data := produce_ "T0" "video" in
  let st' := step (EvMessage "s2" "p2" (inr data)) st in
  routeIncomingMessage "p2" data st = (inl "Transport not found", st)
  /\ engine st' = engine st
  /\ peers st' = peers st
  /\ outbox st' =
     outbox st ++
     (if is_open (sockets st "s2")
      then [("s2", error "Transport not found")] else []).
Proof.
  intros st data st'.
  apply (unknown_transport_is_refused counter_engine st "s2" "p2"
           (peer_of st "p2") data).
  - vm_compute. reflexivity.
  - right. reflexivity.
  - vm_compute. reflexivity.
Defined.

(** [p1] asks to resume ["C3"], a consumer of [p2]. *)
Lemma unknown_consumer_is_refused_witness :
  let st := st_consumed in
  let data := resumeConsumer_ "C3" in
  let st' := step (EvMessage "s1" "p1" (inr data)) st in
  routeIncomingMessage "p1" data st = (inl "Consumer not found", st)
  /\ engine st' = engine st
  /\ peers st' = peers st
  /\ outbox st' =
     outbox st ++
     (if is_open (sockets st "s1")
      then [("s1", error "Consumer not found")] else []).
Proof.
  intros st data st'.
  apply (unknown_consumer_is_refused counter_engine st "s1" "p1"
           (peer_of st "p1") data); vm_compute; reflexivity.
Defined.

(** [p1] has a send transport only. *)
Lemma consume_needs_recv_transport_witness :
  let st := st_scenario in
  let data := consume_ "P1" "caps" in
  let st' := step (EvMessage "s1" "p1" (inr data)) st in
  (exists msg,
     routeIncomingMessage "p1" data st = (inl msg, st)
     /\ In msg ["Producer not found"; "Cannot consume";
                "Recv transport not found"]
     /\ outbox st' =
        outbox st ++
        (if is_open (sockets st "s1") then [("s1", error msg)] else []))
  /\ engine st' = engine st
  /\ peers st' = peers st.
Proof.
  intros st data st'.
  apply (consume_needs_recv_transport counter_engine st "s1" "p1"
           (peer_of st "p1") data); vm_compute; reflexivity.
Defined.

Lemma rejected_transport_is_reported_witness :
  let st := st_failing in
  let data := createTransport_ "send" in
  let st' := step (EvMessage "s1" "p1" (inr data)) st in
  peers st' = peers st
  /\ engine st' = tt
  /\ outbox st' =
     outbox st ++
     (if is_open (sockets st "s1")
      then [("s1", error "worker closed")] else []).
Proof.
  intros st data st'.
  apply (rejected_transport_is_reported failing_engine st "s1" "p1"
           (peer_of st "p1") data "worker closed" tt); vm_compute; reflexivity.
Defined.

(** ** What a request can change *)

(** The handlers change the state through a few primitive steps; a
    reflexive and transitive relation that every primitive step respects
    is respected by the handlers. *)
Section Frame.

Variable eng : Engine.
Variable R : State eng -> State eng -> Prop.
Hypothesis HR : basic_steps R.

Variable peer0 : Peer.
Hypothesis HP : peer_steps R peer0.
Hypothesis HJ : join_steps R peer0.

Lemma pres_ret {A : Type} (x : A) : preserves R (@ret eng A x).
Proof. intros st. apply (step_refl HR). Qed.

Lemma pres_throw {A : Type} (msg : string) : preserves R (@throw eng A msg).
Proof. intros st. apply (step_refl HR). Qed.

Lemma pres_gets {A : Type} (f : State eng -> A) : preserves R (gets f).
Proof. intros st. apply (step_refl HR). Qed.

Lemma pres_modify (f : State eng -> State eng) :
  (forall st, R st (f st)) -> preserves R (modify f).
Proof. intros H st. apply H. Qed.

Lemma pres_await {A : Type} (call : E eng -> (string + A) * E eng) :
  preserves R (await call).
Proof.
  intros st. unfold await. destruct (call (engine st)) as [r e'].
  apply (step_engine HR).
Qed.

Lemma pres_send (socket : string) (frame : Frame) :
  (forall m, frame <> error m) -> preserves R (sendMessage socket frame).
Proof. intros H st. apply (step_send HR). exact H. Qed.

Lemma pres_bind {A B : Type} (c : M eng A) (k : A -> M eng B) :
  preserves R c -> (forall x, preserves R (k x)) -> preserves R (bind c k).
Proof.
  intros Hc Hk st. unfold bind. specialize (Hc st).
  destruct (c st) as [[m|x] st1]; simpl in *; [exact Hc|].
  eapply (step_trans HR); [exact Hc|apply Hk].
Qed.

Lemma pres_forEach {A : Type} (f : A -> M eng unit) (l : list A) :
  (forall x, preserves R (f x)) -> preserves R (forEach f l).
Proof.
  intros Hf. induction l as [|x l IH]; simpl.
  - apply pres_ret.
  - apply pres_bind; [apply Hf|intros _; exact IH].
Qed.

Lemma pres_console_warn (l d : string) : preserves R (@console_warn eng l d).
Proof. intros st. apply (step_console HR). Qed.

Lemma pres_console_error (l d : string) :
  preserves R (@console_error eng l d).
Proof. intros st. apply (step_console HR). Qed.

Ltac pres_step :=
  match goal with
  | |- preserves R (bind _ _) => apply pres_bind; [|intros ?]
  | |- preserves R (ret _) => apply pres_ret
  | |- preserves R (throw _) => apply pres_throw
  | |- preserves R (await _) => apply pres_await
  | |- preserves R (sendMessage _ _) =>
      apply pres_send; intros ?; discriminate
  | |- preserves R (forEach _ _) => apply pres_forEach; intros ?
  | |- preserves R (gets _) => apply pres_gets
  | |- preserves R (console_warn _ _) => apply pres_console_warn
  | |- preserves R (console_error _ _) => apply pres_console_error
  | |- preserves R (match ?x with _ => _ end) => destruct x
  | |- preserves R (if ?x then _ else _) => destruct x
  end.

Ltac pres_auto := repeat pres_step.

Lemma pres_sendRouterCapabilitiesToPeer :
  preserves R (sendRouterCapabilitiesToPeer peer0).
Proof.
  unfold sendRouterCapabilitiesToPeer, getRouterRtpCapabilities. pres_auto.
Qed.

Lemma pres_addPeerToRoomAndNotifyOthers (pl : Payload) :
  preserves R (addPeerToRoomAndNotifyOthers peer0 pl).
Proof.
  unfold addPeerToRoomAndNotifyOthers. pres_auto.
  - apply pres_modify. apply (step_room_new HJ).
  - apply pres_modify. apply (step_room_add HJ).
  - apply pres_modify. apply (step_roomId HJ).
Qed.

Lemma pres_createTransportAndSendParameters (pl : Payload) :
  preserves R (createTransportAndSendParameters peer0 pl).
Proof.
  unfold createTransportAndSendParameters, createWebRtcTransport_.
  pres_auto. apply pres_modify. apply (step_transport HP).
Qed.

Lemma pres_finalizeTransportConnection (pl : Payload) :
  preserves R (finalizeTransportConnection peer0 pl).
Proof. unfold finalizeTransportConnection. pres_auto. Qed.

Lemma pres_createProducerAndBroadcastToPeers (pl : Payload) :
  preserves R (createProducerAndBroadcastToPeers peer0 pl).
Proof.
  unfold createProducerAndBroadcastToPeers. pres_auto.
  apply pres_modify. apply (step_producer HP).
Qed.

Lemma pres_createConsumerForRemoteProducer (pl : Payload) :
  preserves R (createConsumerForRemoteProducer peer0 pl).
Proof.
  unfold createConsumerForRemoteProducer. pres_auto.
  apply pres_modify. intros st. apply (step_consumer HP).
Qed.

Lemma pres_resumePausedConsumer (pl : Payload) :
  preserves R (resumePausedConsumer peer0 pl).
Proof. unfold resumePausedConsumer. pres_auto. Qed.

End Frame.

Section FrameRoute.

Variable eng : Engine.
Variable R : State eng -> State eng -> Prop.
Hypothesis HR : basic_steps R.

(** A request of any type but [joinRoom]. *)
Lemma pres_route_but_join (peerId : string) (data : Message)
  (st : State eng) :
  (forall peer, JsMap.get peerId (peers st) = Some peer ->
                peer_steps R peer) ->
  type data <> "joinRoom" ->
  R st (snd (routeIncomingMessage peerId data st)).
Proof.
  intros HP Hty. unfold routeIncomingMessage.
  unfold bind at 1. unfold gets at 1. simpl.
  destruct (JsMap.get peerId (peers st)) as [peer|];
    [|apply (step_console HR)].
  specialize (HP peer eq_refl).
  destruct (type data =? "getRouterRtpCapabilities");
    [apply pres_sendRouterCapabilitiesToPeer; exact HR|].
  destruct (String.eqb_spec (type data) "joinRoom"); [contradiction|].
  destruct (type data =? "createTransport");
    [apply pres_createTransportAndSendParameters; assumption|].
  destruct (type data =? "connectTransport");
    [apply pres_finalizeTransportConnection; exact HR|].
  destruct (type data =? "produce");
    [apply pres_createProducerAndBroadcastToPeers; assumption|].
  destruct (type data =? "consume");
    [apply pres_createConsumerForRemoteProducer; assumption|].
  destruct (type data =? "resumeConsumer");
    [apply pres_resumePausedConsumer; exact HR|].
  apply (step_console HR).
Qed.

(** A request of any type. *)
Lemma pres_route (peerId : string) (data : Message) (st : State eng) :
  (forall peer, JsMap.get peerId (peers st) = Some peer ->
                peer_steps R peer /\ join_steps R peer) ->
  R st (snd (routeIncomingMessage peerId data st)).
Proof.
  intros HP.
  destruct (String.eqb_spec (type data) "joinRoom") as [Hty|Hty].
  - unfold routeIncomingMessage.
    unfold bind at 1. unfold gets at 1. simpl.
    destruct (JsMap.get peerId (peers st)) as [peer|];
      [|apply (step_console HR)].
    destruct (HP peer eq_refl) as [_ HJ].
    rewrite Hty. simpl.
    apply pres_addPeerToRoomAndNotifyOthers; assumption.
  - apply pres_route_but_join; [|exact Hty].
    intros peer Hp. apply HP. exact Hp.
Qed.

(** The [try]/[catch] around the router. *)
Lemma pres_onMessage (socket peerId : string) (message : string + Message)
  (st : State eng) :
  (forall s m st', R st' (snd (sendMessage s (error m) st'))) ->
  (forall data, message = inr data ->
                R st (snd (routeIncomingMessage peerId data st))) ->
  R st (snd (onMessage socket peerId message st)).
Proof.
  intros Herr Hroute.
  assert (Hcatch : forall m st1, R st st1 ->
    R st (snd (bind (console_error "[WebSocket] Error handling message:" m)
                 (fun _ => sendMessage socket (error m)) st1))).
  { intros m st1 H1. unfold bind, console_error, modify. simpl.
    eapply (step_trans HR); [exact H1|].
    eapply (step_trans HR); [apply (step_console HR)|apply Herr]. }
  unfold onMessage. destruct message as [msg|data].
  - apply Hcatch. apply (step_refl HR).
  - specialize (Hroute data eq_refl).
    destruct (routeIncomingMessage peerId data st) as [[m|[]] st1];
      simpl in *; [apply Hcatch; exact Hroute|exact Hroute].
Qed.

Hypothesis HL : listener_steps R.

Lemma pres_onConnection (socket peerId : string) :
  preserves R (onConnection socket peerId).
Proof.
  unfold onConnection. apply pres_bind; [exact HR| |intros _].
  - apply pres_modify. apply (step_peer_new HL).
  - apply pres_send; [exact HR|]. intros m. discriminate.
Qed.

Lemma pres_handlePeerDisconnection (peerId : string) :
  preserves R (handlePeerDisconnection peerId).
Proof.
  unfold handlePeerDisconnection.
  apply pres_bind; [exact HR|apply pres_gets; exact HR|].
  intros [peer|]; [|apply pres_ret; exact HR].
  apply pres_bind; [exact HR| |intros _].
  { unfold close_all_transports. apply pres_forEach; [exact HR|].
    intros td. apply pres_modify. intros st. apply (step_engine HR). }
  apply pres_bind; [exact HR| |intros _].
  - unfold remove_from_room.
    destruct (truthy (roomId peer)) as [rid|]; [|apply pres_ret; exact HR].
    apply pres_bind; [exact HR|apply pres_gets; exact HR|].
    intros [room|]; [|apply pres_ret; exact HR].
    apply pres_bind; [exact HR| |intros _].
    { apply pres_modify. apply (step_room_left HL). }
    apply pres_bind; [exact HR| |intros _].
    + apply pres_forEach; [exact HR|]. intros x. unfold notify_peer_left.
      apply pres_bind; [exact HR|apply pres_gets; exact HR|].
      intros [q|]; [|apply pres_ret; exact HR].
      apply pres_bind; [exact HR|apply pres_gets; exact HR|].
      intros rs. destruct (is_open rs);
        [apply pres_send; [exact HR|intros m; discriminate]
        |apply pres_ret; exact HR].
    + destruct (Nat.eqb (JsSet.size (JsSet.delete peerId (r_peers room))) 0);
        [|apply pres_ret; exact HR].
      apply pres_modify. apply (step_room_deleted HL).
  - unfold remove_peer. apply pres_modify. apply (step_peer_deleted HL).
Qed.

(** Any event, for a relation that all the steps respect. *)
Lemma pres_step (ev : Event) (st : State eng) :
  (forall peer, peer_steps R peer /\ join_steps R peer) ->
  R st (step ev st).
Proof.
  intros HP. destruct ev as [s p|s p m|p|s r]; simpl.
  - apply pres_onConnection.
  - apply pres_onMessage; [apply (step_error HL)|].
    intros data _. apply pres_route. intros peer _. apply HP.
  - apply pres_handlePeerDisconnection.
  - apply (step_sockets HL).
Qed.

Lemma pres_run (evs : list Event) (st : State eng) :
  (forall peer, peer_steps R peer /\ join_steps R peer) ->
  R st (run evs st).
Proof.
  intros HP. revert st. induction evs as [|ev evs IH]; intros st; simpl.
  - apply (step_refl HR).
  - eapply (step_trans HR); [apply pres_step; exact HP|apply IH].
Qed.

End FrameRoute.

(** ** Error frames stay on the connection of the request *)

Section ErrorScope.

Variable eng : Engine.

Lemma no_error_added_quiet (st st' : State eng) :
  outbox st' = outbox st -> no_error_added st st'.
Proof.
  intros H. exists []. rewrite app_nil_r. split; [exact H|constructor].
Qed.

Lemma no_error_basic : basic_steps (@no_error_added eng).
Proof.
  constructor.
  - intros st. now apply no_error_added_quiet.
  - intros a b c (n1 & H1 & F1) (n2 & H2 & F2).
    exists (n1 ++ n2). rewrite H2, H1, app_assoc. split; [reflexivity|].
    apply Forall_app. split; assumption.
  - intros socket frame st Hf. unfold sendMessage.
    destruct (is_open (sockets st socket)); simpl.
    + exists [(socket, frame)]. split; [reflexivity|].
      constructor; [exact Hf|constructor].
    + now apply no_error_added_quiet.
  - intros c st. now apply no_error_added_quiet.
  - intros e st. now apply no_error_added_quiet.
Qed.

Lemma no_error_peer (peer : Peer) :
  peer_steps (@no_error_added eng) peer /\
  join_steps (@no_error_added eng) peer.
Proof.
  split; constructor; intros; now apply no_error_added_quiet.
Qed.

(** X6.  The message listener never throws, whatever text arrives and
    whoever sends it.  No handler writes an [error] frame; the only
    [error] frame a message can cause is the one of the [catch], written
    after the frames of the handler and on the socket of the connection the
    message came from: errors are never broadcast, and there is at most one
    per message. *)
Theorem listener_contains_errors (st : State eng) (socket peerId : string)
  (message : string + Message) :
  fst (onMessage socket peerId message st) = inr tt
  /\ exists new errs,
       outbox (step (EvMessage socket peerId message) st) =
       outbox st ++ new ++ errs
       /\ Forall (fun sf => forall m, snd sf <> error m) new
       /\ (errs = [] \/ exists msg, errs = [(socket, error msg)]).
Proof.
  assert (Hcatch : forall m (st1 : State eng),
    exists errs,
      outbox (error_reply socket m st1) = outbox st1 ++ errs /\
      (errs = [] \/ exists msg, errs = [(socket, error msg)])).
  { intros m st1. destruct (error_reply_spec eng socket m st1)
      as (_ & _ & _ & _ & Eo).
    eexists. split; [exact Eo|].
    destruct (is_open (sockets st1 socket)); [right; now exists m|now left]. }
  unfold step, onMessage. destruct message as [msg|data].
  - split.
    + unfold bind, console_error, modify, sendMessage. simpl.
      destruct (is_open (sockets st socket)); reflexivity.
    + destruct (Hcatch msg st) as (errs & Ho & He).
      exists [], errs. split; [exact Ho|]. split; [constructor|exact He].
  - pose proof (pres_route eng (@no_error_added eng) no_error_basic peerId
                  data st (fun peer _ => no_error_peer peer))
      as (new & Ho & Hall).
    destruct (routeIncomingMessage peerId data st) as [[m|[]] st1];
      simpl in *.
    + split.
      * unfold bind, console_error, modify, sendMessage. simpl.
        destruct (is_open (sockets st1 socket)); reflexivity.
      * destruct (Hcatch m st1) as (errs & Ho' & He).
        exists new, errs. unfold error_reply in Ho'.
        split; [|split; assumption].
        rewrite app_assoc, <- Ho. exact Ho'.
    + split; [reflexivity|].
      exists new, []. rewrite app_nil_r.
      split; [exact Ho|]. split; [exact Hall|now left].
Qed.

(** X7.  A message on a connection whose peer is not in the registry is
    not handled at all: whatever its type, the server only logs
    ["Peer not found"]; it writes no frame, not even an [error] frame, and
    changes nothing else. *)
Theorem unregistered_sender_is_ignored (st : State eng)
  (socket peerId : string) (data : Message) :
  JsMap.get peerId (peers st) = None ->
  step (EvMessage socket peerId (inr data)) st =
  with_console (console st ++ [(Err, "[Message] Peer not found:", peerId)]) st.
Proof.
  intros H. unfold step, onMessage, routeIncomingMessage, bind, gets.
  simpl. rewrite H. reflexivity.
Qed.

End ErrorScope.

Lemma unregistered_sender_is_ignored_witness :
  step (EvMessage "s9" "p9" (inr (joinRoom_ "r1"))) st_scenario =
  with_console
    (console st_scenario ++ [(Err, "[Message] Peer not found:", "p9")])
    st_scenario.
Proof.
  apply (unregistered_sender_is_ignored counter_engine st_scenario "s9" "p9"
           (joinRoom_ "r1")).
  vm_compute. reflexivity.
Defined.

(** ** What a request leaves alone *)

Section Locality.

Variable eng : Engine.

Lemma same_rooms_basic : basic_steps (@same_rooms eng).
Proof.
  constructor; unfold same_rooms; intros; try reflexivity.
  - congruence.
  - unfold sendMessage. destruct (is_open (sockets st socket)); reflexivity.
Qed.

Lemma same_rooms_peer (peer : Peer) : peer_steps (@same_rooms eng) peer.
Proof. constructor; intros; reflexivity. Qed.

(** X8.  Among the events, only [joinRoom] requests and disconnections
    change the room registry: a connection, a change of ready state and a
    message of any other type (well formed or not) leave every room and
    every member set as they are. *)
Theorem rooms_change_only_on_join_and_close (ev : Event) (st : State eng) :
  match ev with
  | EvMessage _ _ (inr data) => type data <> "joinRoom"
  | EvClose _ => False
  | _ => True
  end ->
  rooms (step ev st) = rooms st.
Proof.
  destruct ev as [s p|s p m|p|s r]; simpl; intros H.
  - unfold onConnection, bind, modify, sendMessage. simpl.
    destruct (is_open (sockets st s)); reflexivity.
  - apply (pres_onMessage eng (@same_rooms eng) same_rooms_basic s p m st).
    + intros s' m' st'. unfold same_rooms, sendMessage.
      destruct (is_open (sockets st' s')); reflexivity.
    + intros data ->.
      apply (pres_route_but_join eng (@same_rooms eng) same_rooms_basic);
        [|exact H].
      intros peer _. apply same_rooms_peer.
  - contradiction.
  - reflexivity.
Qed.

Lemma only_peer_changed_quiet (k : string) (st st' : State eng) :
  peers st' = peers st -> only_peer_changed k st st'.
Proof. intros H. unfold only_peer_changed. rewrite H. split; auto. Qed.

Lemma only_peer_changed_update (k : string) (f : Peer -> Peer)
  (st : State eng) :
  only_peer_changed k st (with_peers (JsMap.update k f) st).
Proof.
  split; simpl.
  - apply keys_update.
  - intros k' Hne. rewrite JsMapFacts.get_update.
    apply String.eqb_neq in Hne. now rewrite Hne.
Qed.

Lemma only_peer_changed_basic (k : string) :
  basic_steps (@only_peer_changed eng k).
Proof.
  constructor.
  - intros st. now apply only_peer_changed_quiet.
  - intros a b c [K1 G1] [K2 G2]. split; [congruence|].
    intros k' Hne. rewrite (G2 k' Hne). apply G1. exact Hne.
  - intros socket frame st _. apply only_peer_changed_quiet.
    unfold sendMessage. destruct (is_open (sockets st socket)); reflexivity.
  - intros c st. now apply only_peer_changed_quiet.
  - intros e st. now apply only_peer_changed_quiet.
Qed.

Lemma only_peer_changed_peer (peer : Peer) :
  peer_steps (@only_peer_changed eng (p_id peer)) peer /\
  join_steps (@only_peer_changed eng (p_id peer)) peer.
Proof.
  split; constructor; intros;
    try apply only_peer_changed_update;
    now apply only_peer_changed_quiet.
Qed.

(** X9.  A message changes no peer record but the one of its sender, and
    it neither registers nor unregisters a peer: the registry has the same
    ids in the same order, and every other peer keeps its transports,
    producers, consumers and room id. *)
Theorem request_changes_only_requester (st : State eng)
  (socket peerId : string) (peer : Peer) (message : string + Message) :
  JsMap.get peerId (peers st) = Some peer ->
  p_id peer = peerId ->
  let st' := step (EvMessage socket peerId message) st in
  JsMap.keys (peers st') = JsMap.keys (peers st)
  /\ forall k, k <> peerId ->
       JsMap.get k (peers st') = JsMap.get k (peers st).
Proof.
  intros Hp Hid st'. subst st'. simpl.
  apply (pres_onMessage eng (@only_peer_changed eng peerId)
           (only_peer_changed_basic peerId) socket peerId message st).
  - intros s m st'. apply only_peer_changed_quiet.
    unfold sendMessage. destruct (is_open (sockets st' s)); reflexivity.
  - intros data _.
    apply (pres_route eng (@only_peer_changed eng peerId)
             (only_peer_changed_basic peerId)).
    intros q Hq. rewrite Hp in Hq. injection Hq as <-.
    rewrite <- Hid. apply only_peer_changed_peer.
Qed.

End Locality.

Lemma rooms_change_only_on_join_and_close_witness :
  rooms (step (EvMessage "s1" "p1" (inr (produce_ "T0" "audio"))) st_both)
  = rooms st_both.
Proof.
  apply (rooms_change_only_on_join_and_close counter_engine
           (EvMessage "s1" "p1" (inr (produce_ "T0" "audio"))) st_both).
  simpl. discriminate.
Defined.

Lemma request_changes_only_requester_witness :
  let st := st_both in
  let st' := step (EvMessage "s1" "p1" (inr (produce_ "T0" "audio"))) st in
  JsMap.keys (peers st') = JsMap.keys (peers st)
  /\ forall k, k <> "p1" ->
       JsMap.get k (peers st') = JsMap.get k (peers st).
Proof.
  intros st st'.
  apply (request_changes_only_requester counter_engine st "s1" "p1"
           (peer_of st "p1") (inr (produce_ "T0" "audio")));
    vm_compute; reflexivity.
Defined.

(** ** The maps of a peer are keyed by the engine's ids *)

Section Keyed.

Variable eng : Engine.

Lemma Forall_JsMap_set {V : Type} (P : string * V -> Prop) (k : string)
  (v : V) (m : JsMap.t V) :
  P (k, v) -> Forall P m -> Forall P (JsMap.set k v m).
Proof.
  intros Hv. induction m as [|[k' v'] m IH]; simpl; intros H.
  - repeat constructor. exact Hv.
  - apply Forall_cons_iff in H. destruct H as [H1 H2].
    destruct (k' =? k); constructor; auto.
Qed.

Lemma Forall_JsMap_update {V : Type} (Q : V -> Prop) (k : string)
  (f : V -> V) (m : JsMap.t V) :
  (forall v, Q v -> Q (f v)) ->
  Forall (fun kv => Q (snd kv)) m ->
  Forall (fun kv => Q (snd kv)) (JsMap.update k f m).
Proof.
  intros Hf H. unfold JsMap.update. rewrite Forall_map.
  eapply Forall_impl; [|exact H].
  intros [k' v] Hq. simpl in *. destruct (k' =? k); simpl; auto.
Qed.

Lemma Forall_JsMap_delete {V : Type} (P : string * V -> Prop) (k : string)
  (m : JsMap.t V) :
  Forall P m -> Forall P (JsMap.delete k m).
Proof.
  unfold JsMap.delete. intros H. rewrite Forall_forall in *.
  intros x Hx. apply filter_In in Hx. apply H. tauto.
Qed.

Lemma keeps_keyed_quiet (st st' : State eng) :
  peers st' = peers st -> keeps_keyed st st'.
Proof. intros H K. unfold keyed in *. now rewrite H. Qed.

Lemma keeps_keyed_basic : basic_steps (@keeps_keyed eng).
Proof.
  constructor.
  - intros st K. exact K.
  - intros a b c H1 H2 K. auto.
  - intros socket frame st _. apply keeps_keyed_quiet.
    unfold sendMessage. destruct (is_open (sockets st socket)); reflexivity.
  - intros c st. now apply keeps_keyed_quiet.
  - intros e st. now apply keeps_keyed_quiet.
Qed.

Lemma keeps_keyed_peer (peer : Peer) :
  peer_steps (@keeps_keyed eng) peer /\ join_steps (@keeps_keyed eng) peer.
Proof.
  split; constructor; intros; try (now apply keeps_keyed_quiet);
    intros K; unfold keyed in *; simpl;
    apply (Forall_JsMap_update keyed_peer); try exact K;
    intros p (Kt & Kp & Kc); unfold keyed_peer; simpl;
    repeat split; try assumption;
    apply Forall_JsMap_set; try assumption; reflexivity.
Qed.

Lemma keeps_keyed_listener : listener_steps (@keeps_keyed eng).
Proof.
  constructor; intros; try (now apply keeps_keyed_quiet).
  - apply keeps_keyed_quiet. unfold sendMessage.
    destruct (is_open (sockets st socket)); reflexivity.
  - intros K. unfold keyed in *. simpl.
    apply Forall_JsMap_set; [|exact K].
    repeat split; constructor.
  - intros K. unfold keyed in *. simpl.
    apply Forall_JsMap_delete. exact K.
Qed.

(** X10.  In every state the server reaches, whatever the events and
    whatever the engine answers, each transport, producer and consumer of
    each peer is stored under the id of its own engine handle: the key
    under which [connectTransport], [produce] and [resumeConsumer] look a
    handle up is the id the engine gave it. *)
Theorem maps_are_keyed_by_handle_ids (evs : list Event) (e : E eng)
  (socks : string -> ReadyState) :
  keyed (run evs (initial eng e socks)).
Proof.
  apply (pres_run eng (@keeps_keyed eng) keeps_keyed_basic keeps_keyed_listener
           evs (initial eng e socks) keeps_keyed_peer).
  constructor.
Qed.

End Keyed.

(** ** Producing *)

Section ProduceFacts.

Variable eng : Engine.

Lemma newProducer_loop (owner pid knd : string) (l : list string)
  (st : State eng) :
  forEach (fun otherPeerId =>
    if negb (otherPeerId =? owner) then
      bind (gets (fun st : State eng => JsMap.get otherPeerId (peers st)))
        (fun otherPeer =>
           match otherPeer with
           | Some otherPeer =>
               bind (gets (fun st : State eng =>
                             sockets st (p_socket otherPeer)))
                 (fun rs =>
                    if is_open rs
                    then sendMessage (p_socket otherPeer)
                           (newProducer owner pid knd)
                    else ret tt)
           | None => ret tt
           end)
    else ret tt) l st
  = (inr tt,
     with_outbox (outbox st ++ newProducer_frames st owner pid knd l) st).
Proof.
  revert st. induction l as [|x l IH]; intros st; simpl.
  - rewrite app_nil_r, with_outbox_same. reflexivity.
  - unfold bind at 1.
    destruct (negb (x =? owner)) eqn:Hx; simpl.
    + unfold bind at 1. unfold gets at 1. simpl.
      destruct (JsMap.get x (peers st)) as [q|] eqn:Hq.
      * unfold bind at 1. unfold gets at 1. simpl. unfold sendMessage at 1.
        destruct (is_open (sockets st (p_socket q))) eqn:Ho; simpl.
        -- rewrite Ho. rewrite IH. simpl.
           unfold newProducer_frames at 1. simpl.
           fold (newProducer_frames st owner pid knd l).
           rewrite <- app_assoc. reflexivity.
        -- unfold ret. simpl. rewrite IH. reflexivity.
      * unfold ret. simpl. rewrite IH. reflexivity.
    + unfold ret. simpl. rewrite IH. reflexivity.
Qed.

(** The frames depend on the sockets and on the records of the peers
    other than the owner only. *)
Lemma newProducer_frames_ext (st1 st2 : State eng) (owner pid knd : string)
  (l : list string) :
  sockets st1 = sockets st2 ->
  (forall m, m <> owner ->
             JsMap.get m (peers st1) = JsMap.get m (peers st2)) ->
  newProducer_frames st1 owner pid knd l
  = newProducer_frames st2 owner pid knd l.
Proof.
  intros Hs Hg. unfold newProducer_frames. apply flat_map_ext. intros m.
  destruct (String.eqb_spec m owner) as [->|Hne]; simpl; [reflexivity|].
  rewrite (Hg m Hne), Hs. reflexivity.
Qed.

Lemma newProducer_frames_In (st : State eng) (owner pid knd : string)
  (l : list string) (sf : string * Frame) :
  In sf (newProducer_frames st owner pid knd l) <->
  exists m q,
    In m l /\ m <> owner /\ JsMap.get m (peers st) = Some q
    /\ sockets st (p_socket q) = OPEN
    /\ sf = (p_socket q, newProducer owner pid knd).
Proof.
  unfold newProducer_frames. rewrite in_flat_map. split.
  - intros (m & Hm & Hin).
    destruct (String.eqb_spec m owner) as [->|Hne]; simpl in Hin;
      [destruct Hin|].
    destruct (JsMap.get m (peers st)) as [q|] eqn:Hq; [|destruct Hin].
    destruct (sockets st (p_socket q)) eqn:Ho; simpl in Hin;
      try destruct Hin as [<-|[]]; try destruct Hin.
    exists m, q. repeat split; assumption.
  - intros (m & q & Hm & Hne & Hq & Ho & ->).
    exists m. split; [exact Hm|].
    apply String.eqb_neq in Hne. rewrite Hne. simpl. rewrite Hq, Ho.
    simpl. now left.
Qed.

(** X11.  A [produce] request on a transport of the requester, accepted by
    the engine: the producer is stored under the id the engine gave it;
    the requester gets [produced]; and [newProducer] goes, in the order of
    the member set, to exactly the members of the requester's room other
    than the requester that are registered with an open socket.  A
    requester whose room id is [null] or empty announces to nobody. *)
Theorem produce_announces_to_room (st : State eng) (peer : Peer)
  (pl : Payload) (td : TransportData) (pr : ProducerHandle) (e' : E eng) :
  JsMap.get (q_transportId pl) (transports peer) = Some td ->
  produce eng (transport td) (q_kind pl) (q_rtpParameters pl) (engine st)
  = (inr pr, e') ->
  let res := createProducerAndBroadcastToPeers peer pl st in
  let audience :=
    match truthy (roomId peer) with
    | Some rid => members st rid
    | None => []
    end in
  let announced :=
    newProducer_frames st (p_id peer) (pr_id pr) (q_kind pl) audience in
  fst res = inr tt
  /\ peers (snd res) =
     JsMap.update (p_id peer) (fun p =>
       set_producers
         (JsMap.set (pr_id pr) {| producer := pr; kind := q_kind pl |}
            (producers p)) p) (peers st)
  /\ rooms (snd res) = rooms st
  /\ outbox (snd res) =
     outbox st ++
     (if is_open (sockets st (p_socket peer))
      then [(p_socket peer, produced (pr_id pr) (q_kind pl))] else [])
     ++ announced
  /\ (forall sf, In sf announced <->
        exists m q,
          In m audience /\ m <> p_id peer
          /\ JsMap.get m (peers st) = Some q
          /\ sockets st (p_socket q) = OPEN
          /\ sf = (p_socket q, newProducer (p_id peer) (pr_id pr)
                                 (q_kind pl))).
Proof.
  intros Ht He res audience announced.
  assert (Hres : res =
    (inr tt,
     with_outbox
       (outbox st ++
        (if is_open (sockets st (p_socket peer))
         then [(p_socket peer, produced (pr_id pr) (q_kind pl))] else [])
        ++ announced)
       (with_peers
          (JsMap.update (p_id peer) (fun p =>
             set_producers
               (JsMap.set (pr_id pr) {| producer := pr; kind := q_kind pl |}
                  (producers p)) p))
          (with_engine e' st)))).
  { subst res. unfold createProducerAndBroadcastToPeers. rewrite Ht.
    unfold bind at 1. unfold await. rewrite He.
    unfold bind at 1. unfold mutate_peer, modify at 1. simpl.
    unfold bind at 1. unfold sendMessage at 1. simpl.
    subst announced audience. unfold members.
    assert (Hext : forall (s : State eng) l,
      sockets s = sockets st ->
      peers s =
        JsMap.update (p_id peer) (fun p =>
          set_producers
            (JsMap.set (pr_id pr) {| producer := pr; kind := q_kind pl |}
               (producers p)) p) (peers st) ->
      newProducer_frames s (p_id peer) (pr_id pr) (q_kind pl) l =
      newProducer_frames st (p_id peer) (pr_id pr) (q_kind pl) l).
    { intros s l Hs Hp. apply newProducer_frames_ext; [exact Hs|].
      intros m Hne. rewrite Hp, JsMapFacts.get_update.
      apply String.eqb_neq in Hne. now rewrite Hne. }
    destruct (truthy (roomId peer)) as [rid|].
    - destruct (is_open (sockets st (p_socket peer))); cbv beta iota;
        unfold bind at 1; unfold gets at 1; cbv beta iota;
        (match goal with
         | |- context [JsMap.get rid (rooms ?s)] =>
             change (JsMap.get rid (rooms s)) with (JsMap.get rid (rooms st))
         end;
         destruct (JsMap.get rid (rooms st)) as [room|];
         [ rewrite newProducer_loop;
           rewrite Hext by reflexivity; simpl;
           rewrite <- ?app_assoc; reflexivity
         | unfold ret; simpl; rewrite ?app_nil_r; reflexivity ]).
    - destruct (is_open (sockets st (p_socket peer))); simpl;
        unfold ret; simpl; rewrite ?app_nil_r; reflexivity. }
  rewrite Hres. simpl.
  repeat (split; [reflexivity|]).
  intros sf. apply newProducer_frames_In.
Qed.

End ProduceFacts.

(** [p1] produces audio while [p2] is in its room: [p2] is told. *)
Lemma produce_announces_to_room_witness :
  let st := st_both in
  let peer := peer_of st "p1" in
  let pl := payload (produce_ "T0" "audio") in
  let pr := {| pr_id := "P3" |} in
  let res := createProducerAndBroadcastToPeers peer pl st in
  let audience :=
    match truthy (roomId peer) with
    | Some rid => members st rid
    | None => []
    end in
  let announced :=
    newProducer_frames st (p_id peer) (pr_id pr) (q_kind pl) audience in
  (audience = ["p1"; "p2"] /\ announced = [("s2", newProducer "p1" "P3" "audio")])
  /\ fst res = inr tt
  /\ peers (snd res) =
     JsMap.update (p_id peer) (fun p =>
       set_producers
         (JsMap.set (pr_id pr) {| producer := pr; kind := q_kind pl |}
            (producers p)) p) (peers st)
  /\ rooms (snd res) = rooms st
  /\ outbox (snd res) =
     outbox st ++
     (if is_open (sockets st (p_socket peer))
      then [(p_socket peer, produced (pr_id pr) (q_kind pl))] else [])
     ++ announced
  /\ (forall sf, In sf announced <->
        exists m q,
          In m audience /\ m <> p_id peer
          /\ JsMap.get m (peers st) = Some q
          /\ sockets st (p_socket q) = OPEN
          /\ sf = (p_socket q, newProducer (p_id peer) (pr_id pr)
                                 (q_kind pl))).
Proof.
  intros st peer pl pr res audience announced.
  split; [split; vm_compute; reflexivity|].
  eapply (produce_announces_to_room counter_engine st peer pl _ pr 4);
    vm_compute; reflexivity.
Defined.

(** ** Connecting and disconnecting *)

Section Lifecycle.

Variable eng : Engine.

Lemma close_all_transports_exact (peer : Peer) (st : State eng) :
  close_all_transports peer st =
  (inr tt,
   with_engine (close_each (JsMap.values (transports peer)) (engine st)) st).
Proof.
  unfold close_all_transports.
  generalize (JsMap.values (transports peer)). intros l. revert st.
  induction l as [|td l IH]; intros st; simpl.
  - destruct st. reflexivity.
  - unfold bind at 1. unfold modify at 1. simpl. rewrite IH. reflexivity.
Qed.

Lemma remove_from_room_shape (peerId : string) (peer : Peer)
  (st : State eng) :
  exists st2,
    remove_from_room peerId peer st = (inr tt, st2)
    /\ peers st2 = peers st /\ engine st2 = engine st
    /\ sockets st2 = sockets st
    /\ (truthy (roomId peer) = None -> st2 = st).
Proof.
  unfold remove_from_room.
  destruct (truthy (roomId peer)) as [rid|];
    [|exists st; repeat split].
  unfold bind at 1. unfold gets at 1. simpl.
  destruct (JsMap.get rid (rooms st)) as [room|];
    [|exists st; repeat split; discriminate].
  unfold bind at 1. unfold modify at 1. simpl.
  unfold bind at 1. rewrite peerLeft_loop. simpl.
  destruct (Nat.eqb (JsSet.size (JsSet.delete peerId (r_peers room))) 0);
    eexists; (split; [reflexivity|]); repeat split; discriminate.
Qed.

Lemma disconnect_shape (peerId : string) (peer : Peer) (st : State eng) :
  JsMap.get peerId (peers st) = Some peer ->
  exists mid,
    handlePeerDisconnection peerId st =
    (inr tt, with_peers (JsMap.delete peerId) mid)
    /\ peers mid = peers st
    /\ sockets mid = sockets st
    /\ engine mid = close_each (JsMap.values (transports peer)) (engine st)
    /\ (truthy (roomId peer) = None ->
        mid = with_engine
                (close_each (JsMap.values (transports peer)) (engine st)) st).
Proof.
  intros Hp. unfold handlePeerDisconnection.
  unfold bind at 1. unfold gets at 1. simpl. rewrite Hp.
  unfold bind at 1. rewrite close_all_transports_exact.
  destruct (remove_from_room_shape peerId peer
              (with_engine
                 (close_each (JsMap.values (transports peer)) (engine st))
                 st)) as (st2 & Hr & Hps & He & Hs & Hnone).
  unfold bind at 1. rewrite Hr. unfold remove_peer, modify.
  exists st2. repeat split; assumption.
Qed.

(** X12.  When a peer disconnects, the engine is told to close each of
    its transports, in the order of its transport map, and is told nothing
    else; the peer is taken out of the registry, and the record of every
    other peer is left as it was. *)
Theorem disconnect_closes_every_transport (st : State eng)
  (peerId : string) (peer : Peer) :
  JsMap.get peerId (peers st) = Some peer ->
  let st' := step (EvClose peerId) st in
  engine st' = close_each (JsMap.values (transports peer)) (engine st)
  /\ peers st' = JsMap.delete peerId (peers st)
  /\ JsMap.get peerId (peers st') = None
  /\ forall k, k <> peerId ->
       JsMap.get k (peers st') = JsMap.get k (peers st).
Proof.
  intros Hp st'. subst st'. simpl. unfold onClose.
  destruct (disconnect_shape peerId peer st Hp)
    as (mid & Heq & Hps & _ & He & _).
  rewrite Heq. simpl. rewrite Hps.
  split; [exact He|]. split; [reflexivity|]. split.
  - apply JsMapFacts.get_delete_same.
  - intros k Hne. apply JsMapFacts.get_delete_other. congruence.
Qed.

Lemma close_of_unknown_peer (st : State eng) (peerId : string) :
  JsMap.get peerId (peers st) = None -> st = step (EvClose peerId) st.
Proof.
  intros H. simpl. unfold onClose, handlePeerDisconnection, bind, gets.
  simpl. rewrite H. reflexivity.
Qed.

(** X13.  A disconnection of a peer that is not in the registry does
    nothing at all, and disconnecting twice is the same as disconnecting
    once: the second [close] finds no peer and stops. *)
Theorem disconnect_is_idempotent (st : State eng) (peerId : string) :
  (JsMap.get peerId (peers st) = None -> step (EvClose peerId) st = st)
  /\ step (EvClose peerId) (step (EvClose peerId) st)
     = step (EvClose peerId) st.
Proof.
  assert (Hnone : forall s : State eng,
    JsMap.get peerId (peers s) = None -> step (EvClose peerId) s = s).
  { intros s H. simpl. unfold onClose, handlePeerDisconnection, bind, gets.
    simpl. rewrite H. reflexivity. }
  split; [apply Hnone|].
  apply Hnone.
  destruct (JsMap.get peerId (peers st)) as [peer|] eqn:Hp.
  - simpl. unfold onClose.
    destruct (disconnect_shape peerId peer st Hp) as (mid & Heq & _).
    rewrite Heq. simpl. apply JsMapFacts.get_delete_same.
  - rewrite (Hnone st Hp). exact Hp.
Qed.

Lemma delete_absent {V : Type} (k : string) (m : JsMap.t V) :
  ~ In k (JsMap.keys m) -> JsMap.delete k m = m.
Proof.
  unfold JsMap.delete, JsMap.keys.
  induction m as [|[k' v] m IH]; simpl; intros Hn; [reflexivity|].
  destruct (String.eqb_spec k' k) as [->|Hne]; [tauto|].
  simpl. rewrite IH; tauto.
Qed.

(** X14.  A peer that connects under an id not in use and disconnects
    before sending anything leaves no trace in the server: registries and
    engine are as before the connection. *)
Theorem connect_then_close_restores (st : State eng)
  (socket peerId : string) :
  ~ In peerId (JsMap.keys (peers st)) ->
  let st' := run [EvConnection socket peerId; EvClose peerId] st in
  peers st' = peers st /\ rooms st' = rooms st /\ engine st' = engine st.
Proof.
  intros Hfresh st'. subst st'.
  change (run [EvConnection socket peerId; EvClose peerId] st)
    with (snd (handlePeerDisconnection peerId
                 (step (EvConnection socket peerId) st))).
  set (st1 := step (EvConnection socket peerId) st).
  set (fresh_peer :=
    {| p_id := peerId; p_socket := socket; transports := JsMap.empty;
       producers := JsMap.empty; consumers := JsMap.empty;
       roomId := None |}).
  assert (H1 : peers st1 = peers st ++ [(peerId, fresh_peer)]
               /\ rooms st1 = rooms st /\ engine st1 = engine st).
  { subst st1. simpl. unfold onConnection, bind, modify, sendMessage. simpl.
    rewrite <- (JsMapFacts.set_absent peerId fresh_peer (peers st)
                  (get_None_keys peerId (peers st) Hfresh)).
    destruct (is_open (sockets st socket)); repeat split. }
  destruct H1 as (Hps & Hrs & Hes).
  assert (Hp : JsMap.get peerId (peers st1) = Some fresh_peer).
  { subst st1. simpl. unfold onConnection, bind, modify, sendMessage. simpl.
    destruct (is_open (sockets st socket)); simpl;
      apply JsMapFacts.get_set_same. }
  destruct (disconnect_shape peerId fresh_peer st1 Hp)
    as (mid & Heq & _ & _ & _ & Hmid).
  rewrite Heq, (Hmid eq_refl). simpl.
  rewrite Hps, Hrs, Hes. repeat split.
  unfold JsMap.delete. rewrite filter_app. simpl.
  rewrite String.eqb_refl. simpl. rewrite app_nil_r.
  apply (delete_absent peerId (peers st) Hfresh).
Qed.

End Lifecycle.

Lemma disconnect_closes_every_transport_witness :
  let st := st_scenario in
  let peer := peer_of st "p1" in
  let st' := step (EvClose "p1") st in
  engine st' = close_each (JsMap.values (transports peer)) (engine st)
  /\ peers st' = JsMap.delete "p1" (peers st)
  /\ JsMap.get "p1" (peers st') = None
  /\ forall k, k <> "p1" ->
       JsMap.get k (peers st') = JsMap.get k (peers st).
Proof.
  intros st peer st'.
  apply (disconnect_closes_every_transport counter_engine st "p1" peer).
  vm_compute. reflexivity.
Defined.

Lemma disconnect_is_idempotent_witness :
  (JsMap.get "p9" (peers st_scenario) = None ->
   step (EvClose "p9") st_scenario = st_scenario)
  /\ step (EvClose "p9") (step (EvClose "p9") st_scenario)
     = step (EvClose "p9") st_scenario.
Proof.
  exact (disconnect_is_idempotent counter_engine st_scenario "p9").
Defined.

Lemma connect_then_close_restores_witness :
  let st := st_scenario in
  let st' := run [EvConnection "s3" "p3"; EvClose "p3"] st in
  peers st' = peers st /\ rooms st' = rooms st /\ engine st' = engine st.
Proof.
  intros st st'.
  apply (connect_then_close_restores counter_engine st "s3" "p3").
  vm_compute. intuition discriminate.
Defined.

(** ** Rooms *)

Section RoomFacts.

Variable eng : Engine.

(** The registries after [joinRoom]. *)
Lemma join_registries (st : State eng) (peer : Peer) (pl : Payload) :
  let rid := q_roomId pl in
  let res := addPeerToRoomAndNotifyOthers peer pl st in
  peers (snd res) =
    JsMap.update (p_id peer) (set_roomId (Some rid)) (peers st)
  /\ rooms (snd res) =
     JsMap.update rid
       (fun r => set_r_peers (JsSet.add (p_id peer) (r_peers r)) r)
       (if JsMap.has rid (rooms st) then rooms st
        else JsMap.set rid {| r_id := rid; r_peers := JsSet.empty |}
               (rooms st))
  /\ engine (snd res) = engine st.
Proof.
  intros rid res.
  assert (Hmain : exists st2,
    res = (inr tt, st2)
    /\ peers st2 =
       JsMap.update (p_id peer) (set_roomId (Some rid)) (peers st)
    /\ rooms st2 =
       JsMap.update rid
         (fun r => set_r_peers (JsSet.add (p_id peer) (r_peers r)) r)
         (if JsMap.has rid (rooms st) then rooms st
          else JsMap.set rid {| r_id := rid; r_peers := JsSet.empty |}
                 (rooms st))
    /\ engine st2 = engine st);
    [|destruct Hmain as (st2 & -> & H1 & H2 & H3); simpl;
      repeat split; assumption].
  subst res.
  unfold addPeerToRoomAndNotifyOthers. fold rid.
  unfold bind at 1. unfold gets at 1. cbv beta iota.
  assert (Htail : forall (s : State eng) (room : Room),
    JsMap.get rid (rooms s) = Some room ->
    exists o,
      bind (gets (fun st0 : State eng => JsMap.get rid (rooms st0)))
        (fun room0 =>
           match room0 with
           | None => throw "TypeError"
           | Some room1 =>
               bind (modify (with_rooms (JsMap.update rid
                       (fun r => set_r_peers
                                   (JsSet.add (p_id peer) (r_peers r)) r))))
                 (fun _ =>
                    bind (mutate_peer peer (set_roomId (Some rid)))
                      (fun _ =>
                         bind (gets (fun st0 : State eng =>
                                 flat_map (collect_info (peers st0))
                                   (filter (fun id => negb (id =? p_id peer))
                                      (r_peers room1))))
                           (fun existingPeersInfo =>
                              bind (sendMessage (p_socket peer)
                                      (roomJoined rid
                                         (filter
                                            (fun id => negb (id =? p_id peer))
                                            (r_peers room1))
                                         existingPeersInfo))
                                (fun _ =>
                                   forEach (fun existingPeerId =>
                                     bind (gets (fun st0 : State eng =>
                                             JsMap.get existingPeerId
                                               (peers st0)))
                                       (fun existingPeer =>
                                          match existingPeer with
                                          | Some existingPeer0 =>
                                              bind (gets (fun st0 : State eng =>
                                                      sockets st0
                                                        (p_socket existingPeer0)))
                                                (fun rs =>
                                                   if is_open rs
                                                   then sendMessage
                                                          (p_socket existingPeer0)
                                                          (newPeer (p_id peer))
                                                   else ret tt)
                                          | None => ret tt
                                          end))
                                     (filter (fun id => negb (id =? p_id peer))
                                        (r_peers room1))))))
           end) s
      = (inr tt,
         with_outbox o
           (with_peers (JsMap.update (p_id peer) (set_roomId (Some rid)))
              (with_rooms
                 (JsMap.update rid
                    (fun r => set_r_peers
                                (JsSet.add (p_id peer) (r_peers r)) r))
                 s)))).
  { intros s room Hroom.
    unfold bind at 1. unfold gets at 1. cbv beta iota. rewrite Hroom.
    unfold bind at 1. unfold modify at 1. cbv beta iota.
    unfold bind at 1. unfold mutate_peer, modify at 1. cbv beta iota.
    unfold bind at 1. unfold gets at 1. cbv beta iota.
    unfold bind at 1. unfold sendMessage at 1.
    match goal with
    | |- context [is_open ?x] => destruct (is_open x)
    end; cbv beta iota;
      match goal with
      | |- context [forEach ?f ?l ?s0] =>
          destruct (newPeer_loop eng (p_id peer) l s0) as (news & Heq & _);
          rewrite Heq
      end; eexists; reflexivity. }
  unfold JsMap.has.
  destruct (JsMap.get rid (rooms st)) as [room|] eqn:Hroom.
  - unfold bind at 1. unfold ret at 1. cbv beta iota.
    destruct (Htail st room Hroom) as (o & Heq). rewrite Heq.
    eexists. split; [reflexivity|]. repeat split.
  - unfold bind at 1. unfold modify at 1. cbv beta iota.
    destruct (Htail
                (with_rooms
                   (JsMap.set rid {| r_id := rid; r_peers := JsSet.empty |})
                   st)
                {| r_id := rid; r_peers := JsSet.empty |}) as (o & Heq).
    { simpl. apply JsMapFacts.get_set_same. }
    rewrite Heq. eexists. split; [reflexivity|]. repeat split.
Qed.

Lemma join_other_rooms (st : State eng) (peer : Peer) (pl : Payload)
  (r : string) :
  r <> q_roomId pl ->
  JsMap.get r (rooms (snd (addPeerToRoomAndNotifyOthers peer pl st))) =
  JsMap.get r (rooms st).
Proof.
  intros Hne. destruct (join_registries st peer pl) as (_ & Hrs & _).
  rewrite Hrs, JsMapFacts.get_update.
  apply String.eqb_neq in Hne. rewrite Hne.
  destruct (JsMap.has (q_roomId pl) (rooms st)); [reflexivity|].
  apply JsMapFacts.get_set_other. apply String.eqb_neq in Hne. congruence.
Qed.

Lemma join_joined_room (st : State eng) (peer : Peer) (pl : Payload) :
  members (snd (addPeerToRoomAndNotifyOthers peer pl st)) (q_roomId pl) =
  JsSet.add (p_id peer) (members st (q_roomId pl)).
Proof.
  destruct (join_registries st peer pl) as (_ & Hrs & _).
  unfold members. rewrite Hrs, JsMapFacts.get_update, String.eqb_refl.
  unfold JsMap.has.
  destruct (JsMap.get (q_roomId pl) (rooms st)) as [room|] eqn:Hroom.
  - rewrite Hroom. reflexivity.
  - rewrite JsMapFacts.get_set_same. reflexivity.
Qed.

Lemma join_members_grow (st : State eng) (peer : Peer) (pl : Payload)
  (r x : string) :
  In x (members st r) ->
  In x (members (snd (addPeerToRoomAndNotifyOthers peer pl st)) r).
Proof.
  intros Hin. destruct (String.eqb_spec r (q_roomId pl)) as [->|Hne].
  - rewrite join_joined_room. unfold JsSet.add.
    destruct (JsSet.has (p_id peer) (members st (q_roomId pl)));
      [exact Hin|]. apply in_or_app. now left.
  - unfold members in *. rewrite (join_other_rooms st peer pl r Hne).
    exact Hin.
Qed.

(** X15.  [joinRoom] never takes anybody out of a room: every other room
    of the registry is left as it is, and no member set loses a member.  A
    peer that joins a second room therefore stays listed in the first,
    while its room id names the second. *)
Theorem join_never_leaves_a_room (st : State eng) (peer : Peer)
  (pl : Payload) :
  let st' := snd (addPeerToRoomAndNotifyOthers peer pl st) in
  (forall r, r <> q_roomId pl ->
             JsMap.get r (rooms st') = JsMap.get r (rooms st))
  /\ (forall r x, In x (members st r) -> In x (members st' r))
  /\ roomId (peer_of st' (p_id peer)) =
     (if JsMap.has (p_id peer) (peers st) then Some (q_roomId pl) else None).
Proof.
  intros st'. subst st'.
  split; [intros r; apply join_other_rooms|].
  split; [intros r x; apply join_members_grow|].
  destruct (join_registries st peer pl) as (Hps & _ & _).
  unfold peer_of, JsMap.has. rewrite Hps, JsMapFacts.get_update.
  rewrite String.eqb_refl.
  destruct (JsMap.get (p_id peer) (peers st)); reflexivity.
Qed.

End RoomFacts.

(** [p1], a member of ["r1"], joins ["r2"]: it is then listed in both. *)
Example join_second_room :
  let st' := step (EvMessage "s1" "p1" (inr (joinRoom_ "r2"))) st_both in
  members st' "r1" = ["p1"; "p2"]
  /\ members st' "r2" = ["p1"]
  /\ roomId (peer_of st' "p1") = Some "r2".
Proof. vm_compute. repeat split. Qed.

Lemma join_never_leaves_a_room_witness :
  let st := st_both in
  let peer := peer_of st "p1" in
  let pl := payload (joinRoom_ "r2") in
  let st' := snd (addPeerToRoomAndNotifyOthers peer pl st) in
  (forall r, r <> q_roomId pl ->
             JsMap.get r (rooms st') = JsMap.get r (rooms st))
  /\ (forall r x, In x (members st r) -> In x (members st' r))
  /\ roomId (peer_of st' (p_id peer)) =
     (if JsMap.has (p_id peer) (peers st) then Some (q_roomId pl) else None).
Proof.
  intros st peer pl st'.
  exact (join_never_leaves_a_room counter_engine st peer pl).
Defined.

(** ** Rooms and room ids in the reachable states *)

Section RoomInvariant.

Variable eng : Engine.

Lemma members_same_rooms (st st' : State eng) (r : string) :
  rooms st' = rooms st -> members st' r = members st r.
Proof. intros H. unfold members. now rewrite H. Qed.

Lemma roomId_is_member_view (st : State eng) :
  roomId_is_member st <->
  Forall (fun v => forall r, snd v = Some r -> In (fst v) (members st r))
    (room_view (peers st)).
Proof. unfold roomId_is_member, room_view. rewrite Forall_map. tauto. Qed.

Lemma room_ok_same_membership (st st' : State eng) :
  same_membership st st' -> room_ok st -> room_ok st'.
Proof.
  intros [Hr Hv] [Hi Hm]. split.
  - unfold rooms_inhabited in *. now rewrite Hr.
  - apply roomId_is_member_view. rewrite Hv.
    apply roomId_is_member_view in Hm.
    eapply Forall_impl; [|exact Hm].
    intros v H r Hs. rewrite (members_same_rooms st st' r Hr). now apply H.
Qed.

Lemma room_view_update (k : string) (f : Peer -> Peer) (ps : JsMap.t Peer) :
  (forall p, p_id (f p) = p_id p /\ roomId (f p) = roomId p) ->
  room_view (JsMap.update k f ps) = room_view ps.
Proof.
  intros Hf. unfold room_view, JsMap.update. rewrite map_map.
  apply map_ext. intros [k' p]. simpl.
  destruct (k' =? k); simpl; [|reflexivity].
  destruct (Hf p) as [-> ->]. reflexivity.
Qed.

Lemma same_membership_quiet (st st' : State eng) :
  rooms st' = rooms st -> peers st' = peers st -> same_membership st st'.
Proof. intros Hr Hp. split; [exact Hr|now rewrite Hp]. Qed.

Lemma same_membership_basic : basic_steps (@same_membership eng).
Proof.
  constructor.
  - intros st. now apply same_membership_quiet.
  - intros a b c [R1 V1] [R2 V2]. split; congruence.
  - intros socket frame st _. unfold sendMessage.
    destruct (is_open (sockets st socket)); now apply same_membership_quiet.
  - intros c st. now apply same_membership_quiet.
  - intros e st. now apply same_membership_quiet.
Qed.

Lemma same_membership_peer (peer : Peer) :
  peer_steps (@same_membership eng) peer.
Proof.
  constructor; intros; (split; [reflexivity|]); simpl;
    apply room_view_update; intros p; split; reflexivity.
Qed.

Lemma In_JsMap_set_other {V : Type} (k : string) (v : V) (m : JsMap.t V)
  (kv : string * V) :
  In kv (JsMap.set k v m) -> fst kv <> k -> In kv m.
Proof.
  induction m as [|[k' v'] m IH]; simpl.
  - intros [<-|[]] Hne. simpl in Hne. contradiction.
  - destruct (String.eqb_spec k' k) as [->|Hk]; simpl.
    + intros [<-|Hin] Hne; [simpl in Hne; contradiction|now right].
    + intros [<-|Hin] Hne; [now left|right; now apply IH].
Qed.

Lemma In_JsMap_update {V : Type} (k : string) (f : V -> V) (m : JsMap.t V)
  (kv : string * V) :
  In kv (JsMap.update k f m) ->
  (fst kv = k /\ exists v, In (k, v) m /\ snd kv = f v)
  \/ (fst kv <> k /\ In kv m).
Proof.
  unfold JsMap.update. rewrite in_map_iff. intros ([k' v] & Hx & Hin).
  simpl in Hx. destruct (String.eqb_spec k' k) as [->|Hne]; subst kv; simpl.
  - left. split; [reflexivity|]. exists v. split; [exact Hin|reflexivity].
  - right. split; [exact Hne|exact Hin].
Qed.

(** [joinRoom], in a well-formed state. *)
Lemma room_ok_join (st : State eng) (peerId : string) (peer : Peer)
  (pl : Payload) :
  wf st -> JsMap.get peerId (peers st) = Some peer ->
  room_ok st -> room_ok (snd (addPeerToRoomAndNotifyOthers peer pl st)).
Proof.
  intros ((_ & _ & Hid) & _) Hp [Hi Hm].
  destruct (join_registries eng st peer pl) as (Hps & Hrs & _).
  split.
  - unfold rooms_inhabited in *. rewrite Hrs, Forall_forall.
    intros kv Hin. apply In_JsMap_update in Hin.
    destruct Hin as [(Hk & v & Hv & Hs)|(Hk & Hin)].
    + rewrite Hs. simpl. intros Hnil.
      pose proof (add_In (p_id peer) (r_peers v)) as Ha.
      rewrite Hnil in Ha. destruct Ha.
    + rewrite Forall_forall in Hi. apply Hi.
      destruct (JsMap.has (q_roomId pl) (rooms st)); [exact Hin|].
      eapply In_JsMap_set_other; eassumption.
  - unfold roomId_is_member in *. rewrite Hps, Forall_forall.
    rewrite Forall_forall in Hm, Hid.
    intros kv Hin. apply In_JsMap_update in Hin.
    destruct Hin as [(Hk & v & Hv & Hs)|(Hk & Hin)].
    + rewrite Hs. simpl. intros r [= <-].
      specialize (Hid _ Hv). simpl in Hid. rewrite Hid.
      rewrite join_joined_room. apply add_In.
    + intros r Hr. apply join_members_grow. now apply (Hm kv Hin).
Qed.

Lemma disconnect_registries (st : State eng) (peerId : string)
  (peer : Peer) :
  JsMap.get peerId (peers st) = Some peer ->
  peers (step (EvClose peerId) st) = JsMap.delete peerId (peers st)
  /\ rooms (step (EvClose peerId) st) =
     rooms_after_leave peerId peer (rooms st).
Proof.
  intros Hp.
  assert (Hmain : exists st2,
    handlePeerDisconnection peerId st = (inr tt, st2)
    /\ peers st2 = JsMap.delete peerId (peers st)
    /\ rooms st2 = rooms_after_leave peerId peer (rooms st)).
  { unfold handlePeerDisconnection.
    unfold bind at 1. unfold gets at 1. simpl. rewrite Hp.
    unfold bind at 1. rewrite close_all_transports_exact.
    unfold bind at 1.
    unfold remove_from_room, rooms_after_leave.
    destruct (truthy (roomId peer)) as [rid|];
      [|eexists; split; [reflexivity|split; reflexivity]].
    unfold bind at 1. unfold gets at 1. simpl.
    destruct (JsMap.get rid (rooms st)) as [room|];
      [|eexists; split; [reflexivity|split; reflexivity]].
    unfold bind at 1. unfold modify at 1. simpl.
    unfold bind at 1. rewrite peerLeft_loop. simpl.
    unfold JsSet.size.
    destruct (Nat.eqb (List.length (JsSet.delete peerId (r_peers room))) 0);
      eexists; (split; [reflexivity|split; reflexivity]). }
  destruct Hmain as (st2 & Heq & H1 & H2).
  simpl. unfold onClose. rewrite Heq. split; assumption.
Qed.

Lemma truthy_Some (o : option string) (rid : string) :
  truthy o = Some rid -> o = Some rid.
Proof.
  unfold truthy. destruct o as [s|]; [|discriminate].
  destruct (s =? ""); [discriminate|]. intros [= ->]. reflexivity.
Qed.

(** A disconnection, in a well-formed state. *)
Lemma room_ok_disconnect (st : State eng) (peerId : string) (peer : Peer) :
  wf st -> JsMap.get peerId (peers st) = Some peer ->
  room_ok st -> room_ok (step (EvClose peerId) st).
Proof.
  intros ((_ & _ & Hid) & _) Hp [Hi Hm].
  destruct (disconnect_registries st peerId peer Hp) as (Hps & Hrs).
  unfold room_ok, rooms_inhabited, roomId_is_member in *.
  rewrite Forall_forall in Hi, Hm, Hid.
  assert (Hkeep : forall kv, In kv (JsMap.delete peerId (peers st)) ->
    In kv (peers st) /\ p_id (snd kv) <> peerId).
  { intros kv Hin. unfold JsMap.delete in Hin. apply filter_In in Hin.
    destruct Hin as [Hin Hne]. split; [exact Hin|].
    rewrite (Hid kv Hin). apply negb_true_iff, String.eqb_neq in Hne.
    exact Hne. }
  unfold rooms_after_leave in Hrs.
  destruct (truthy (roomId peer)) as [rid|] eqn:Htr.
  2:{ split; rewrite Forall_forall.
      - rewrite Hrs. exact Hi.
      - rewrite Hps. intros kv Hin r Hr. destruct (Hkeep kv Hin) as [Hin' _].
        rewrite (members_same_rooms st _ r Hrs). now apply (Hm kv Hin'). }
  destruct (JsMap.get rid (rooms st)) as [room|] eqn:Hroom.
  2:{ split; rewrite Forall_forall.
      - rewrite Hrs. exact Hi.
      - rewrite Hps. intros kv Hin r Hr. destruct (Hkeep kv Hin) as [Hin' _].
        rewrite (members_same_rooms st _ r Hrs). now apply (Hm kv Hin'). }
  set (remaining := JsSet.delete peerId (r_peers room)) in *.
  assert (Hother : forall r, r <> rid ->
    JsMap.get r (rooms (step (EvClose peerId) st)) = JsMap.get r (rooms st)).
  { intros r Hne. rewrite Hrs.
    assert (Hu : JsMap.get r (JsMap.update rid (set_r_peers remaining)
                                (rooms st)) = JsMap.get r (rooms st)).
    { rewrite JsMapFacts.get_update. apply String.eqb_neq in Hne.
      now rewrite Hne. }
    destruct (Nat.eqb (JsSet.size remaining) 0); [|exact Hu].
    rewrite JsMapFacts.get_delete_other by congruence. exact Hu. }
  split; rewrite Forall_forall.
  - rewrite Hrs. intros kv Hin.
    destruct (Nat.eqb (JsSet.size remaining) 0) eqn:Hz.
    + unfold JsMap.delete in Hin. apply filter_In in Hin.
      destruct Hin as [Hin Hne].
      apply negb_true_iff, String.eqb_neq in Hne.
      apply In_JsMap_update in Hin.
      destruct Hin as [(Hk & _)|(_ & Hin)]; [contradiction|].
      now apply Hi.
    + apply In_JsMap_update in Hin.
      destruct Hin as [(Hk & v & Hv & Hs)|(_ & Hin)]; [|now apply Hi].
      rewrite Hs. simpl. intros Hnil. unfold JsSet.size in Hz.
      rewrite Hnil in Hz. discriminate.
  - rewrite Hps. intros kv Hin r Hr.
    destruct (Hkeep kv Hin) as [Hin' Hne].
    pose proof (Hm kv Hin' r Hr) as Hmem.
    destruct (String.eqb_spec r rid) as [->|Hr'].
    + unfold members in Hmem. rewrite Hroom in Hmem.
      assert (Hrem : In (p_id (snd kv)) remaining).
      { apply JsSetFacts.delete_in. split; assumption. }
      unfold members. rewrite Hrs.
      destruct (Nat.eqb (JsSet.size remaining) 0) eqn:Hz.
      * unfold JsSet.size in Hz. destruct remaining; [destruct Hrem|].
        discriminate.
      * rewrite JsMapFacts.get_update, String.eqb_refl, Hroom. simpl.
        exact Hrem.
    + unfold members in *. rewrite (Hother r Hr'). exact Hmem.
Qed.

Lemma room_ok_step (ev : Event) (st : State eng) :
  wf st -> room_ok st -> room_ok (step ev st).
Proof.
  intros Hwf Hok. destruct ev as [s p|s p m|p|s r].
  - (* connection *)
    destruct Hok as [Hi Hm]. simpl.
    unfold onConnection, bind, modify, sendMessage. simpl.
    assert (H : room_ok
      (with_peers
         (JsMap.set p
            {| p_id := p; p_socket := s; transports := JsMap.empty;
               producers := JsMap.empty; consumers := JsMap.empty;
               roomId := None |}) st)).
    { split; [exact Hi|]. unfold roomId_is_member in *. simpl.
      apply Forall_JsMap_set.
      - simpl. discriminate.
      - exact Hm. }
    destruct (is_open (sockets st s)); exact H.
  - (* message *)
    assert (Hcatch : forall msg (st1 : State eng),
      room_ok st1 ->
      room_ok (snd (bind
                      (console_error "[WebSocket] Error handling message:"
                         msg)
                      (fun _ => sendMessage s (error msg)) st1))).
    { intros msg st1 H1. unfold bind, console_error, modify, sendMessage.
      simpl. destruct (is_open (sockets st1 s)); exact H1. }
    simpl. unfold onMessage. destruct m as [msg|data].
    + apply Hcatch. exact Hok.
    + assert (H1 : room_ok (snd (routeIncomingMessage p data st))).
      { destruct (String.eqb_spec (type data) "joinRoom") as [Hty|Hty].
        - unfold routeIncomingMessage.
          unfold bind at 1. unfold gets at 1. simpl.
          destruct (JsMap.get p (peers st)) as [peer|] eqn:Hp;
            [|exact Hok].
          rewrite Hty. simpl.
          apply (room_ok_join st p peer (payload data) Hwf Hp Hok).
        - apply (room_ok_same_membership st); [|exact Hok].
          apply (pres_route_but_join eng (@same_membership eng)
                   same_membership_basic); [|exact Hty].
          intros peer _. apply same_membership_peer. }
      destruct (routeIncomingMessage p data st) as [[msg|[]] st1];
        simpl in *; [apply Hcatch; exact H1|exact H1].
  - (* close *)
    destruct (JsMap.get p (peers st)) as [peer|] eqn:Hp.
    + apply (room_ok_disconnect st p peer Hwf Hp Hok).
    + rewrite <- (close_of_unknown_peer eng st p Hp). exact Hok.
  - exact Hok.
Qed.

Lemma run_room_ok (evs : list Event) (st : State eng) :
  all_fresh evs st -> wf st -> room_ok st -> room_ok (run evs st).
Proof.
  revert st. induction evs as [|ev evs IH]; simpl; intros st Hf Hwf Hok.
  - exact Hok.
  - destruct Hf as [Hf Hrest]. apply IH; [exact Hrest| |].
    + apply step_keeps_wf; assumption.
    + apply room_ok_step; assumption.
Qed.

(** X16.  In every state the server reaches from its start, connections
    bringing sockets and ids not in use: the ids of the registry are
    pairwise distinct, so are the sockets of the peers, every peer is
    stored under its own id, and no member set lists an id twice. *)
Theorem reachable_registries_are_well_formed (evs : list Event) (e : E eng)
  (socks : string -> ReadyState) :
  all_fresh evs (initial eng e socks) ->
  let st := run evs (initial eng e socks) in
  NoDup (JsMap.keys (peers st))
  /\ NoDup (map p_socket (JsMap.values (peers st)))
  /\ Forall (fun kv => p_id (snd kv) = fst kv) (peers st)
  /\ Forall (fun kv => NoDup (r_peers (snd kv))) (rooms st).
Proof.
  intros Hf st.
  destruct (run_keeps_wf eng evs (initial eng e socks) Hf
              (initial_wf eng e socks)) as ((H1 & H2 & H3) & H4).
  repeat split; assumption.
Qed.

(** X17.  In every such state, every room of the registry has at least
    one member (a room is created with its first member and deleted with
    its last), and every registered peer whose room id is not [null] is a
    member of the room its room id names. *)
Theorem reachable_rooms_are_consistent (evs : list Event) (e : E eng)
  (socks : string -> ReadyState) :
  all_fresh evs (initial eng e socks) ->
  let st := run evs (initial eng e socks) in
  Forall (fun kv => r_peers (snd kv) <> []) (rooms st)
  /\ Forall (fun kv =>
       forall r, roomId (snd kv) = Some r ->
                 In (p_id (snd kv)) (members st r)) (peers st).
Proof.
  intros Hf st.
  apply (run_room_ok evs (initial eng e socks) Hf (initial_wf eng e socks)).
  split; constructor.
Qed.

End RoomInvariant.

Lemma reachable_registries_are_well_formed_witness :
  let st := st_room in
  NoDup (JsMap.keys (peers st))
  /\ NoDup (map p_socket (JsMap.values (peers st)))
  /\ Forall (fun kv => p_id (snd kv) = fst kv) (peers st)
  /\ Forall (fun kv => NoDup (r_peers (snd kv))) (rooms st).
Proof.
  apply (reachable_registries_are_well_formed counter_engine scenario_room 0
           all_open).
  vm_compute. intuition discriminate.
Defined.

Lemma reachable_rooms_are_consistent_witness :
  let st := st_room in
  Forall (fun kv => r_peers (snd kv) <> []) (rooms st)
  /\ Forall (fun kv =>
       forall r, roomId (snd kv) = Some r ->
                 In (p_id (snd kv)) (members st r)) (peers st).
Proof.
  apply (reachable_rooms_are_consistent counter_engine scenario_room 0
           all_open).
  vm_compute. intuition discriminate.
Defined.

(** ** Looking a producer up, and the frames of a join *)

Section LookupFacts.

Variable eng : Engine.

(** X18.  The lookup of [consume] finds the first peer, in the order of
    the registry, whose producer map has the id, together with the handle
    stored under it; it fails exactly when no registered peer has the id
    in its producer map. *)
Theorem find_producer_first_holder (pid : string) (ps : JsMap.t Peer) :
  (forall q h,
     find_producer pid ps = Some (q, h) <->
     exists l1 k l2 d,
       ps = l1 ++ (k, q) :: l2
       /\ Forall (fun kv => JsMap.get pid (producers (snd kv)) = None) l1
       /\ JsMap.get pid (producers q) = Some d
       /\ producer d = h)
  /\ (find_producer pid ps = None <->
      Forall (fun kv => JsMap.get pid (producers (snd kv)) = None) ps).
Proof.
  induction ps as [|[k p] ps [IHs IHn]]; simpl.
  - split.
    + intros q h. split; [discriminate|].
      intros (l1 & k & l2 & d & H & _). destruct l1; discriminate.
    + split; [constructor|reflexivity].
  - destruct (JsMap.get pid (producers p)) as [d|] eqn:Hd.
    + split.
      * intros q h. split.
        -- intros [= <- <-]. exists [], k, ps, d.
           repeat split; [constructor|exact Hd].
        -- intros (l1 & k' & l2 & d' & H & Hall & Hq & Hh).
           destruct l1 as [|[k1 p1] l1]; simpl in H.
           ++ injection H as _ <- _. rewrite Hd in Hq.
              injection Hq as <-. now rewrite Hh.
           ++ injection H as _ <- _. apply Forall_cons_iff in Hall.
              simpl in Hall. destruct Hall as [Hnone _]. congruence.
      * split; [discriminate|].
        intros Hall. apply Forall_cons_iff in Hall. simpl in Hall.
        destruct Hall as [Hnone _]. congruence.
    + split.
      * intros q h. rewrite IHs. split.
        -- intros (l1 & k' & l2 & d & H & Hall & Hq & Hh).
           exists ((k, p) :: l1), k', l2, d. rewrite H.
           repeat split; try assumption. constructor; assumption.
        -- intros (l1 & k' & l2 & d & H & Hall & Hq & Hh).
           destruct l1 as [|[k1 p1] l1]; simpl in H.
           ++ injection H as _ <- _. congruence.
           ++ injection H as _ _ ->. apply Forall_cons_iff in Hall.
              exists l1, k', l2, d. repeat split; tauto.
      * rewrite IHn. split.
        -- intros H. constructor; assumption.
        -- intros H. apply Forall_cons_iff in H. tauto.
Qed.





End LookupFacts.


Lemma find_producer_first_holder_witness :
  (forall q h,
     find_producer "P1" (peers st_scenario) = Some (q, h) <->
     exists l1 k l2 d,
       peers st_scenario = l1 ++ (k, q) :: l2
       /\ Forall (fun kv => JsMap.get "P1" (producers (snd kv)) = None) l1
       /\ JsMap.get "P1" (producers q) = Some d
       /\ producer d = h)
  /\ (find_producer "P1" (peers st_scenario) = None <->
      Forall (fun kv => JsMap.get "P1" (producers (snd kv)) = None)
        (peers st_scenario)).
Proof.
  exact (find_producer_first_holder "P1" (peers st_scenario)).
Defined.

(** * Further properties of the client *)

Section ClientEdges.

Variable lib : Client.Lib.

Lemma client_send_dropped (r : Client.Request) (st : Client.State lib) :
  Client.socket st <> Some OPEN ->
  Client.sendMessage r st =
  Client.with_errors (Client.errors st ++ ["WebSocket not connected"]) st.
Proof.
  intros H. unfold Client.sendMessage.
  destruct (Client.socket st) as [[]|]; try reflexivity. contradiction.
Qed.

Lemma with_errors_same (st : Client.State lib) :
  Client.with_errors (Client.errors st) st = st.
Proof. destruct st. reflexivity. Qed.

Lemma consume_producers_dropped (caps : Blob) (l : list ProducerRef)
  (st : Client.State lib) :
  Client.socket st <> Some OPEN ->
  fold_left (fun s' producer =>
    Client.sendMessage (Client.consume (ref_producerId producer) caps) s')
    l st =
  Client.with_errors
    (Client.errors st ++ repeat "WebSocket not connected" (List.length l)) st.
Proof.
  revert st. induction l as [|r l IH]; intros st Ho; simpl.
  - now rewrite app_nil_r, with_errors_same.
  - rewrite client_send_dropped by exact Ho.
    rewrite IH by exact Ho. simpl. rewrite <- app_assoc. reflexivity.
Qed.

Lemma consume_all_dropped (caps : Blob) (q : list PeerInfo)
  (st : Client.State lib) :
  Client.socket st <> Some OPEN ->
  Client.consume_all caps q st =
  Client.with_errors
    (Client.errors st ++
     repeat "WebSocket not connected" (List.length (Client.refs_of q))) st.
Proof.
  unfold Client.consume_all, Client.refs_of.
  revert st. induction q as [|info q IH]; intros st Ho; simpl.
  - now rewrite app_nil_r, with_errors_same.
  - rewrite consume_producers_dropped by exact Ho.
    rewrite IH by exact Ho. simpl.
    rewrite length_app, repeat_app, app_assoc. reflexivity.
Qed.

(** X20.  If the socket of the client is not open when the receive
    transport is created, the pending queue is lost: no [consume] request
    is written, one ["WebSocket not connected"] line is logged for each
    producer reference of the queue, and the queue is emptied all the
    same, so the existing producers are never asked for. *)
Theorem closed_socket_loses_the_queue (st : Client.State lib)
  (produceMedia : Client.State lib -> (string + unit) * Client.State lib)
  (tid ice cand dtls : string) (d : Client.Device lib) (t : string) :
  Client.socket st <> Some OPEN ->
  Client.device st = Some d ->
  Client.createRecvTransport lib d tid ice cand dtls = inr t ->
  let r :=
    Client.configureTransportAndProduce produceMedia tid ice cand dtls
      "recv" st in
  fst r = inr tt
  /\ Client.sent (snd r) = Client.sent st
  /\ Client.pendingConsumers (snd r) = []
  /\ Client.errors (snd r) =
     Client.errors st ++
     repeat "WebSocket not connected"
       (List.length (Client.refs_of (Client.pendingConsumers st))).
Proof.
  intros Ho Hd Ht r. subst r.
  unfold Client.configureTransportAndProduce. simpl. rewrite Hd, Ht. simpl.
  rewrite (consume_all_dropped (Client.rtpCapabilities lib d)
             (Client.pendingConsumers st)
             (Client.with_recvTransport (Some t) st) Ho).
  destruct (Client.pendingConsumers st) as [|info q] eqn:Hq; simpl.
  - rewrite Hq, app_nil_r. repeat split.
  - repeat split.
Qed.

(** X21.  If the receive transport cannot be created (no device, or the
    library throws), the handler stops there with an error: the pending
    queue and everything else in the state of the client stay as they
    were, and nothing is written. *)
Theorem failed_recv_transport_keeps_queue (st : Client.State lib)
  (produceMedia : Client.State lib -> (string + unit) * Client.State lib)
  (tid ice cand dtls : string) :
  Client.device st = None
  \/ (exists d msg,
        Client.device st = Some d /\
        Client.createRecvTransport lib d tid ice cand dtls = inl msg) ->
  exists msg,
    Client.configureTransportAndProduce produceMedia tid ice cand dtls
      "recv" st = (inl msg, st).
Proof.
  intros [Hd|(d & msg & Hd & Ht)];
    unfold Client.configureTransportAndProduce; simpl; rewrite Hd.
  - eexists. reflexivity.
  - rewrite Ht. eexists. reflexivity.
Qed.

(** X22.  The client never queues a [newProducer] notification: for a
    run of notifications it writes one [consume] request per notification
    at once, in order, whether or not its receive transport exists, and
    it leaves the pending queue and the transports as they are. *)
Theorem newProducers_bypass_the_queue (pids : list string)
  (st : Client.State lib) (d : Client.Device lib) :
  Client.socket st = Some OPEN ->
  Client.device st = Some d ->
  let st' := handle_newProducers pids st in
  Client.sent st' =
    Client.sent st ++
    map (fun pid => Client.consume pid (Client.rtpCapabilities lib d)) pids
  /\ Client.pendingConsumers st' = Client.pendingConsumers st
  /\ Client.recvTransport st' = Client.recvTransport st.
Proof.
  intros Ho Hd st'. subst st'. unfold handle_newProducers.
  revert st Ho Hd. induction pids as [|pid pids IH]; intros st Ho Hd; simpl.
  - rewrite app_nil_r. repeat split.
  - assert (Hstep : snd (Client.requestToConsumeNewProducer pid st) =
      Client.with_sent
        (Client.sent st ++
         [Client.consume pid (Client.rtpCapabilities lib d)]) st).
    { unfold Client.requestToConsumeNewProducer. rewrite Hd. simpl.
      unfold Client.sendMessage. rewrite Ho. reflexivity. }
    rewrite Hstep.
    destruct (IH (Client.with_sent
                    (Client.sent st ++
                     [Client.consume pid (Client.rtpCapabilities lib d)]) st)
                Ho Hd) as (H1 & H2 & H3).
    rewrite H1, H2, H3. simpl. rewrite <- app_assoc. repeat split.
Qed.

End ClientEdges.

Lemma closed_socket_loses_the_queue_witness :
  let st := client_closing in
  let r :=
    Client.configureTransportAndProduce (fun s => (inr tt, s))
      "T2" "ice" "cand" "dtls" "recv" st in
  fst r = inr tt
  /\ Client.sent (snd r) = Client.sent st
  /\ Client.pendingConsumers (snd r) = []
  /\ Client.errors (snd r) =
     Client.errors st ++
     repeat "WebSocket not connected"
       (List.length (Client.refs_of (Client.pendingConsumers st))).
Proof.
  intros st r.
  apply (closed_socket_loses_the_queue simple_lib st (fun s => (inr tt, s))
           "T2" "ice" "cand" "dtls" tt "T2");
    [discriminate|reflexivity|reflexivity].
Defined.

Lemma failed_recv_transport_keeps_queue_witness :
  exists msg,
    Client.configureTransportAndProduce (fun s => (inr tt, s))
      "T2" "ice" "cand" "dtls" "recv" client_broken = (inl msg, client_broken).
Proof.
  apply (failed_recv_transport_keeps_queue broken_lib client_broken
           (fun s => (inr tt, s)) "T2" "ice" "cand" "dtls").
  right. exists tt, "not loaded". split; reflexivity.
Defined.

Lemma newProducers_bypass_the_queue_witness :
  let st := client_joined in
  let st' := handle_newProducers ["v7"; "a7"] st in
  Client.sent st' =
    Client.sent st ++
    map (fun pid => Client.consume pid "device-caps") ["v7"; "a7"]
  /\ Client.pendingConsumers st' = Client.pendingConsumers st
  /\ Client.recvTransport st' = Client.recvTransport st.
Proof.
  intros st st'.
  apply (newProducers_bypass_the_queue simple_lib ["v7"; "a7"] st tt);
    reflexivity.
Defined.
